(** * spec2cpp: the model-to-code derivation of [tools/spec2cpp/specwriter.cpp]

    A shallow embedding of the two writers of the file, the table-driven
    [SpecWriter] and the tree-structured [MetaSpecWriter], and the properties
    of the emission order, the property rendering, the JSON bindings and the
    clean-up pass that the specification states about them.

    Conventions.  A [QString] is a [string], one character per [QChar]; a
    [QStringList] and a [std::vector] are lists; a [std::unordered_set] of
    names is a [gset string]; a [std::map] is a [gmap].  A value reached
    through a [std::shared_ptr] and changed in place is returned, changed, next
    to the result of the function that changes it.  [QString::arg] with
    several arguments fills the place markers [%1], [%2], ... in one pass, so a
    formatted text is the concatenation of the pieces of its pattern and the
    arguments. *)

From Stdlib Require Import Ascii String.
From stdpp Require Import base list gmap strings relations sorting pretty.

#[local] Set Warnings "-clear-no-such-hyp".

(** ** [QString] and [QStringList] operations used by the writers *)

Module QString.

Definition nl : string := String "010"%char EmptyString.
Definition tab : string := String "009"%char EmptyString.

(** [QChar::toUpper], on the letters [a]-[z]; every other character is left as
    it is. *)
Definition toUpper (c : ascii) : ascii :=
  let n := nat_of_ascii c in
  if (97 <=? n)%nat && (n <=? 122)%nat then ascii_of_nat (n - 32) else c.

(** [s[0] = s[0].toUpper()].  The index is out of range for the empty string
    (an assertion of Qt); the empty string is left as it is. *)
Definition upperFirst (s : string) : string :=
  match s with
  | EmptyString => EmptyString
  | String c s' => String (toUpper c) s'
  end.

(** [QString::remove(QChar)]: every occurrence of the character goes. *)
Fixpoint removeChar (c : ascii) (s : string) : string :=
  match s with
  | EmptyString => EmptyString
  | String a s' =>
      if Ascii.eqb a c then removeChar c s' else String a (removeChar c s')
  end.

(** [QString::remove(const QString &)]: the occurrences of [pat] are removed
    from left to right, the search resuming right after the removed one.
    [skip] counts the characters of the current occurrence still to drop. *)
Fixpoint removeFrom (pat : string) (skip : nat) (s : string) : string :=
  match s with
  | EmptyString => EmptyString
  | String a s' =>
      match skip with
      | S k => removeFrom pat k s'
      | O =>
          if String.prefix pat s
          then removeFrom pat (String.length pat - 1) s'
          else String a (removeFrom pat 0 s')
      end
  end.

Definition remove (pat s : string) : string :=
  match pat with
  | EmptyString => s
  | _ => removeFrom pat 0 s
  end.

(** [QString::contains(QChar)]. *)
Fixpoint containsChar (c : ascii) (s : string) : bool :=
  match s with
  | EmptyString => false
  | String a s' => Ascii.eqb a c || containsChar c s'
  end.

(** [QString::startsWith(QChar)]. *)
Definition startsWith (c : ascii) (s : string) : bool :=
  match s with
  | EmptyString => false
  | String a _ => Ascii.eqb a c
  end.

(** [QString::replace(QChar, QChar)]. *)
Fixpoint replaceChar (c d : ascii) (s : string) : string :=
  match s with
  | EmptyString => EmptyString
  | String a s' =>
      String (if Ascii.eqb a c then d else a) (replaceChar c d s')
  end.

(** [text += f(x)] for every [x] of [l], from an empty text. *)
Definition appendAll {A} (f : A → string) (l : list A) : string :=
  foldr (λ x acc, f x +:+ acc) EmptyString l.

(** [QString::split(QChar)]: the pieces between the separators, empty pieces
    kept; never an empty list. *)
Fixpoint split (sep : ascii) (s : string) : list string :=
  match s with
  | EmptyString => [EmptyString]
  | String a s' =>
      if Ascii.eqb a sep then EmptyString :: split sep s'
      else match split sep s' with
           | w :: ws => String a w :: ws
           | [] => [String a EmptyString]
           end
  end.

(** [QStringList::join]. *)
Definition join (sep : string) (l : list string) : string := String.concat sep l.

(** [QStringList::removeAll]. *)
Definition removeAll (x : string) (l : list string) : list string :=
  filter (λ y, y ≠ x) l.

(** [for (const auto &name : names) l.removeAll(name);] *)
Definition removeEach (names : list string) (l : list string) : list string :=
  foldl (λ acc n, removeAll n acc) l names.

End QString.

(** ** The table-driven model: [Data]

    The header that declares [Data] is not among the sources; the records have
    the members that [specwriter.cpp] reads and writes. *)

Module Data.

Module Notification.
Record t := mk { method : string; params : string }.
End Notification.

Module Request.
Record t := mk { method : string; params : string; result : string; error : string }.
End Request.

Module Value.
Record t := mk { name : string; value : string; comment : string }.
End Value.

Module Enumeration.
Record t := mk { name : string; comment : string; isString : bool; values : list Value.t }.
End Enumeration.

Module Type_.
Record t := mk { name : string; comment : string; dataType : string; dependencies : list string }.
End Type_.

Module Property.
Record t := mk { name : string; comment : string; dataType : string }.
End Property.

Module Interface.
#[local] Unset Elimination Schemes.
Inductive t := mk {
  name : string;
  comment : string;
  extends : list string;
  children : list t;
  properties : list Property.t;
  dependencies : list string }.
#[local] Set Elimination Schemes.
End Interface.

Record t := mk {
  notifications : list Notification.t;
  requests : list Request.t;
  enumerations : list Enumeration.t;
  types : list Type_.t;
  interfaces : list Interface.t }.

End Data.

(** ** What a caller sees of a call, and the files the writers produce *)

(** The functions of the file are [void] or return a text; none of them throws
    or aborts.  [Returned] is the normal end of a call; [Fatal] is how an error
    raised to the caller would show. *)
Inductive Completion :=
  | Returned
  | Fatal (message : string).

(** The output side.  [canOpen path] tells whether
    [QFile::open(WriteOnly | Truncate)] succeeds on [path]; [store path text]
    is what the file holds after [text] was streamed to it: [text] when the
    write succeeds, something shorter when it fails.  [files] maps a path to
    the contents of the file. *)
Record Device := mkDevice {
  canOpen : string → bool;
  store : string → string → string }.

(** A successful [open] truncates the file. *)
Definition openTruncate (path : string) (files : gmap string string) : gmap string string :=
  <[path := EmptyString]> files.

(** [QTextStream stream(&file); stream << text;] *)
Definition streamTo (dev : Device) (path text : string) (files : gmap string string)
  : gmap string string :=
  <[path := store dev path text]> files.

(** ** Algorithms of the standard library *)

Module Std.

(** [std::ranges::sort].  The standard fixes the outcome up to the order of
    equivalent elements.  The model places the elements, from left to right,
    in the sorted part before them, each one before the first element it is
    less than: the insertion sort that the library runs on ranges of at most
    sixteen elements.  On a longer range the library may leave equivalent
    elements in another order than the model does.  The model is used with
    comparisons that are strict weak orders only; the properties proved below
    of a sorted range, that it is a rearrangement ordered by the keys, hold
    of every conforming outcome. *)
Fixpoint insert {A} (comp : A → A → bool) (x : A) (sorted : list A) : list A :=
  match sorted with
  | [] => [x]
  | y :: sorted' => if comp x y then x :: sorted else y :: insert comp x sorted'
  end.

Definition sort {A} (comp : A → A → bool) (l : list A) : list A :=
  foldl (λ sorted x, insert comp x sorted) [] l.

(** [operator<] of [std::tuple<bool, QString>]: lexicographic, [false] before
    [true], the strings compared character by character. *)
Definition tupleLess (l r : bool * string) : bool :=
  let boolLess (a b : bool) := negb a && b in
  boolLess l.1 r.1 || (negb (boolLess r.1 l.1) && String.ltb l.2 r.2).

End Std.

(** ** Aliases and interfaces as the generic lambdas see them

    The lambdas of the emission loop and of the clean-up take [const auto &]
    and read [name] and [dependencies] of whatever they are given. *)

Class Declaration (A : Type) := {
  declName : A → string;
  declDependencies : A → list string;
  withDependencies : list string → A → A }.

Section Declarations.
Context {A : Type} `{Declaration A}.

(** The predicate of [std::stable_partition] in the emission loop. *)
Definition isReady (a : A) : Prop := declDependencies a = [].

(** [std::stable_partition]: the elements that satisfy the predicate, in
    their order, then the others, in their order. *)
Definition readyPart (l : list A) : list A := filter isReady l.
Definition blockedPart (l : list A) : list A := filter (λ a, ¬ isReady a) l.

(** [for (it ...) for (name : names) it->dependencies.removeAll(name);] *)
Definition cleanupDependencies (names : list string) (l : list A) : list A :=
  map (λ a, withDependencies (QString.removeEach names (declDependencies a)) a) l.

(** [while (it != end) if (names.contains(it->name)) it = erase(it); else ++it;] *)
Definition eraseNamed (names : gset string) (l : list A) : list A :=
  filter (λ a, declName a ∉ names) l.

(** [remove_if] with [existingTypeNames.contains(t.name)], then [erase]. *)
Definition eraseListed (names : list string) (l : list A) : list A :=
  filter (λ a, declName a ∉ names) l.

End Declarations.

(** What holds of [name] and [dependencies] as members of a structure: to set
    the dependencies changes nothing else, and the last value set is the one
    read. *)
Class DeclarationLaws (A : Type) `{Declaration A} : Prop := {
  declName_with d a : declName (withDependencies d a) = declName a;
  declDependencies_with d a : declDependencies (withDependencies d a) = d;
  withDependencies_twice d d' a :
    withDependencies d (withDependencies d' a) = withDependencies d a;
  withDependencies_same a : withDependencies (declDependencies a) a = a }.

(** [std::ranges::remove_if] with the lambda
    [!enumSet.insert(e.name).second], then [erase]: an enumeration goes when
    an earlier one has its name.  The lambda takes [const auto &]; [nameOf]
    reads the name. *)
Fixpoint removeDuplicates {E : Type} (nameOf : E → string) (enumSet : gset string)
    (enumerations : list E) : list E :=
  match enumerations with
  | [] => []
  | e :: others =>
      if bool_decide (nameOf e ∈ enumSet)
      then removeDuplicates nameOf enumSet others
      else e :: removeDuplicates nameOf ({[nameOf e]} ∪ enumSet) others
  end.

#[global] Instance Type_Declaration : Declaration Data.Type_.t := {
  declName := Data.Type_.name;
  declDependencies := Data.Type_.dependencies;
  withDependencies d t :=
    Data.Type_.mk (Data.Type_.name t) (Data.Type_.comment t) (Data.Type_.dataType t) d }.

#[global] Instance Interface_Declaration : Declaration Data.Interface.t := {
  declName := Data.Interface.name;
  declDependencies := Data.Interface.dependencies;
  withDependencies d i :=
    Data.Interface.mk (Data.Interface.name i) (Data.Interface.comment i)
      (Data.Interface.extends i) (Data.Interface.children i)
      (Data.Interface.properties i) d }.

(** ** Texts shared by the two writers *)

Module Patterns.
Import QString.

Definition dq : string := String "034"%char EmptyString.

Definition generatedBanner : string :=
  "// File generated by spec2cpp tool" +:+ nl +:+
  "// DO NOT MAKE ANY CHANGES HERE" +:+ nl +:+ nl +:+
  "#pragma once" +:+ nl +:+ nl.

Definition include (file : string) : string := "#include " +:+ dq +:+ file +:+ dq +:+ nl.
Definition includeSys (file : string) : string := "#include <" +:+ file +:+ ">" +:+ nl.

Definition namespaceLsp (text : string) : string :=
  nl +:+ "namespace Lsp {" +:+ nl +:+ text +:+ nl +:+ "}" +:+ nl.

Definition NotificationHeader (text : string) : string :=
  generatedBanner +:+ include "notificationmessage.h" +:+ include "types.h"
  +:+ namespaceLsp text.

Definition NotificationImpl (name method params : string) : string :=
  nl +:+ "inline constexpr char " +:+ name +:+ "Name[] = " +:+ dq +:+ method +:+ dq +:+ ";" +:+ nl
  +:+ "struct " +:+ name +:+ "Notification : public NotificationMessage<" +:+ name +:+ "Name, "
  +:+ params +:+ ">" +:+ nl +:+ "{};" +:+ nl.

Definition RequestHeader (text : string) : string :=
  generatedBanner +:+ include "requestmessage.h" +:+ include "types.h"
  +:+ namespaceLsp text.

Definition RequestImpl (name method params result error : string) : string :=
  nl +:+ "inline constexpr char " +:+ name +:+ "Name[] = " +:+ dq +:+ method +:+ dq +:+ ";" +:+ nl
  +:+ "struct " +:+ name +:+ "Request : public RequestMessage<" +:+ name +:+ "Name, "
  +:+ params +:+ ", " +:+ result +:+ ", " +:+ error +:+ ">" +:+ nl +:+ "{};" +:+ nl.

Definition CodeHeader (text : string) : string :=
  generatedBanner +:+ includeSys "nlohmann/json.hpp" +:+ nl
  +:+ includeSys "memory" +:+ includeSys "optional" +:+ includeSys "string"
  +:+ includeSys "tuple" +:+ includeSys "unordered_map" +:+ includeSys "variant"
  +:+ namespaceLsp text.

Definition CodeJsonHeader (text : string) : string :=
  generatedBanner +:+ include "json.h" +:+ include "types.h" +:+ namespaceLsp text.

Definition EnumImpl (comment name content : string) : string :=
  nl +:+ comment +:+ "enum class " +:+ name +:+ " {" +:+ nl +:+ content +:+ "};" +:+ nl.

Definition EnumJsonImpl (name content : string) : string :=
  nl +:+ "JSONIFY_ENUM( " +:+ name +:+ ", {" +:+ nl +:+ content +:+ "})" +:+ nl.

Definition TypeImpl (comment name dataType : string) : string :=
  nl +:+ comment +:+ "using " +:+ name +:+ " = " +:+ dataType +:+ ";" +:+ nl.

Definition ChildInterfaceImpl (name content : string) : string :=
  "struct " +:+ name +:+ " {" +:+ nl +:+ content +:+ "};" +:+ nl.

Definition MainInterfaceImpl (comment name extends content : string) : string :=
  nl +:+ comment +:+ "struct " +:+ name +:+ extends +:+ " {" +:+ nl +:+ content +:+ "};" +:+ nl.

(** The four renderings of a property. *)
Definition uniquePtrField (comment type name : string) : string :=
  comment +:+ "std::unique_ptr<" +:+ type +:+ "> " +:+ name +:+ ";" +:+ nl.
Definition optionalField (comment type name : string) : string :=
  comment +:+ "std::optional<" +:+ type +:+ "> " +:+ name +:+ ";" +:+ nl.
Definition constStringField (comment name literal : string) : string :=
  comment +:+ "static inline const std::string " +:+ name +:+ " = " +:+ literal +:+ ";" +:+ nl.
Definition plainField (comment type name : string) : string :=
  comment +:+ type +:+ " " +:+ name +:+ ";" +:+ nl.

Definition JsonifyFwd (scoped : string) : string := nl +:+ "JSONIFY_FWD(" +:+ scoped +:+ ")" +:+ nl.
Definition JsonifyEmpty (scoped : string) : string := "JSONIFY_EMPTY(" +:+ scoped +:+ ")" +:+ nl.
Definition Jsonify (scoped properties : string) : string :=
  "JSONIFY(" +:+ scoped +:+ ", " +:+ properties +:+ ")" +:+ nl.

(** [methodToName]: the pieces of the method between [/], the first one
    dropped when it is [$], [window] or [client], each with its first
    character in upper case.  An empty piece, whose first character the
    source reads out of range, adds nothing. *)
Definition methodToName (method : string) : string :=
  let names := split "/" method in
  let names :=
    match names with
    | first :: others =>
        if bool_decide (first = "$" ∨ first = "window" ∨ first = "client")
        then others else names
    | [] => names
    end in
  appendAll upperFirst names.

End Patterns.

(** ** The table-driven writer: [SpecWriter] *)

Module SpecWriter.
Import QString Patterns.

(** [static std::unordered_set<QString, QStringHash> exceptions] of [writeType]. *)
Definition writeType_exceptions : gset string :=
  {[ "integer"; "uinteger"; "decimal" ]}.

(** [SpecWriter::writeType]. *)
Definition writeType (type : Data.Type_.t) : string :=
  if bool_decide (Data.Type_.name type ∈ writeType_exceptions) then EmptyString
  else TypeImpl (Data.Type_.comment type) (Data.Type_.name type) (Data.Type_.dataType type).

(** [writeProperty] (the static function of the table-driven writer). *)
Definition writeProperty (property : Data.Property.t) (interface : string) : string :=
  let name := remove "readonly " (Data.Property.name property) in
  let isOptional := containsChar "?" (Data.Property.name property) in
  let isConstString := startsWith "'" (Data.Property.dataType property) in
  let isPtr := bool_decide (Data.Property.dataType property = interface) in
  if isPtr then
    uniquePtrField (Data.Property.comment property) (Data.Property.dataType property)
      (removeChar "?" name)
  else if isOptional then
    optionalField (Data.Property.comment property) (Data.Property.dataType property)
      (removeChar "?" name)
  else if isConstString then
    constStringField (Data.Property.comment property) name
      (replaceChar "'" "034" (Data.Property.dataType property))
  else
    plainField (Data.Property.comment property) (Data.Property.dataType property) name.

(** [writeChildInterface]. *)
Fixpoint writeChildInterface (interface : Data.Interface.t) (parent : list string) : string :=
  let parent := parent ++ [Data.Interface.name interface] in
  let content :=
    appendAll (λ child, writeChildInterface child parent) (Data.Interface.children interface)
    +:+ appendAll (λ property, writeProperty property (Data.Interface.name interface))
          (Data.Interface.properties interface) in
  ChildInterfaceImpl (Data.Interface.name interface) content.

(** [SpecWriter::writeMainInterface]. *)
Definition writeMainInterface (interface : Data.Interface.t) : string :=
  let extends := join ", public " (Data.Interface.extends interface) in
  let extends :=
    if bool_decide (extends = EmptyString) then extends else ": public " +:+ extends in
  let content :=
    appendAll (λ child, writeChildInterface child [Data.Interface.name interface])
      (Data.Interface.children interface)
    +:+ appendAll (λ property, writeProperty property (Data.Interface.name interface))
          (Data.Interface.properties interface) in
  MainInterfaceImpl (Data.Interface.comment interface) (Data.Interface.name interface)
    extends content.

(** [SpecWriter::writeEnums]. *)
Definition writeEnums (enumerations : list Data.Enumeration.t) : string :=
  appendAll (λ enumeration,
    let content :=
      appendAll (λ value,
        if Data.Enumeration.isString enumeration
        then Data.Value.comment value +:+ tab +:+ Data.Value.name value +:+ "," +:+ nl
        else Data.Value.comment value +:+ tab +:+ Data.Value.name value +:+ " = "
             +:+ Data.Value.value value +:+ "," +:+ nl)
        (Data.Enumeration.values enumeration) in
    EnumImpl (Data.Enumeration.comment enumeration) (Data.Enumeration.name enumeration) content)
    enumerations.

(** [SpecWriter::writeJsonEnums]. *)
Definition writeJsonEnums (enumerations : list Data.Enumeration.t) : string :=
  appendAll (λ enumeration,
    if Data.Enumeration.isString enumeration then
      let content :=
        appendAll (λ value,
          "    {" +:+ Data.Enumeration.name enumeration +:+ "::" +:+ Data.Value.name value
          +:+ ", " +:+ dq +:+ Data.Value.value value +:+ dq +:+ "}," +:+ nl)
          (Data.Enumeration.values enumeration) in
      EnumJsonImpl (Data.Enumeration.name enumeration) content
    else EmptyString)
    enumerations.

(** The [while] loop of [SpecWriter::writeTypesAndInterfaces], one element of
    the outcome per pass: the aliases and the interfaces the pass writes, in
    the order it writes them.  [types] and [interfaces] are the parts of the
    two vectors from [startType] and from [startStruct] on.  [fuel] bounds the
    number of passes; [None] tells that the loop is still running after
    [fuel] passes. *)
Fixpoint passes (fuel : nat) (types : list Data.Type_.t) (interfaces : list Data.Interface.t)
  : option (list (list Data.Type_.t * list Data.Interface.t)) :=
  match types, interfaces with
  | [], [] => Some []
  | _, _ =>
      match fuel with
      | O => None
      | S fuel =>
          let existingNames :=
            map Data.Type_.name (readyPart types)
            ++ map Data.Interface.name (readyPart interfaces) in
          rest ← passes fuel
                   (cleanupDependencies existingNames (blockedPart types))
                   (cleanupDependencies existingNames (blockedPart interfaces));
          Some ((readyPart types, readyPart interfaces) :: rest)
      end
  end.

(** The names a pass pushes on [existingNames]. *)
Definition passNames (pass : list Data.Type_.t * list Data.Interface.t) : list string :=
  map Data.Type_.name pass.1 ++ map Data.Interface.name pass.2.

(** The text a pass appends to [result]. *)
Definition passText (pass : list Data.Type_.t * list Data.Interface.t) : string :=
  appendAll writeType pass.1 +:+ appendAll writeMainInterface pass.2.

(** [SpecWriter::writeTypesAndInterfaces].  [sortByDependencies] holds of an
    element and itself, so it is no strict weak ordering and the behaviour of
    [std::ranges::sort] with it is undefined: the call may rearrange the
    vector in any way, and it may not return at all (the sort of libstdc++
    runs off a vector of more than sixteen elements of which none depends on
    another).  [sortTypes] and [sortInterfaces] stand for what the library
    does: [Some] of the vector as the call leaves it, [None] when the call
    does not return.  The outcome is the text and the two vectors as the loop
    leaves them; [None] when a sort does not return or the loop is still
    running after [fuel] passes. *)
Definition writeTypesAndInterfaces
    (sortTypes : list Data.Type_.t → option (list Data.Type_.t))
    (sortInterfaces : list Data.Interface.t → option (list Data.Interface.t))
    (fuel : nat) (data : Data.t) : option (string * Data.t) :=
  types ← sortTypes (Data.types data);
  interfaces ← sortInterfaces (Data.interfaces data);
  ps ← passes fuel types interfaces;
  Some (appendAll passText ps,
        Data.mk (Data.notifications data) (Data.requests data) (Data.enumerations data)
          (ps ≫= fst) (ps ≫= snd)).

(** [interfaceProperties] (table-driven).  [fuel] bounds the depth of the
    recursion through [extends]. *)
Fixpoint interfaceProperties (fuel : nat) (interface : Data.Interface.t)
    (interfaces : list Data.Interface.t) : option (list string) :=
  match fuel with
  | O => None
  | S fuel =>
      let properties :=
        map (λ prop, remove "readonly " (removeChar "?" (Data.Property.name prop)))
          (Data.Interface.properties interface) in
      foldl (λ acc extend,
          properties ← acc;
          match List.find (λ i, bool_decide (Data.Interface.name i = extend)) interfaces with
          | Some it => inherited ← interfaceProperties fuel it interfaces;
                       Some (properties ++ inherited)
          | None => Some properties
          end)
        (Some properties) (Data.Interface.extends interface)
  end.

(** [static std::unordered_set<QString> exceptions] of [writeJsonInterface]. *)
Definition writeJsonInterface_exceptions : gset string :=
  {[ "SelectionRange"; "FormattingOptions"; "ChangeAnnotationsType" ]}.

(** [SpecWriter::writeJsonInterface]; [interfaces] is [m_data.interfaces]. *)
Fixpoint writeJsonInterface (fuel : nat) (interfaces : list Data.Interface.t)
    (interface : Data.Interface.t) (parent : list string) : option string :=
  let parent := parent ++ [Data.Interface.name interface] in
  if bool_decide (Data.Interface.name interface ∈ writeJsonInterface_exceptions)
  then Some (JsonifyFwd (join "::" parent))
  else
    let result := if bool_decide (length parent = 1) then nl else EmptyString in
    properties ← interfaceProperties fuel interface interfaces;
    children ← foldr (λ child acc,
                  text ← writeJsonInterface fuel interfaces child parent;
                  others ← acc;
                  Some (text +:+ others))
                (Some EmptyString) (Data.Interface.children interface);
    Some (result +:+ children +:+
          (if bool_decide (properties = []) then JsonifyEmpty (join "::" parent)
           else Jsonify (join "::" parent) (join ", " properties))).

Definition specialEnumNames : gmap string string :=
  {[ "InitializeError" := "InitializeErrorCodes" ]}.

Definition removeStructNames : gset string :=
  {[ "Message"; "RequestMessage"; "ResponseMessage"; "ResponseError";
     "NotificationMessage"; "LSPObject"; "T" ]}.

Definition removeTypeNames : gset string := {[ "LSPAny" ]}.

(** The body of the loop that cleans the names and the values of an
    enumeration. *)
Definition cleanEnumeration (enumeration : Data.Enumeration.t) : Data.Enumeration.t :=
  let name := default (Data.Enumeration.name enumeration)
                (specialEnumNames !! Data.Enumeration.name enumeration) in
  let values :=
    map (λ value,
      Data.Value.mk (upperFirst (Data.Value.name value))
        (if Data.Enumeration.isString enumeration
         then removeChar "'" (Data.Value.value value)
         else upperFirst (Data.Value.value value))
        (Data.Value.comment value))
      (Data.Enumeration.values enumeration) in
  Data.Enumeration.mk name (Data.Enumeration.comment enumeration)
    (Data.Enumeration.isString enumeration) values.

(** [SpecWriter::cleanCode]. *)
Definition cleanCode (data : Data.t) : Data.t :=
  let enumerations := removeDuplicates Data.Enumeration.name ∅ (Data.enumerations data) in
  let enumerations := map cleanEnumeration enumerations in
  let interfaces := eraseNamed removeStructNames (Data.interfaces data) in
  let types := eraseNamed removeTypeNames (Data.types data) in
  let enumNames := map Data.Enumeration.name enumerations in
  let existingTypeNames := enumNames ++ map Data.Interface.name interfaces in
  let types := eraseListed existingTypeNames types in
  let types := cleanupDependencies enumNames types in
  let interfaces := cleanupDependencies enumNames interfaces in
  Data.mk (Data.notifications data) (Data.requests data) enumerations types interfaces.

(** [SpecWriter::saveNotifications]; [LSP_SOURCE_PATH] is the macro of the
    build. *)
Definition saveNotifications (LSP_SOURCE_PATH : string) (dev : Device)
    (files : gmap string string) (data : Data.t) : Completion * gmap string string :=
  let file := LSP_SOURCE_PATH +:+ "/notifications.h" in
  if negb (canOpen dev file) then (Returned, files)
  else
    let files := openTruncate file files in
    let text :=
      appendAll (λ notification,
        NotificationImpl (methodToName (Data.Notification.method notification))
          (Data.Notification.method notification) (Data.Notification.params notification))
        (Data.notifications data) in
    (Returned, streamTo dev file (NotificationHeader text) files).

(** [SpecWriter::saveRequests]. *)
Definition saveRequests (LSP_SOURCE_PATH : string) (dev : Device)
    (files : gmap string string) (data : Data.t) : Completion * gmap string string :=
  let file := LSP_SOURCE_PATH +:+ "/requests.h" in
  if negb (canOpen dev file) then (Returned, files)
  else
    let files := openTruncate file files in
    let text :=
      appendAll (λ request,
        RequestImpl (methodToName (Data.Request.method request))
          (Data.Request.method request) (Data.Request.params request)
          (Data.Request.result request) (Data.Request.error request))
        (Data.requests data) in
    (Returned, streamTo dev file (RequestHeader text) files).

(** [SpecWriter::saveCode].  The outcome is how the call ends, the files and
    [m_data] as the call leaves it; [None] when a sort does not return or the
    emission loop or the recursion through [extends] does not end within
    [fuel]. *)
Definition saveCode (LSP_SOURCE_PATH : string) (dev : Device)
    (sortTypes : list Data.Type_.t → option (list Data.Type_.t))
    (sortInterfaces : list Data.Interface.t → option (list Data.Interface.t))
    (fuel : nat) (files : gmap string string) (data : Data.t)
  : option (Completion * gmap string string * Data.t) :=
  let data := cleanCode data in
  let file := LSP_SOURCE_PATH +:+ "/types.h" in
  if negb (canOpen dev file) then Some (Returned, files, data)
  else
    let files := openTruncate file files in
    '(written, data) ← writeTypesAndInterfaces sortTypes sortInterfaces fuel data;
    let text := writeEnums (Data.enumerations data) +:+ written in
    let files := streamTo dev file (CodeHeader text) files in
    let file := LSP_SOURCE_PATH +:+ "/types_json.h" in
    if negb (canOpen dev file) then Some (Returned, files, data)
    else
      let files := openTruncate file files in
      bindings ← foldr (λ interface acc,
                    text ← writeJsonInterface fuel (Data.interfaces data) interface [];
                    others ← acc;
                    Some (text +:+ others))
                  (Some EmptyString) (Data.interfaces data);
      let text := writeJsonEnums (Data.enumerations data) +:+ bindings in
      Some (Returned, streamTo dev file (CodeJsonHeader text) files, data).

End SpecWriter.

(** ** The tree-structured model: [MetaData]

    The header that declares [MetaData] is not among the sources.  The records
    below have the members that [specwriter.cpp] reads and writes, with the
    types it uses them at.  [MetaData::Interface] derives from
    [MetaData::Type]; the two are one record here, [interface] telling which
    one a value is and [extends] being empty for a plain type.  [since], the
    introduction version, is a text like every other member that the writer
    formats or compares, and is compared as a text. *)

Module MetaData.

(** The kinds [specwriter.cpp] names; [OtherKind] stands for all the others. *)
Inductive TypeKind :=
  | Reference
  | Or
  | StringLiteral
  | OtherKind.

#[global] Instance TypeKind_eq_dec : EqDecision TypeKind.
Proof. solve_decision. Defined.

Module Type_.
#[local] Unset Elimination Schemes.
Inductive t := mk {
  kind : TypeKind;
  name : string;
  value : string;
  documentation : string;
  since : string;
  deprecated : bool;
  dependencies : list string;
  items : list t;
  interface : bool;
  extends : list t }.
#[local] Set Elimination Schemes.

(** [virtual bool is_interface() const]. *)
Definition is_interface (type : t) : bool := interface type.

(** Modelled from the spec: [is_deprecated] is declared in the absent header;
    the specification gives every alternative a deprecated flag, and
    [is_deprecated] reads it. *)
Definition is_deprecated (type : t) : bool := deprecated type.
End Type_.

(** [MetaData::Enumeration::String] and the other enumeration types. *)
Inductive EnumerationType :=
  | String_
  | NotString.

#[global] Instance EnumerationType_eq_dec : EqDecision EnumerationType.
Proof. solve_decision. Defined.

Module Value.
Record t := mk { name : string; value : string; documentation : string }.
End Value.

Module Enumeration.
Record t := mk {
  name : string;
  documentation : string;
  type : EnumerationType;
  values : list Value.t }.
End Enumeration.

Module Notification.
Record t := mk { name : string; params : option Type_.t }.
End Notification.

Module Request.
Record t := mk {
  name : string;
  params : option Type_.t;
  result : option Type_.t;
  error : string }.
End Request.

Record t := mk {
  notifications : list Notification.t;
  requests : list Request.t;
  enumerations : list Enumeration.t;
  types : list Type_.t;
  interfaces : list Type_.t }.

End MetaData.

#[global] Instance MetaType_Declaration : Declaration MetaData.Type_.t := {
  declName := MetaData.Type_.name;
  declDependencies := MetaData.Type_.dependencies;
  withDependencies d t :=
    MetaData.Type_.mk (MetaData.Type_.kind t) (MetaData.Type_.name t) (MetaData.Type_.value t)
      (MetaData.Type_.documentation t) (MetaData.Type_.since t) (MetaData.Type_.deprecated t)
      d (MetaData.Type_.items t) (MetaData.Type_.interface t) (MetaData.Type_.extends t) }.

(** ** The tree-structured writer: [MetaSpecWriter] *)

Module MetaSpecWriter.
Import QString Patterns MetaData.

(** [static std::unordered_set<QString, QStringHash> exceptions] of [writeType]. *)
Definition writeType_exceptions : gset string :=
  {[ "integer"; "uinteger"; "decimal" ]}.

(** [MetaSpecWriter::writeType]. *)
Definition writeType (type : Type_.t) : string :=
  if bool_decide (Type_.name type ∈ writeType_exceptions) then EmptyString
  else TypeImpl (Type_.documentation type) (Type_.name type) (Type_.value type).

(** The lambda [fetchType] of [writeProperty]; [rootTypes] is [m_rootTypes]. *)
Definition fetchType (rootTypes : list Type_.t) (type : Type_.t) : Type_.t :=
  if bool_decide (Type_.kind type ≠ Reference) then type
  else
    match List.find (λ value, bool_decide (Type_.value type = Type_.name value)) rootTypes with
    | Some it => it
    | None => type
    end.

(** The comparison [writeProperty] sorts the alternatives with. *)
Definition alternativeLess (rootTypes : list Type_.t) (lhs rhs : Type_.t) : bool :=
  let lhsType := fetchType rootTypes lhs in
  let rhsType := fetchType rootTypes rhs in
  Std.tupleLess (negb (Type_.is_deprecated lhsType), Type_.since lhsType)
                (negb (Type_.is_deprecated rhsType), Type_.since rhsType).

(** The value [writeProperty] gives a property of kind [Or]. *)
Definition variantOf (items : list Type_.t) : string :=
  "std::variant<" +:+ join ", " (map Type_.value items) +:+ ">".

(** The [if]/[else if] chain that ends [writeProperty]. *)
Definition propertyText (isPtr isOptional isConstString : bool)
    (documentation value name : string) : string :=
  if isPtr then uniquePtrField documentation value (removeChar "?" name)
  else if isOptional then optionalField documentation value (removeChar "?" name)
  else if isConstString then constStringField documentation name (dq +:+ value +:+ dq)
  else plainField documentation value name.

(** [MetaSpecWriter::writeProperty].  The outcome is the text and the
    property as the call leaves it: the alternatives of an [Or] sorted and its
    value set, the documentation of a [StringLiteral] extended by the texts of
    its items.  The two changes are under tests on [kind] that exclude each
    other, so they are the branches of one case distinction here. *)
Fixpoint writeProperty (rootTypes : list Type_.t) (property : Type_.t) (interface : string)
  : string * Type_.t :=
  match property with
  | Type_.mk kind name value documentation since deprecated dependencies items isInterface
      extends =>
      let isOptional := containsChar "?" name in
      let isConstString := bool_decide (kind = StringLiteral) in
      let isPtr := bool_decide (value = interface) in
      let '(value, documentation, items) :=
        match kind with
        | Or =>
            let items := Std.sort (alternativeLess rootTypes) items in
            (variantOf items, documentation, items)
        | StringLiteral =>
            match items with
            | [] => (value, documentation, items)
            | _ =>
                let '(documentation, items) :=
                  (fix each (items : list Type_.t) (documentation : string)
                     : string * list Type_.t :=
                     match items with
                     | [] => (documentation, [])
                     | item :: others =>
                         let '(text, item) := writeProperty rootTypes item interface in
                         let '(documentation, others) := each others (documentation +:+ text) in
                         (documentation, item :: others)
                     end) items documentation in
                (value, documentation, items)
            end
        | _ => (value, documentation, items)
        end in
      (propertyText isPtr isOptional isConstString documentation value name,
       Type_.mk kind name value documentation since deprecated dependencies items isInterface
         extends)
  end.

(** The loop of [writeProperty] over the items of a [StringLiteral], as a
    function of its own: the documentation after the loop and the items as
    the calls leave them. *)
Fixpoint documentItems (rootTypes : list Type_.t) (interface : string)
    (items : list Type_.t) (documentation : string) : string * list Type_.t :=
  match items with
  | [] => (documentation, [])
  | item :: others =>
      let '(text, item) := writeProperty rootTypes item interface in
      let '(documentation, others) :=
        documentItems rootTypes interface others (documentation +:+ text) in
      (documentation, item :: others)
  end.

(** [MetaSpecWriter::writeChildInterface]. *)
Fixpoint writeChildInterface (rootTypes : list Type_.t) (type : Type_.t) (parent : list string)
  : string :=
  let name := removeChar "?" (Type_.name type) in
  let parent := parent ++ [name] in
  let content :=
    appendAll (λ item,
      if Type_.is_interface item then writeChildInterface rootTypes item parent
      else (writeProperty rootTypes item name).1)
      (Type_.items type) in
  ChildInterfaceImpl name content.

(** [MetaSpecWriter::writeMainInterface].  Every base is appended with the
    separator after it and the last separator is removed again: the bases
    joined by the separator. *)
Definition writeMainInterface (rootTypes : list Type_.t) (interface : Type_.t) : string :=
  let extends :=
    match Type_.extends interface with
    | [] => EmptyString
    | _ => " : public " +:+ join ", public " (map Type_.value (Type_.extends interface))
    end in
  let content :=
    appendAll (λ item,
      if Type_.is_interface item
      then writeChildInterface rootTypes item [Type_.name interface]
      else (writeProperty rootTypes item (Type_.name interface)).1)
      (Type_.items interface) in
  MainInterfaceImpl (Type_.documentation interface) (Type_.name interface) extends content.

(** [MetaSpecWriter::writeEnums]. *)
Definition writeEnums (enumerations : list Enumeration.t) : string :=
  appendAll (λ enumeration,
    let content :=
      appendAll (λ value,
        if bool_decide (Enumeration.type enumeration = String_)
        then Value.documentation value +:+ tab +:+ Value.name value +:+ "," +:+ nl
        else Value.documentation value +:+ tab +:+ Value.name value +:+ " = "
             +:+ Value.value value +:+ "," +:+ nl)
        (Enumeration.values enumeration) in
    EnumImpl (Enumeration.documentation enumeration) (Enumeration.name enumeration) content)
    enumerations.

(** [MetaSpecWriter::writeJsonEnums]. *)
Definition writeJsonEnums (enumerations : list Enumeration.t) : string :=
  appendAll (λ enumeration,
    if bool_decide (Enumeration.type enumeration = String_) then
      let content :=
        appendAll (λ value,
          "    {" +:+ Enumeration.name enumeration +:+ "::" +:+ Value.name value
          +:+ ", " +:+ dq +:+ Value.value value +:+ dq +:+ "}," +:+ nl)
          (Enumeration.values enumeration) in
      EnumJsonImpl (Enumeration.name enumeration) content
    else EmptyString)
    enumerations.

(** The [for] loop of [MetaSpecWriter::writeTypesAndInterfaces], one element
    of the outcome per pass: the root types the pass writes, in the order it
    writes them, and [m_rootTypes] as it is during the pass.  [written] is the
    part of [m_rootTypes] before [startType], [rootTypes] the part from
    [startType] on.  [None] tells that the loop is still running after [fuel]
    passes. *)
Fixpoint passes (fuel : nat) (written rootTypes : list Type_.t)
  : option (list (list Type_.t * list Type_.t)) :=
  match rootTypes with
  | [] => Some []
  | _ =>
      match fuel with
      | O => None
      | S fuel =>
          let existingNames := map Type_.name (readyPart rootTypes) in
          rest ← passes fuel (written ++ readyPart rootTypes)
                   (cleanupDependencies existingNames (blockedPart rootTypes));
          Some ((readyPart rootTypes,
                 written ++ readyPart rootTypes ++ blockedPart rootTypes) :: rest)
      end
  end.

(** The text a pass appends to [result]. *)
Definition passText (pass : list Type_.t * list Type_.t) : string :=
  appendAll (λ type,
    if Type_.is_interface type then writeMainInterface pass.2 type else writeType type)
    pass.1.

(** [MetaSpecWriter::writeTypesAndInterfaces].  As in the table-driven writer,
    [sortRootTypes] stands for what [std::ranges::sort] does with a
    comparison that is no strict weak ordering: [Some] of the vector as the
    call leaves it, [None] when the call does not return.  Here the aliases and
    the interfaces are sorted as one vector. *)
Definition writeTypesAndInterfaces (sortRootTypes : list Type_.t → option (list Type_.t))
    (fuel : nat) (data : MetaData.t) : option string :=
  rootTypes ← sortRootTypes (MetaData.types data ++ MetaData.interfaces data);
  ps ← passes fuel [] rootTypes;
  Some (appendAll passText ps).

(** [interfaceProperties] (tree-structured). *)
Fixpoint interfaceProperties (fuel : nat) (interface : Type_.t) (interfaces : list Type_.t)
  : option (list string) :=
  match fuel with
  | O => None
  | S fuel =>
      let properties :=
        map (λ prop, removeChar "?" (Type_.name prop))
          (filter (λ prop, Type_.is_interface prop = false) (Type_.items interface)) in
      foldl (λ acc extend,
          properties ← acc;
          match List.find (λ i, bool_decide (Type_.name i = Type_.value extend)) interfaces with
          | Some it => inherited ← interfaceProperties fuel it interfaces;
                       Some (properties ++ inherited)
          | None => Some properties
          end)
        (Some properties) (Type_.extends interface)
  end.

(** [static std::unordered_set<QString> exceptions] of [writeJsonInterface]. *)
Definition writeJsonInterface_exceptions : gset string :=
  {[ "SelectionRange"; "FormattingOptions"; "ChangeAnnotationsType" ]}.

(** [MetaSpecWriter::writeJsonInterface]; [interfaces] is [m_data.interfaces]. *)
Fixpoint writeJsonInterface (fuel : nat) (interfaces : list Type_.t)
    (interface : Type_.t) (parent : list string) : option string :=
  let name := removeChar "?" (Type_.name interface) in
  let parent := parent ++ [name] in
  if bool_decide (name ∈ writeJsonInterface_exceptions)
  then Some (JsonifyFwd (join "::" parent))
  else
    let result := if bool_decide (length parent = 1) then nl else EmptyString in
    properties ← interfaceProperties fuel interface interfaces;
    children ← foldr (λ child acc,
                  text ← (if Type_.is_interface child
                          then writeJsonInterface fuel interfaces child parent
                          else Some EmptyString);
                  others ← acc;
                  Some (text +:+ others))
                (Some EmptyString) (Type_.items interface);
    Some (result +:+ children +:+
          (if bool_decide (properties = []) then JsonifyEmpty (join "::" parent)
           else Jsonify (join "::" parent) (join ", " properties))).

Definition specialEnumNames : gmap string string :=
  {[ "InitializeError" := "InitializeErrorCodes" ]}.

Definition removeStructNames : gset string :=
  {[ "Message"; "RequestMessage"; "ResponseMessage"; "ResponseError";
     "NotificationMessage"; "LSPObject"; "T" ]}.

Definition removeTypeNames : gset string := {[ "LSPAny" ]}.

(** The body of the loop that cleans the names and the values of an
    enumeration. *)
Definition cleanEnumeration (enumeration : Enumeration.t) : Enumeration.t :=
  let name := default (Enumeration.name enumeration)
                (specialEnumNames !! Enumeration.name enumeration) in
  let values :=
    map (λ value,
      Value.mk (upperFirst (Value.name value))
        (if bool_decide (Enumeration.type enumeration ≠ String_)
         then upperFirst (Value.value value)
         else Value.value value)
        (Value.documentation value))
      (Enumeration.values enumeration) in
  Enumeration.mk name (Enumeration.documentation enumeration)
    (Enumeration.type enumeration) values.

(** [MetaSpecWriter::cleanCode]. *)
Definition cleanCode (data : MetaData.t) : MetaData.t :=
  let enumerations := removeDuplicates Enumeration.name ∅ (MetaData.enumerations data) in
  let enumerations := map cleanEnumeration enumerations in
  let interfaces := eraseNamed removeStructNames (MetaData.interfaces data) in
  let types := eraseNamed removeTypeNames (MetaData.types data) in
  let enumNames := map Enumeration.name enumerations in
  let existingTypeNames := enumNames ++ map Type_.name interfaces in
  let types := eraseListed existingTypeNames types in
  let types := cleanupDependencies enumNames types in
  let interfaces := cleanupDependencies enumNames interfaces in
  MetaData.mk (MetaData.notifications data) (MetaData.requests data) enumerations types
    interfaces.

(** [params ? params->value : QStringLiteral("std::nullptr_t")]. *)
Definition valueOrNull (type : option Type_.t) : string :=
  match type with
  | Some type => Type_.value type
  | None => "std::nullptr_t"
  end.

(** [MetaSpecWriter::saveNotifications]. *)
Definition saveNotifications (LSP_SOURCE_PATH : string) (dev : Device)
    (files : gmap string string) (data : MetaData.t) : Completion * gmap string string :=
  let file := LSP_SOURCE_PATH +:+ "/notifications.h" in
  if negb (canOpen dev file) then (Returned, files)
  else
    let files := openTruncate file files in
    let text :=
      appendAll (λ notification,
        NotificationImpl (methodToName (Notification.name notification))
          (Notification.name notification) (valueOrNull (Notification.params notification)))
        (MetaData.notifications data) in
    (Returned, streamTo dev file (NotificationHeader text) files).

(** [MetaSpecWriter::saveRequests]. *)
Definition saveRequests (LSP_SOURCE_PATH : string) (dev : Device)
    (files : gmap string string) (data : MetaData.t) : Completion * gmap string string :=
  let file := LSP_SOURCE_PATH +:+ "/requests.h" in
  if negb (canOpen dev file) then (Returned, files)
  else
    let files := openTruncate file files in
    let text :=
      appendAll (λ request,
        RequestImpl (methodToName (Request.name request)) (Request.name request)
          (valueOrNull (Request.params request)) (valueOrNull (Request.result request))
          (Request.error request))
        (MetaData.requests data) in
    (Returned, streamTo dev file (RequestHeader text) files).

(** [MetaSpecWriter::saveCode].  The outcome is how the call ends and the
    files; the changes the call makes to the model through the shared pointers
    are read by nothing in it after they are made. *)
Definition saveCode (LSP_SOURCE_PATH : string) (dev : Device)
    (sortRootTypes : list Type_.t → option (list Type_.t))
    (fuel : nat) (files : gmap string string) (data : MetaData.t)
  : option (Completion * gmap string string) :=
  let data := cleanCode data in
  let file := LSP_SOURCE_PATH +:+ "/types.h" in
  if negb (canOpen dev file) then Some (Returned, files)
  else
    let files := openTruncate file files in
    written ← writeTypesAndInterfaces sortRootTypes fuel data;
    let text := writeEnums (MetaData.enumerations data) +:+ written in
    let files := streamTo dev file (CodeHeader text) files in
    let file := LSP_SOURCE_PATH +:+ "/types_json.h" in
    if negb (canOpen dev file) then Some (Returned, files)
    else
      let files := openTruncate file files in
      bindings ← foldr (λ interface acc,
                    text ← writeJsonInterface fuel (MetaData.interfaces data) interface [];
                    others ← acc;
                    Some (text +:+ others))
                  (Some EmptyString) (MetaData.interfaces data);
      let text := writeJsonEnums (MetaData.enumerations data) +:+ bindings in
      Some (Returned, streamTo dev file (CodeJsonHeader text) files).

End MetaSpecWriter.

(** ** The flattened list of property names, following the specification

    The list of an interface is made of the names of its own properties that
    are no nested interfaces, in declared order, followed by the flattened
    list of each base named in [extends], in the order of the entries.  A
    base is looked up by name among the interfaces of the model; a name that
    none of them bears contributes nothing.  The two writers differ in how
    they read the own names and the base names of an interface: [ownNames]
    and [baseNames]. *)

Section Flattening.
Context {I : Type} (nameOf : I → string) (ownNames : I → list string)
  (baseNames : I → list string) (interfaces : list I).

Definition findInterface (extend : string) : option I :=
  List.find (λ i, bool_decide (nameOf i = extend)) interfaces.

Inductive Flattened : I → list string → Prop :=
  | flattened_interface interface inherited :
      FlattenedBases (baseNames interface) inherited →
      Flattened interface (ownNames interface ++ inherited)
with FlattenedBases : list string → list string → Prop :=
  | flattened_none : FlattenedBases [] []
  | flattened_absent extend extends inherited :
      findInterface extend = None →
      FlattenedBases extends inherited →
      FlattenedBases (extend :: extends) inherited
  | flattened_present extend extends base properties inherited :
      findInterface extend = Some base →
      Flattened base properties →
      FlattenedBases extends inherited →
      FlattenedBases (extend :: extends) (properties ++ inherited).

Scheme Flattened_mutual := Minimality for Flattened Sort Prop
  with FlattenedBases_mutual := Minimality for FlattenedBases Sort Prop.

(** The recursion that the two [interfaceProperties] share. *)
Fixpoint flatten (fuel : nat) (interface : I) : option (list string) :=
  match fuel with
  | O => None
  | S fuel =>
      foldl (λ acc extend,
          properties ← acc;
          match findInterface extend with
          | Some it => inherited ← flatten fuel it; Some (properties ++ inherited)
          | None => Some properties
          end)
        (Some (ownNames interface)) (baseNames interface)
  end.

End Flattening.

(** The own names as the table-driven writer reads them in the first loop
    of [interfaceProperties]: the marker [?] and then the modifier
    [readonly ] taken off the name of every property. *)
Definition specOwnNames (interface : Data.Interface.t) : list string :=
  map (λ prop, QString.remove "readonly " (QString.removeChar "?" (Data.Property.name prop)))
    (Data.Interface.properties interface).

(** The own names as the specification has them: the optionality marker
    taken off the name of every property, and nothing else.  The properties
    of an interface of the table-driven model hold no nested interface; those
    are its children. *)
Definition statedOwnNames (interface : Data.Interface.t) : list string :=
  map (λ prop, QString.removeChar "?" (Data.Property.name prop))
    (Data.Interface.properties interface).

Definition SpecFlattened (interfaces : list Data.Interface.t)
  : Data.Interface.t → list string → Prop :=
  Flattened Data.Interface.name statedOwnNames Data.Interface.extends interfaces.

(** And as the tree-structured writer reads them: the marker [?] taken off
    the name of every item that is no interface; the bases by their value. *)
Definition metaOwnNames (interface : MetaData.Type_.t) : list string :=
  map (λ prop, QString.removeChar "?" (MetaData.Type_.name prop))
    (filter (λ prop, MetaData.Type_.is_interface prop = false)
       (MetaData.Type_.items interface)).

Definition metaBaseNames (interface : MetaData.Type_.t) : list string :=
  map MetaData.Type_.value (MetaData.Type_.extends interface).

Definition MetaFlattened (interfaces : list MetaData.Type_.t)
  : MetaData.Type_.t → list string → Prop :=
  Flattened MetaData.Type_.name metaOwnNames metaBaseNames interfaces.

(** ** The emission loop on names and dependencies alone

    The loop reads of an alias or an interface its name and its dependencies
    and changes its dependencies; all it does is seen on the pairs of the
    two. *)

#[global] Instance Pair_Declaration : Declaration (string * list string) := {
  declName := fst;
  declDependencies := snd;
  withDependencies d a := (a.1, d) }.

Definition declarations {A : Type} `{Declaration A} (l : list A) : list (string * list string) :=
  map (λ a, (declName a, declDependencies a)) l.

(** The names written by each pass of the loop over [remaining]. *)
Fixpoint waves (fuel : nat) (remaining : list (string * list string))
  : option (list (list string)) :=
  match remaining with
  | [] => Some []
  | _ =>
      match fuel with
      | O => None
      | S fuel =>
          let existingNames := map fst (readyPart remaining) in
          rest ← waves fuel (cleanupDependencies existingNames (blockedPart remaining));
          Some (existingNames :: rest)
      end
  end.

(** The dependency graph: [name] depends on [dependency] when a declaration of
    that name lists it. *)
Definition dependsOn (decls : list (string * list string)) (name dependency : string) : Prop :=
  ∃ dependencies, (name, dependencies) ∈ decls ∧ dependency ∈ dependencies.

#[global] Instance dependsOn_dec (decls : list (string * list string)) :
  RelDecision (dependsOn decls).
Proof.
  intros name dependency.
  refine (cast_if (decide (Exists (λ decl, decl.1 = name ∧ dependency ∈ decl.2) decls))).
  - apply Exists_exists in e as ([n ds] & Hin & Hn & Hd). cbn in Hn, Hd. subst n.
    by exists ds.
  - intros (ds & Hin & Hd). apply n. apply Exists_exists. by exists (name, ds).
Defined.

(** The graph without the self-references. *)
Definition dependsOnOther (decls : list (string * list string)) (name dependency : string)
  : Prop :=
  dependsOn decls name dependency ∧ name ≠ dependency.

Definition acyclic (R : relation string) : Prop := ∀ name, ¬ tc R name name.

(** Every dependency is the name of a declaration. *)
Definition resolved (decls : list (string * list string)) : Prop :=
  ∀ name dependency, dependsOn decls name dependency → dependency ∈ map fst decls.

(** What holds of the loop before every pass, for the declarations [decls0]
    it started from: the names still to write and the names written are
    those of [decls0], and what remains of the dependencies of a declaration
    are those that were not written yet. *)
Definition loopInvariant (decls0 : list (string * list string))
    (emitted : list string) (remaining : list (string * list string)) : Prop :=
  map fst remaining ++ emitted ≡ₚ map fst decls0 ∧
  ∀ name dependencies, (name, dependencies) ∈ remaining →
    ∃ dependencies0,
      (name, dependencies0) ∈ decls0 ∧
      dependencies = filter (λ d, d ∉ emitted) dependencies0.

(** What a pass is to write of a vector, in the words of the specification:
    the elements without dependencies left, that is, those not written yet
    whose dependencies were all written by earlier passes, in the order of
    the vector.  They are written with their dependencies gone. *)
Definition releasedBy {A : Type} `{Declaration A} (written : list string) (l : list A)
  : list A :=
  map (withDependencies [])
    (filter (λ a, (declName a ∉ written) ∧ Forall (λ d, d ∈ written) (declDependencies a)) l).

(** What is left of a vector once the names [written] are written: the
    elements of other names, without the dependencies that were written. *)
Definition remainingAfter {A : Type} `{Declaration A} (written : list string) (l : list A)
  : list A :=
  cleanupDependencies written (filter (λ a, declName a ∉ written) l).

(** ** Sample models *)

Module Examples.

(** [SelectionRange], whose optional [parent] is a [SelectionRange] again. *)
Definition parentProperty : Data.Property.t :=
  Data.Property.mk "parent?" EmptyString "SelectionRange".

Definition rangeProperty : Data.Property.t :=
  Data.Property.mk "range" EmptyString "Range".

Definition selectionRange : Data.Interface.t :=
  Data.Interface.mk "SelectionRange" EmptyString [] [] [rangeProperty; parentProperty] ["Range"].

(** A plain member of the tree-structured model. *)
Definition member (kind : MetaData.TypeKind) (name value : string) : MetaData.Type_.t :=
  MetaData.Type_.mk kind name value EmptyString EmptyString false [] [] false [].

Definition metaParent : MetaData.Type_.t := member MetaData.Reference "parent?" "SelectionRange".

(** An interface of the tree-structured model. *)
Definition structure (name : string) (extends items : list MetaData.Type_.t)
    (dependencies : list string) : MetaData.Type_.t :=
  MetaData.Type_.mk MetaData.OtherKind name name EmptyString EmptyString false dependencies
    items true extends.

Definition metaSelectionRange : MetaData.Type_.t :=
  structure "SelectionRange" [] [member MetaData.Reference "range" "Range"; metaParent] ["Range"].

(** A string literal whose text is the name of the interface it is in. *)
Definition literalNamedAsInterface : MetaData.Type_.t :=
  member MetaData.StringLiteral "kind" "create".

(** The same in the table-driven model, where the literal keeps its quotes. *)
Definition quotedNamedAsInterface : Data.Property.t :=
  Data.Property.mk "kind" EmptyString "'create'".

(** The union of the specification: [A], deprecated, since 3.0; [B], since
    3.15; [C], since 3.0. *)
Definition alternative (value since : string) (deprecated : bool) : MetaData.Type_.t :=
  MetaData.Type_.mk MetaData.OtherKind EmptyString value EmptyString since deprecated [] []
    false [].

Definition unionProperty : MetaData.Type_.t :=
  MetaData.Type_.mk MetaData.Or "choice" EmptyString EmptyString EmptyString false []
    [alternative "A" "3.0" true; alternative "B" "3.15" false; alternative "C" "3.0" false]
    false [].

(** [Child extends Parent], with [p1], [p2] in [Parent] and [p3] in [Child]. *)
Definition parent : Data.Interface.t :=
  Data.Interface.mk "Parent" EmptyString [] []
    [Data.Property.mk "p1" EmptyString "int"; Data.Property.mk "p2?" EmptyString "int"] [].

Definition child : Data.Interface.t :=
  Data.Interface.mk "Child" EmptyString ["Parent"] []
    [Data.Property.mk "p3" EmptyString "int"] ["Parent"].

(** An interface whose only property carries the modifier [readonly] and the
    optionality marker. *)
Definition readonlyHolder : Data.Interface.t :=
  Data.Interface.mk "Holder" EmptyString [] []
    [Data.Property.mk "readonly id?" EmptyString "int"] [].

Definition metaParentInterface : MetaData.Type_.t :=
  structure "Parent" []
    [member MetaData.OtherKind "p1" "int"; member MetaData.OtherKind "p2?" "int"] [].

Definition metaChildInterface : MetaData.Type_.t :=
  structure "Child" [member MetaData.Reference EmptyString "Parent"]
    [structure "Nested" [] [] []; member MetaData.OtherKind "p3" "int"] ["Parent"].

(** A model with the enumeration [InitializeError] and an enumeration that
    already has the name the clean-up gives it. *)
Definition twoInitializeErrors : Data.t :=
  Data.mk [] []
    [Data.Enumeration.mk "InitializeError" EmptyString false
       [Data.Value.mk "unknownProtocolVersion" "1" EmptyString];
     Data.Enumeration.mk "InitializeErrorCodes" EmptyString false
       [Data.Value.mk "unknownProtocolVersion" "1" EmptyString]]
    [] [].

Definition metaTwoInitializeErrors : MetaData.t :=
  MetaData.mk [] []
    [MetaData.Enumeration.mk "InitializeError" EmptyString MetaData.NotString
       [MetaData.Value.mk "unknownProtocolVersion" "1" EmptyString];
     MetaData.Enumeration.mk "InitializeErrorCodes" EmptyString MetaData.NotString
       [MetaData.Value.mk "unknownProtocolVersion" "1" EmptyString]]
    [] [].

(** Two interfaces that depend on each other, and one that depends on a name
    nothing bears. *)
Definition empty (name : string) (dependencies : list string) : Data.Interface.t :=
  Data.Interface.mk name EmptyString [] [] [] dependencies.

Definition cycle : list Data.Interface.t := [empty "A" ["B"]; empty "B" ["A"]].
Definition dangling : list Data.Interface.t := [empty "A" ["Missing"]].
Definition metaCycle : list MetaData.Type_.t :=
  [structure "A" [] [] ["B"]; structure "B" [] [] ["A"]].

(** The same two interfaces next to an alias that the first pass writes. *)
Definition aliasBeforeCycle : list Data.Type_.t :=
  [Data.Type_.mk "uinteger" EmptyString "unsigned int" []].
Definition cycleAfterAlias : list Data.Interface.t :=
  [empty "A" ["B"; "uinteger"]; empty "B" ["A"]].

(** An alias that names itself among its dependencies. *)
Definition selfDependent : list Data.Type_.t :=
  [Data.Type_.mk "A" EmptyString "std::vector<A>" ["A"]].

(** [Position], the alias [Positions] of it, and two interfaces on top. *)
Definition someTypes : list Data.Type_.t :=
  [Data.Type_.mk "Positions" EmptyString "std::vector<Position>" ["Position"];
   Data.Type_.mk "uinteger" EmptyString "unsigned int" []].

Definition someInterfaces : list Data.Interface.t :=
  [empty "Range" ["Position"]; empty "Position" ["uinteger"];
   empty "Location" ["Range"; "uinteger"]].

Definition someRootTypes : list MetaData.Type_.t :=
  [member MetaData.OtherKind "uinteger" "unsigned int";
   structure "Range" [] [] ["Position"];
   structure "Position" [] [] ["uinteger"]].

(** A union whose value is the name of the interface it is in. *)
Definition selfUnion : MetaData.Type_.t :=
  MetaData.Type_.mk MetaData.Or "next" "Node" EmptyString EmptyString false []
    [alternative "Node" "3.0" false; alternative "std::nullptr_t" "3.0" false] false [].

Definition openDevice : Device := mkDevice (λ _, true) (λ _ text, text).




(** The model of the end-to-end example: the string enumeration [E] with the
    value [foo] and the interface [I] with the property [x] of type [int]. *)
Definition endToEnd : Data.t :=
  Data.mk [] []
    [Data.Enumeration.mk "E" EmptyString true [Data.Value.mk "foo" "'foo'" EmptyString]]
    []
    [Data.Interface.mk "I" EmptyString [] [] [Data.Property.mk "x" EmptyString "int"] ["E"]].

Definition metaEndToEnd : MetaData.t :=
  MetaData.mk [] []
    [MetaData.Enumeration.mk "E" EmptyString MetaData.String_
       [MetaData.Value.mk "foo" "foo" EmptyString]]
    []
    [structure "I" [] [member MetaData.OtherKind "x" "int"] ["E"]].

End Examples.

(** ** Names that keep the loop from ending

    A set of names blocks what remains when some declaration depends on a name
    of the set and every declaration that bears a name of the set depends on
    a name of the set. *)
Definition blockedBy (blocking : string → Prop) (remaining : list (string * list string))
  : Prop :=
  (∃ decl d, decl ∈ remaining ∧ d ∈ decl.2 ∧ blocking d) ∧
  (∀ decl, decl ∈ remaining → blocking decl.1 → ∃ d, d ∈ decl.2 ∧ blocking d).

(** ** [Core::TextRange] of [core/textrange.h]

    The two members are of type [int]; nothing is computed with them, so
    they are integers here.  The range of [int] plays no part. *)

Module TextRange.

Record t := mk { start : Z; end_ : Z }.

(** [QString("{%1, %2}").arg(start).arg(end)]: the first [arg] puts the
    decimal text of [start] in the place of [%1], the second the text of [end]
    in the place of [%2], the marker with the lowest number that is left.  The
    text of a number holds no [%]. *)
Definition toString (range : t) : string :=
  "{" +:+ pretty (start range) +:+ ", " +:+ pretty (end_ range) +:+ "}".

(** [operator<=>], defaulted: the members are compared in the order of their
    declaration, and the first that differs decides. *)
Definition compare (lhs rhs : t) : comparison :=
  match (start lhs ?= start rhs)%Z with
  | Eq => (end_ lhs ?= end_ rhs)%Z
  | decided => decided
  end.

End TextRange.

(** ** The bases that the recursion through [extends] visits

    An interface leads to the interface that the look-up finds for one of the
    names it extends. *)
Definition extendsTo {I : Type} (nameOf : I → string) (baseNames : I → list string)
    (interfaces : list I) (interface base : I) : Prop :=
  ∃ extend, extend ∈ baseNames interface ∧ findInterface nameOf interfaces extend = Some base.

Definition specExtendsTo (interfaces : list Data.Interface.t)
  : relation Data.Interface.t :=
  extendsTo Data.Interface.name Data.Interface.extends interfaces.

Definition metaExtendsTo (interfaces : list MetaData.Type_.t)
  : relation MetaData.Type_.t :=
  extendsTo MetaData.Type_.name metaBaseNames interfaces.

(** ** Further sample models *)

Module Samples.

(** The aliases and interfaces of [Examples.someTypes] and
    [Examples.someInterfaces] as one vector of the tree-structured model. *)
Definition alias (name value : string) (dependencies : list string) : MetaData.Type_.t :=
  MetaData.Type_.mk MetaData.OtherKind name value EmptyString EmptyString false dependencies
    [] false [].

Definition allRootTypes : list MetaData.Type_.t :=
  [alias "Positions" "std::vector<Position>" ["Position"];
   alias "uinteger" "unsigned int" [];
   Examples.structure "Range" [] [] ["Position"];
   Examples.structure "Position" [] [] ["uinteger"];
   Examples.structure "Location" [] [] ["Range"; "uinteger"]].

Definition someData : Data.t :=
  Data.mk [] [] [] Examples.someTypes Examples.someInterfaces.

(** The alias [LSPAny], which the clean-up removes, and an interface that
    depends on it. *)
Definition dependsOnAny : Data.t :=
  Data.mk [] [] []
    [Data.Type_.mk "LSPAny" EmptyString "nlohmann::json" []]
    [Examples.empty "Holder" ["LSPAny"]].

(** A string literal that lists the texts it stands for as items. *)
Definition literalWithItems : MetaData.Type_.t :=
  MetaData.Type_.mk MetaData.StringLiteral "kind" "string" EmptyString EmptyString false []
    [Examples.member MetaData.StringLiteral EmptyString "create";
     Examples.member MetaData.StringLiteral EmptyString "rename"] false [].

(** An interface that extends itself. *)
Definition selfExtending : Data.Interface.t :=
  Data.Interface.mk "Node" EmptyString ["Node"] [] [] [].

Definition metaSelfExtending : MetaData.Type_.t :=
  Examples.structure "Node" [Examples.member MetaData.Reference EmptyString "Node"] [] [].

Definition metaDependsOnAny : MetaData.t :=
  MetaData.mk [] [] []
    [alias "LSPAny" "nlohmann::json" []]
    [Examples.structure "Holder" [] [] ["LSPAny"]].

End Samples.

(** * Properties *)

(** ** Aliases the type renderer leaves out *)

(** C10: an alias named [integer], [uinteger] or [decimal] is rendered as the
    empty text by both writers, so it adds nothing to the text of a pass of
    the emission loop, although none of the three names is in a removal list
    of the clean-up; every other alias is rendered as [using name = value;]
    after its documentation. *)
Theorem writeType_exceptions_render_nothing :
  (∀ type : Data.Type_.t,
     (Data.Type_.name type = "integer" ∨ Data.Type_.name type = "uinteger"
      ∨ Data.Type_.name type = "decimal" →
      SpecWriter.writeType type = EmptyString) ∧
     (¬ (Data.Type_.name type = "integer" ∨ Data.Type_.name type = "uinteger"
         ∨ Data.Type_.name type = "decimal") →
      SpecWriter.writeType type =
        QString.nl +:+ Data.Type_.comment type +:+ "using " +:+ Data.Type_.name type
        +:+ " = " +:+ Data.Type_.dataType type +:+ ";" +:+ QString.nl)) ∧
  (∀ type : MetaData.Type_.t,
     (MetaData.Type_.name type = "integer" ∨ MetaData.Type_.name type = "uinteger"
      ∨ MetaData.Type_.name type = "decimal" →
      MetaSpecWriter.writeType type = EmptyString) ∧
     (¬ (MetaData.Type_.name type = "integer" ∨ MetaData.Type_.name type = "uinteger"
         ∨ MetaData.Type_.name type = "decimal") →
      MetaSpecWriter.writeType type =
        QString.nl +:+ MetaData.Type_.documentation type +:+ "using "
        +:+ MetaData.Type_.name type +:+ " = " +:+ MetaData.Type_.value type
        +:+ ";" +:+ QString.nl)) ∧
  (∀ (types : list Data.Type_.t) (interfaces : list Data.Interface.t),
     SpecWriter.passText (types, interfaces) =
     SpecWriter.passText
       (filter (λ type, Data.Type_.name type ∉ SpecWriter.writeType_exceptions) types,
        interfaces)) ∧
  (∀ name : string,
     name = "integer" ∨ name = "uinteger" ∨ name = "decimal" →
     (name ∉ SpecWriter.removeTypeNames) ∧ (name ∉ SpecWriter.removeStructNames) ∧
     (name ∉ MetaSpecWriter.removeTypeNames) ∧ (name ∉ MetaSpecWriter.removeStructNames)).
Proof.
  split_and!.
  - intros type. unfold SpecWriter.writeType, SpecWriter.writeType_exceptions. split.
    + intros Hn. rewrite bool_decide_eq_true_2; [done |].
      destruct Hn as [-> | [-> | ->]]; compute_done.
    + intros Hn. rewrite bool_decide_eq_false_2; [done |].
      rewrite !elem_of_union, !elem_of_singleton. tauto.
  - intros type. unfold MetaSpecWriter.writeType, MetaSpecWriter.writeType_exceptions. split.
    + intros Hn. rewrite bool_decide_eq_true_2; [done |].
      destruct Hn as [-> | [-> | ->]]; compute_done.
    + intros Hn. rewrite bool_decide_eq_false_2; [done |].
      rewrite !elem_of_union, !elem_of_singleton. tauto.
  - intros types interfaces. unfold SpecWriter.passText. cbn [fst snd]. f_equal.
    induction types as [|type types IH]; [done |].
    rewrite filter_cons. cbn [QString.appendAll foldr].
    fold (QString.appendAll SpecWriter.writeType types).
    destruct (decide (Data.Type_.name type ∉ SpecWriter.writeType_exceptions)) as [Hn | Hn].
    + cbn [QString.appendAll foldr].
      fold (QString.appendAll SpecWriter.writeType
              (filter (λ type, Data.Type_.name type ∉ SpecWriter.writeType_exceptions) types)).
      by rewrite IH.
    + unfold SpecWriter.writeType at 1.
      rewrite bool_decide_eq_true_2; [| by apply dec_stable]. exact IH.
  - intros name Hn.
    destruct Hn as [-> | [-> | ->]]; split_and!; compute_done.
Qed.

(** ** Texts *)

Lemma append_String (a : ascii) (s r : string) : String a s +:+ r = String a (s +:+ r).
Proof. reflexivity. Qed.

Lemma append_assoc (s1 s2 s3 : string) : (s1 +:+ s2) +:+ s3 = s1 +:+ (s2 +:+ s3).
Proof. induction s1 as [|a s1 IH]; [done |]. rewrite !append_String. by rewrite IH. Qed.

(** A text that starts with [std::unique_ptr<] followed by [t] does not start
    with [t] followed by a space. *)
Lemma unique_ptr_prefix_shift (n : nat) :
  ∀ t r1 r2 : string, String.length t ≤ n →
    "std::unique_ptr<" +:+ (t +:+ r1) ≠ t +:+ String " " r2.
Proof.
  induction n as [|n IH]; intros t r1 r2 Hlen H.
  - destruct t; [discriminate H | cbn in Hlen; lia].
  - do 16 (destruct t as [|? t];
           [ discriminate H
           | rewrite !append_String in H; injection H as <- H; cbn in Hlen ]).
    apply (IH t r1 r2); [lia | exact H].
Qed.

(** The boxed rendering of a field is never the inline rendering of a field
    of the same type, whatever the name of that field. *)
Lemma uniquePtrField_not_plainField (comment type name name' : string) :
  Patterns.uniquePtrField comment type name ≠ Patterns.plainField comment type name'.
Proof.
  unfold Patterns.uniquePtrField, Patterns.plainField. intros H.
  apply (inj (String.append comment)) in H.
  by apply (unique_ptr_prefix_shift (String.length type)) in H.
Qed.

(** Nor is it the optional rendering. *)
Lemma uniquePtrField_not_optionalField (comment type name comment' type' name' : string) :
  comment = comment' →
  Patterns.uniquePtrField comment type name ≠ Patterns.optionalField comment' type' name'.
Proof.
  intros <-. unfold Patterns.uniquePtrField, Patterns.optionalField. intros H.
  apply (inj (String.append comment)) in H. discriminate H.
Qed.

(** ** Self-referential properties *)

Lemma meta_writeProperty_unfold (rootTypes : list MetaData.Type_.t)
    (property : MetaData.Type_.t) (interface : string) :
  MetaSpecWriter.writeProperty rootTypes property interface =
  let isOptional := QString.containsChar "?" (MetaData.Type_.name property) in
  let isConstString := bool_decide (MetaData.Type_.kind property = MetaData.StringLiteral) in
  let isPtr := bool_decide (MetaData.Type_.value property = interface) in
  let '(value, documentation, items) :=
    match MetaData.Type_.kind property with
    | MetaData.Or =>
        let items :=
          Std.sort (MetaSpecWriter.alternativeLess rootTypes) (MetaData.Type_.items property) in
        (MetaSpecWriter.variantOf items, MetaData.Type_.documentation property, items)
    | MetaData.StringLiteral =>
        let '(documentation, items) :=
          MetaSpecWriter.documentItems rootTypes interface (MetaData.Type_.items property)
            (MetaData.Type_.documentation property) in
        (MetaData.Type_.value property, documentation, items)
    | _ => (MetaData.Type_.value property, MetaData.Type_.documentation property,
            MetaData.Type_.items property)
    end in
  (MetaSpecWriter.propertyText isPtr isOptional isConstString documentation value
     (MetaData.Type_.name property),
   MetaData.Type_.mk (MetaData.Type_.kind property) (MetaData.Type_.name property) value
     documentation (MetaData.Type_.since property) (MetaData.Type_.deprecated property)
     (MetaData.Type_.dependencies property) items (MetaData.Type_.interface property)
     (MetaData.Type_.extends property)).
Proof.
  destruct property as [kind name value documentation since deprecated deps items isI ext].
  destruct kind; [reflexivity | reflexivity | | reflexivity].
  cbn [MetaData.Type_.kind MetaData.Type_.name MetaData.Type_.value MetaData.Type_.items
       MetaData.Type_.documentation MetaData.Type_.since MetaData.Type_.deprecated
       MetaData.Type_.dependencies MetaData.Type_.interface MetaData.Type_.extends].
  cbv zeta.
  unfold MetaSpecWriter.writeProperty at 1; fold MetaSpecWriter.writeProperty.
  remember (MetaSpecWriter.documentItems rootTypes interface) as g eqn:Hg.
  match goal with |- context [?f items documentation] =>
    lazymatch f with g => fail | _ => idtac end;
    assert (∀ l d, f l d = g l d) as Heach
  end.
  { subst g. induction l as [|x l IH]; intros d; [reflexivity |].
    cbn [MetaSpecWriter.documentItems].
    destruct (MetaSpecWriter.writeProperty rootTypes x interface) as [text x'] eqn:Hx.
    rewrite <- IH. cbn. by rewrite ?Hx. }
  destruct items as [|item items]; [by subst g |].
  rewrite <- Heach. reflexivity.
Qed.

Lemma meta_writeProperty_text (rootTypes : list MetaData.Type_.t)
    (property : MetaData.Type_.t) (interface : string) :
  (MetaSpecWriter.writeProperty rootTypes property interface).1 =
  MetaSpecWriter.propertyText
    (bool_decide (MetaData.Type_.value property = interface))
    (QString.containsChar "?" (MetaData.Type_.name property))
    (bool_decide (MetaData.Type_.kind property = MetaData.StringLiteral))
    (MetaData.Type_.documentation
       (MetaSpecWriter.writeProperty rootTypes property interface).2)
    (MetaData.Type_.value (MetaSpecWriter.writeProperty rootTypes property interface).2)
    (MetaData.Type_.name property).
Proof.
  rewrite meta_writeProperty_unfold. cbv zeta.
  destruct (MetaData.Type_.kind property); try done.
  by destruct (MetaSpecWriter.documentItems _ _ _ _).
Qed.

Lemma meta_writeProperty_value (rootTypes : list MetaData.Type_.t)
    (property : MetaData.Type_.t) (interface : string) :
  MetaData.Type_.kind property ≠ MetaData.Or →
  MetaData.Type_.value (MetaSpecWriter.writeProperty rootTypes property interface).2 =
  MetaData.Type_.value property.
Proof.
  rewrite meta_writeProperty_unfold. cbv zeta. intros Hkind.
  destruct (MetaData.Type_.kind property); try done.
  by destruct (MetaSpecWriter.documentItems _ _ _ _).
Qed.

(** C4, as stated, fails: the member [next] of an interface named [Node], a
    union whose value is [Node], is self-referential; the tree-structured
    writer boxes it, yet not as a [std::unique_ptr] of [Node]: the value has
    been replaced by the variant of the alternatives before the text is
    made. *)
Lemma self_referential_union_boxes_its_variant :
  MetaData.Type_.value Examples.selfUnion = "Node" ∧
  (MetaSpecWriter.writeProperty [] Examples.selfUnion "Node").1 =
    "std::unique_ptr<std::variant<Node, std::nullptr_t>> next;" +:+ QString.nl ∧
  ∀ name,
    (MetaSpecWriter.writeProperty [] Examples.selfUnion "Node").1 ≠
    Patterns.uniquePtrField
      (MetaData.Type_.documentation (MetaSpecWriter.writeProperty [] Examples.selfUnion "Node").2)
      "Node" name.
Proof. split_and!; [reflexivity | reflexivity |]. intros name H. discriminate H. Qed.

(** C4, amended: a property whose type is the name of the enclosing interface
    is rendered by both writers as a [std::unique_ptr] field, also when its
    name carries the optionality marker, and that text is neither the inline
    nor the optional rendering of the field.  The table-driven writer boxes
    the name of the interface.  The tree-structured writer boxes the value
    that the rendering leaves in the property: the name of the interface,
    unless the property is a union, whose value is by then the variant of its
    alternatives as the rendering has arranged them; the documentation is the
    one the rendering leaves. *)
Theorem self_reference_is_boxed
    (property : Data.Property.t) (metaProperty : MetaData.Type_.t)
    (rootTypes : list MetaData.Type_.t) (interface : string) :
  Data.Property.dataType property = interface →
  MetaData.Type_.value metaProperty = interface →
  let text := SpecWriter.writeProperty property interface in
  let rendered := MetaSpecWriter.writeProperty rootTypes metaProperty interface in
  (text =
     Data.Property.comment property +:+ "std::unique_ptr<" +:+ interface +:+ "> "
     +:+ QString.removeChar "?" (QString.remove "readonly " (Data.Property.name property))
     +:+ ";" +:+ QString.nl) ∧
  (∀ name, text ≠ Patterns.plainField (Data.Property.comment property) interface name) ∧
  (∀ type name, text ≠ Patterns.optionalField (Data.Property.comment property) type name) ∧
  (rendered.1 =
     MetaData.Type_.documentation rendered.2 +:+ "std::unique_ptr<"
     +:+ MetaData.Type_.value rendered.2 +:+ "> "
     +:+ QString.removeChar "?" (MetaData.Type_.name metaProperty) +:+ ";" +:+ QString.nl) ∧
  (MetaData.Type_.kind metaProperty ≠ MetaData.Or →
   MetaData.Type_.value rendered.2 = interface) ∧
  (MetaData.Type_.kind metaProperty = MetaData.Or →
   MetaData.Type_.value rendered.2 =
   MetaSpecWriter.variantOf (MetaData.Type_.items rendered.2)) ∧
  (∀ name,
     rendered.1 ≠
     Patterns.plainField (MetaData.Type_.documentation rendered.2)
       (MetaData.Type_.value rendered.2) name) ∧
  (∀ type name,
     rendered.1 ≠ Patterns.optionalField (MetaData.Type_.documentation rendered.2) type name).
Proof.
  intros Hself HmetaSelf text rendered.
  assert (text =
          Patterns.uniquePtrField (Data.Property.comment property) interface
            (QString.removeChar "?"
               (QString.remove "readonly " (Data.Property.name property)))) as Htext.
  { unfold text, SpecWriter.writeProperty.
    rewrite bool_decide_eq_true_2 by done. by rewrite Hself. }
  assert (rendered.1 =
          Patterns.uniquePtrField (MetaData.Type_.documentation rendered.2)
            (MetaData.Type_.value rendered.2)
            (QString.removeChar "?" (MetaData.Type_.name metaProperty))) as Hrendered.
  { unfold rendered. rewrite meta_writeProperty_text.
    unfold MetaSpecWriter.propertyText. by rewrite bool_decide_eq_true_2. }
  split_and!.
  - exact Htext.
  - intros name. rewrite Htext. apply uniquePtrField_not_plainField.
  - intros type name. rewrite Htext. by apply uniquePtrField_not_optionalField.
  - exact Hrendered.
  - intros Hkind. unfold rendered. by rewrite meta_writeProperty_value.
  - intros Hkind. unfold rendered. rewrite meta_writeProperty_unfold, Hkind. reflexivity.
  - intros name. rewrite Hrendered. apply uniquePtrField_not_plainField.
  - intros type name. rewrite Hrendered. by apply uniquePtrField_not_optionalField.
Qed.

Lemma self_reference_is_boxed_witness :
  SpecWriter.writeProperty Examples.parentProperty "SelectionRange" =
    "std::unique_ptr<SelectionRange> parent;" +:+ QString.nl ∧
  (MetaSpecWriter.writeProperty [] Examples.metaParent "SelectionRange").1 =
    "std::unique_ptr<SelectionRange> parent;" +:+ QString.nl.
Proof.
  destruct (self_reference_is_boxed Examples.parentProperty Examples.metaParent []
              "SelectionRange" eq_refl eq_refl) as (Htext & _ & _ & Hrendered & _).
  split; [exact Htext | exact Hrendered].
Defined.

(** ** Properties with two renderings to choose from *)

Lemma uniquePtrField_not_constStringField (comment type name name' literal : string) :
  Patterns.uniquePtrField comment type name ≠ Patterns.constStringField comment name' literal.
Proof.
  unfold Patterns.uniquePtrField, Patterns.constStringField. intros H.
  apply (inj (String.append comment)) in H. discriminate H.
Qed.

(** C6, as stated, fails: the member [kind] of an interface named [create],
    a string literal whose text is [create], is both self-referential and a
    literal constant; the writer returns a text for it, the boxed rendering,
    and the property unchanged. *)
Lemma conflicting_kinds_are_rendered :
  MetaData.Type_.value Examples.literalNamedAsInterface = "create" ∧
  MetaData.Type_.kind Examples.literalNamedAsInterface = MetaData.StringLiteral ∧
  MetaSpecWriter.writeProperty [] Examples.literalNamedAsInterface "create" =
    ("std::unique_ptr<create> kind;" +:+ QString.nl, Examples.literalNamedAsInterface).
Proof. split_and!; reflexivity. Qed.

(** C6, amended: a property on which two kinds apply is rendered, by
    precedence, as the self-reference.  For a property that is both
    self-referential and a literal constant both writers return the
    [std::unique_ptr] text and not the text of a string constant; for a union
    whose value is the name of the enclosing interface the tree-structured
    writer returns the [std::unique_ptr] text over the variant of the union.
    Self-reference comes first, then optionality, then the literal
    constant. *)
Theorem conflicting_kinds_render_by_precedence
    (property : Data.Property.t) (metaProperty union : MetaData.Type_.t)
    (rootTypes : list MetaData.Type_.t) (interface metaInterface unionInterface : string) :
  Data.Property.dataType property = interface →
  QString.startsWith "'" (Data.Property.dataType property) = true →
  MetaData.Type_.value metaProperty = metaInterface →
  MetaData.Type_.kind metaProperty = MetaData.StringLiteral →
  MetaData.Type_.value union = unionInterface →
  MetaData.Type_.kind union = MetaData.Or →
  let text := SpecWriter.writeProperty property interface in
  let rendered := MetaSpecWriter.writeProperty rootTypes metaProperty metaInterface in
  let renderedUnion := MetaSpecWriter.writeProperty rootTypes union unionInterface in
  (text =
     Patterns.uniquePtrField (Data.Property.comment property) interface
       (QString.removeChar "?" (QString.remove "readonly " (Data.Property.name property)))) ∧
  (∀ name literal,
     text ≠ Patterns.constStringField (Data.Property.comment property) name literal) ∧
  (rendered.1 =
     Patterns.uniquePtrField (MetaData.Type_.documentation rendered.2) metaInterface
       (QString.removeChar "?" (MetaData.Type_.name metaProperty))) ∧
  (∀ name literal,
     rendered.1 ≠
     Patterns.constStringField (MetaData.Type_.documentation rendered.2) name literal) ∧
  (renderedUnion.1 =
     Patterns.uniquePtrField (MetaData.Type_.documentation union)
       (MetaSpecWriter.variantOf
          (Std.sort (MetaSpecWriter.alternativeLess rootTypes) (MetaData.Type_.items union)))
       (QString.removeChar "?" (MetaData.Type_.name union))).
Proof.
  intros Hself Hliteral HmetaSelf HmetaLiteral HunionSelf HunionKind text rendered
    renderedUnion.
  assert (text =
          Patterns.uniquePtrField (Data.Property.comment property) interface
            (QString.removeChar "?"
               (QString.remove "readonly " (Data.Property.name property)))) as Htext.
  { unfold text, SpecWriter.writeProperty.
    rewrite bool_decide_eq_true_2 by done. by rewrite Hself. }
  assert (rendered.1 =
          Patterns.uniquePtrField (MetaData.Type_.documentation rendered.2) metaInterface
            (QString.removeChar "?" (MetaData.Type_.name metaProperty))) as Hrendered.
  { unfold rendered. rewrite meta_writeProperty_text.
    unfold MetaSpecWriter.propertyText. rewrite bool_decide_eq_true_2 by done.
    rewrite meta_writeProperty_value; [by rewrite HmetaSelf | by rewrite HmetaLiteral]. }
  split_and!.
  - exact Htext.
  - intros name literal. rewrite Htext. apply uniquePtrField_not_constStringField.
  - exact Hrendered.
  - intros name literal. rewrite Hrendered. apply uniquePtrField_not_constStringField.
  - unfold renderedUnion. rewrite meta_writeProperty_unfold, HunionKind. cbv zeta.
    cbn [fst]. unfold MetaSpecWriter.propertyText. by rewrite bool_decide_eq_true_2.
Qed.

Lemma conflicting_kinds_render_by_precedence_witness :
  SpecWriter.writeProperty Examples.quotedNamedAsInterface "'create'" =
    "std::unique_ptr<'create'> kind;" +:+ QString.nl ∧
  (MetaSpecWriter.writeProperty [] Examples.literalNamedAsInterface "create").1 =
    "std::unique_ptr<create> kind;" +:+ QString.nl ∧
  (MetaSpecWriter.writeProperty [] Examples.selfUnion "Node").1 =
    "std::unique_ptr<std::variant<Node, std::nullptr_t>> next;" +:+ QString.nl.
Proof.
  destruct (conflicting_kinds_render_by_precedence Examples.quotedNamedAsInterface
              Examples.literalNamedAsInterface Examples.selfUnion [] "'create'" "create"
              "Node" eq_refl eq_refl eq_refl eq_refl eq_refl eq_refl)
    as (Htext & _ & Hrendered & _ & Hunion).
  split_and!; [exact Htext | exact Hrendered | exact Hunion].
Defined.

(** ** Interfaces with a hand-written binding *)

Lemma spec_writeJsonInterface_unfold (fuel : nat) (interfaces : list Data.Interface.t)
    (interface : Data.Interface.t) (parent : list string) :
  SpecWriter.writeJsonInterface fuel interfaces interface parent =
  let parent := parent ++ [Data.Interface.name interface] in
  if bool_decide (Data.Interface.name interface ∈ SpecWriter.writeJsonInterface_exceptions)
  then Some (Patterns.JsonifyFwd (QString.join "::" parent))
  else
    let result := if bool_decide (length parent = 1) then QString.nl else EmptyString in
    properties ← SpecWriter.interfaceProperties fuel interface interfaces;
    children ← foldr (λ child acc,
                  text ← SpecWriter.writeJsonInterface fuel interfaces child parent;
                  others ← acc;
                  Some (text +:+ others))
                (Some EmptyString) (Data.Interface.children interface);
    Some (result +:+ children +:+
          (if bool_decide (properties = [])
           then Patterns.JsonifyEmpty (QString.join "::" parent)
           else Patterns.Jsonify (QString.join "::" parent) (QString.join ", " properties))).
Proof. by destruct interface. Qed.

Lemma meta_writeJsonInterface_unfold (fuel : nat) (interfaces : list MetaData.Type_.t)
    (interface : MetaData.Type_.t) (parent : list string) :
  MetaSpecWriter.writeJsonInterface fuel interfaces interface parent =
  let name := QString.removeChar "?" (MetaData.Type_.name interface) in
  let parent := parent ++ [name] in
  if bool_decide (name ∈ MetaSpecWriter.writeJsonInterface_exceptions)
  then Some (Patterns.JsonifyFwd (QString.join "::" parent))
  else
    let result := if bool_decide (length parent = 1) then QString.nl else EmptyString in
    properties ← MetaSpecWriter.interfaceProperties fuel interface interfaces;
    children ← foldr (λ child acc,
                  text ← (if MetaData.Type_.is_interface child
                          then MetaSpecWriter.writeJsonInterface fuel interfaces child parent
                          else Some EmptyString);
                  others ← acc;
                  Some (text +:+ others))
                (Some EmptyString) (MetaData.Type_.items interface);
    Some (result +:+ children +:+
          (if bool_decide (properties = [])
           then Patterns.JsonifyEmpty (QString.join "::" parent)
           else Patterns.Jsonify (QString.join "::" parent) (QString.join ", " properties))).
Proof. by destruct interface. Qed.

(** C9: for an interface named [SelectionRange], [FormattingOptions] or
    [ChangeAnnotationsType] both writers return the forward declaration
    [JSONIFY_FWD] of its scoped name and nothing else, whatever its
    properties, its nested interfaces, its bases and the other interfaces
    are, and however deep the recursion through [extends] may go. *)
Theorem exception_interface_is_forward_declared
    (fuel : nat) (interfaces : list Data.Interface.t) (interface : Data.Interface.t)
    (metaInterfaces : list MetaData.Type_.t) (metaInterface : MetaData.Type_.t)
    (parent : list string) :
  Data.Interface.name interface = "SelectionRange"
  ∨ Data.Interface.name interface = "FormattingOptions"
  ∨ Data.Interface.name interface = "ChangeAnnotationsType" →
  MetaData.Type_.name metaInterface = "SelectionRange"
  ∨ MetaData.Type_.name metaInterface = "FormattingOptions"
  ∨ MetaData.Type_.name metaInterface = "ChangeAnnotationsType" →
  SpecWriter.writeJsonInterface fuel interfaces interface parent =
    Some (QString.nl +:+ "JSONIFY_FWD("
          +:+ QString.join "::" (parent ++ [Data.Interface.name interface])
          +:+ ")" +:+ QString.nl) ∧
  MetaSpecWriter.writeJsonInterface fuel metaInterfaces metaInterface parent =
    Some (QString.nl +:+ "JSONIFY_FWD("
          +:+ QString.join "::" (parent ++ [MetaData.Type_.name metaInterface])
          +:+ ")" +:+ QString.nl).
Proof.
  intros Hname HmetaName. split.
  - rewrite spec_writeJsonInterface_unfold. cbv zeta.
    rewrite bool_decide_eq_true_2; [done |].
    destruct Hname as [-> | [-> | ->]]; compute_done.
  - rewrite meta_writeJsonInterface_unfold. cbv zeta.
    assert (QString.removeChar "?" (MetaData.Type_.name metaInterface)
            = MetaData.Type_.name metaInterface) as ->.
    { destruct HmetaName as [-> | [-> | ->]]; reflexivity. }
    rewrite bool_decide_eq_true_2; [done |].
    destruct HmetaName as [-> | [-> | ->]]; compute_done.
Qed.

Lemma exception_interface_is_forward_declared_witness :
  SpecWriter.writeJsonInterface 0 [] Examples.selectionRange [] =
    Some (QString.nl +:+ "JSONIFY_FWD(SelectionRange)" +:+ QString.nl) ∧
  MetaSpecWriter.writeJsonInterface 0 [] Examples.metaSelectionRange [] =
    Some (QString.nl +:+ "JSONIFY_FWD(SelectionRange)" +:+ QString.nl).
Proof.
  exact (exception_interface_is_forward_declared 0 [] Examples.selectionRange []
           Examples.metaSelectionRange [] (or_introl eq_refl) (or_introl eq_refl)).
Defined.

(** ** Output that cannot be written *)


(** On a device that takes everything [saveCode] writes the two files: the
    declarations with the enumeration before the interface, and the bindings
    with the table of the enumeration and the property list of the
    interface. *)
Lemma saveCode_end_to_end :
  let declarations :=
    Patterns.CodeHeader
      (Patterns.EnumImpl EmptyString "E" (QString.tab +:+ "Foo," +:+ QString.nl)
       +:+ Patterns.MainInterfaceImpl EmptyString "I" EmptyString
             (Patterns.plainField EmptyString "int" "x")) in
  let bindings :=
    Patterns.CodeJsonHeader
      (Patterns.EnumJsonImpl "E"
         ("    {E::Foo, " +:+ Patterns.dq +:+ "foo" +:+ Patterns.dq +:+ "}," +:+ QString.nl)
       +:+ QString.nl +:+ Patterns.Jsonify "I" "x") in
  (∃ data,
     SpecWriter.saveCode "out" Examples.openDevice Some Some 1 ∅ Examples.endToEnd
     = Some (Returned,
             {[ "out/types.h" := declarations; "out/types_json.h" := bindings ]}, data)) ∧
  MetaSpecWriter.saveCode "out" Examples.openDevice Some 1 ∅ Examples.metaEndToEnd
  = Some (Returned, {[ "out/types.h" := declarations; "out/types_json.h" := bindings ]}).
Proof. split; [eexists |]; by vm_compute. Qed.



(** ** Sorting *)

Section sort_properties.
Context {A : Type} (comp : A → A → bool).

Lemma insert_Permutation (x : A) (l : list A) : Std.insert comp x l ≡ₚ x :: l.
Proof.
  induction l as [|y l IH]; [done |]. cbn [Std.insert].
  destruct (comp x y); [done |]. rewrite IH. apply Permutation_swap.
Qed.

Lemma sort_from_Permutation (sorted l : list A) :
  foldl (λ sorted x, Std.insert comp x sorted) sorted l ≡ₚ sorted ++ l.
Proof.
  revert sorted. induction l as [|x l IH]; intros sorted; cbn [foldl].
  - by rewrite app_nil_r.
  - rewrite IH, insert_Permutation. apply Permutation_middle.
Qed.

Lemma sort_Permutation (l : list A) : Std.sort comp l ≡ₚ l.
Proof. unfold Std.sort. by rewrite sort_from_Permutation. Qed.

(** The comparison is a strict weak ordering: what is less is not greater,
    and "not greater" is transitive. *)
Context (comp_asym : ∀ x y, comp x y = true → comp y x = false).
Context (comp_trans : ∀ x y z, comp y x = false → comp z y = false → comp z x = false).

Lemma insert_sorted (x : A) (l : list A) :
  StronglySorted (λ a b, comp b a = false) l →
  StronglySorted (λ a b, comp b a = false) (Std.insert comp x l).
Proof.
  induction 1 as [|y l Hl IH Hy]; cbn [Std.insert].
  - repeat constructor.
  - destruct (comp x y) eqn:Hxy.
    + constructor; [by constructor |].
      constructor; [by apply comp_asym |].
      eapply Forall_impl; [exact Hy |]. intros z Hz. cbn beta in *.
      apply (comp_trans x y z); [by apply comp_asym | done].
    + constructor; [done |].
      rewrite insert_Permutation. by constructor.
Qed.

Lemma sort_sorted (l : list A) : StronglySorted (λ a b, comp b a = false) (Std.sort comp l).
Proof.
  unfold Std.sort.
  assert (StronglySorted (λ a b, comp b a = false) []) as Hnil by constructor.
  revert Hnil. generalize (@nil A) as sorted.
  induction l as [|x l IH]; intros sorted Hsorted; cbn [foldl]; [done |].
  apply IH. by apply insert_sorted.
Qed.

End sort_properties.

Lemma StronglySorted_before {A} (R : A → A → Prop) (l1 l2 l3 : list A) (x y : A) :
  StronglySorted R (l1 ++ x :: l2 ++ y :: l3) → R x y.
Proof.
  intros H. apply StronglySorted_app_1_r in H.
  apply StronglySorted_cons in H as [H _].
  rewrite Forall_forall in H. apply H. set_solver.
Qed.

(** ** Alternatives of a union *)

Lemma ltb_leb (s1 s2 : string) : String.ltb s1 s2 = false ↔ String.leb s2 s1 = true.
Proof.
  unfold String.ltb, String.leb. rewrite (String.compare_antisym s1 s2).
  by destruct (String.compare s2 s1).
Qed.

Lemma tupleLess_false (l r : bool * string) :
  Std.tupleLess l r = false ↔
  (l.1 = true ∧ r.1 = false) ∨ (l.1 = r.1 ∧ String.leb r.2 l.2 = true).
Proof.
  destruct l as [[] sl], r as [[] sr]; unfold Std.tupleLess; cbn [fst snd negb andb orb];
    rewrite ?ltb_leb; naive_solver.
Qed.

Lemma tupleLess_asym (l r : bool * string) :
  Std.tupleLess l r = true → Std.tupleLess r l = false.
Proof.
  intros Hlr. apply tupleLess_false.
  destruct (Std.tupleLess r l) eqn:Hrl; [| by apply tupleLess_false].
  exfalso. revert Hlr Hrl.
  destruct l as [[] sl], r as [[] sr]; unfold Std.tupleLess; cbn [fst snd negb andb orb];
    try done.
  - unfold String.ltb. rewrite (String.compare_antisym sl sr).
    by destruct (String.compare sr sl).
  - unfold String.ltb. rewrite (String.compare_antisym sl sr).
    by destruct (String.compare sr sl).
Qed.

Lemma tupleLess_trans (x y z : bool * string) :
  Std.tupleLess y x = false → Std.tupleLess z y = false → Std.tupleLess z x = false.
Proof.
  rewrite !tupleLess_false.
  intros [[Hy Hx] | [Hyx Hle1]] [[Hz Hy'] | [Hzy Hle2]].
  - congruence.
  - left. split; congruence.
  - left. split; congruence.
  - right. split; [congruence |].
    apply Is_true_true. apply Is_true_true in Hle1, Hle2.
    exact (transitivity (R := String.le) Hle1 Hle2).
Qed.

Lemma alternatives_sorted (rootTypes items : list MetaData.Type_.t) :
  StronglySorted (λ a b, MetaSpecWriter.alternativeLess rootTypes b a = false)
    (Std.sort (MetaSpecWriter.alternativeLess rootTypes) items).
Proof.
  apply sort_sorted; unfold MetaSpecWriter.alternativeLess.
  - intros x y. apply tupleLess_asym.
  - intros x y z. apply tupleLess_trans.
Qed.

(** C1, as stated, fails: the alternatives [A] (deprecated, since 3.0), [B]
    (since 3.15) and [C] (since 3.0) are put in the order [A], [C], [B], the
    deprecated one first, and not in the order [C], [B], [A]. *)
Lemma union_example_puts_deprecated_first :
  let after := (MetaSpecWriter.writeProperty [] Examples.unionProperty "Owner").2 in
  map MetaData.Type_.value (MetaData.Type_.items after) = ["A"; "C"; "B"] ∧
  map MetaData.Type_.value (MetaData.Type_.items after) ≠ ["C"; "B"; "A"] ∧
  MetaData.Type_.value after = "std::variant<A, C, B>".
Proof. split_and!; [reflexivity | discriminate | reflexivity]. Qed.

(** C1, amended: rendering a property of kind [Or] reorders its alternatives
    so that the deprecated ones come before the others and, within the same
    deprecation status, the alternatives are in ascending order of [since],
    compared as strings; the status and [since] of an alternative that refers
    to a root type are those of the root type.  The value of the property
    becomes [std::variant] over the values of the reordered alternatives, and
    the text is rendered with that value. *)
Theorem union_alternatives_reordered
    (rootTypes : list MetaData.Type_.t) (property : MetaData.Type_.t) (interface : string) :
  MetaData.Type_.kind property = MetaData.Or →
  let rendered := MetaSpecWriter.writeProperty rootTypes property interface in
  let after := rendered.2 in
  let status alternative :=
    MetaData.Type_.is_deprecated (MetaSpecWriter.fetchType rootTypes alternative) in
  let since alternative :=
    MetaData.Type_.since (MetaSpecWriter.fetchType rootTypes alternative) in
  MetaData.Type_.items after ≡ₚ MetaData.Type_.items property ∧
  (∀ l1 x l2 y l3,
     MetaData.Type_.items after = l1 ++ x :: l2 ++ y :: l3 →
     (status x = false → status y = false) ∧
     (status x = status y → String.ltb (since y) (since x) = false)) ∧
  MetaData.Type_.value after =
    "std::variant<" +:+ QString.join ", " (map MetaData.Type_.value (MetaData.Type_.items after))
    +:+ ">" ∧
  rendered.1 =
    MetaSpecWriter.propertyText
      (bool_decide (MetaData.Type_.value property = interface))
      (QString.containsChar "?" (MetaData.Type_.name property)) false
      (MetaData.Type_.documentation property) (MetaData.Type_.value after)
      (MetaData.Type_.name property).
Proof.
  intros Hkind rendered after status since.
  unfold after, rendered. rewrite meta_writeProperty_unfold. rewrite Hkind. cbv zeta.
  cbn [fst snd MetaData.Type_.items MetaData.Type_.value].
  split_and!.
  - apply sort_Permutation.
  - intros l1 x l2 y l3 Hitems.
    pose proof (alternatives_sorted rootTypes (MetaData.Type_.items property)) as Hsorted.
    rewrite Hitems in Hsorted. apply StronglySorted_before in Hsorted.
    unfold MetaSpecWriter.alternativeLess in Hsorted.
    apply tupleLess_false in Hsorted. cbn [fst snd] in Hsorted.
    unfold status, since.
    destruct Hsorted as [[Hy Hx] | [Hyx Hle]].
    + apply negb_false_iff in Hx. apply negb_true_iff in Hy.
      split; intros H; congruence.
    + split; [| intros _; by apply ltb_leb].
      intros Hx. rewrite Hx in Hyx. by apply negb_true_iff.
  - reflexivity.
  - reflexivity.
Qed.

Lemma union_alternatives_reordered_witness :
  MetaData.Type_.kind Examples.unionProperty = MetaData.Or ∧
  MetaData.Type_.value (MetaSpecWriter.writeProperty [] Examples.unionProperty "Owner").2 =
    "std::variant<" +:+
    QString.join ", "
      (map MetaData.Type_.value
         (MetaData.Type_.items
            (MetaSpecWriter.writeProperty [] Examples.unionProperty "Owner").2))
    +:+ ">".
Proof.
  split; [reflexivity |].
  destruct (union_alternatives_reordered [] Examples.unionProperty "Owner" eq_refl)
    as (_ & _ & Hvalue & _).
  exact Hvalue.
Defined.

(** ** Flattened property names *)

Section flatten_properties.
Context {I : Type} (nameOf : I → string) (ownNames : I → list string)
  (baseNames : I → list string) (interfaces : list I).

Abbreviation step fuel :=
  (λ (acc : option (list string)) (extend : string),
     properties ← acc;
     match findInterface nameOf interfaces extend with
     | Some it =>
         inherited ← flatten nameOf ownNames baseNames interfaces fuel it;
         Some (properties ++ inherited)
     | None => Some properties
     end).

Lemma flatten_step_None (fuel : nat) (extends : list string) :
  foldl (step fuel) None extends = None.
Proof. by induction extends. Qed.

Lemma flatten_bases_sound (fuel : nat) :
  (∀ interface properties,
     flatten nameOf ownNames baseNames interfaces fuel interface = Some properties →
     Flattened nameOf ownNames baseNames interfaces interface properties) →
  ∀ extends acc r,
    foldl (step fuel) (Some acc) extends = Some r →
    ∃ inherited,
      r = acc ++ inherited ∧
      FlattenedBases nameOf ownNames baseNames interfaces extends inherited.
Proof.
  intros IH extends. induction extends as [|extend extends IHe]; intros acc r Hr.
  - cbn in Hr. injection Hr as <-. exists []. split; [by rewrite app_nil_r | constructor].
  - cbn [foldl] in Hr. cbn [mbind option_bind] in Hr.
    destruct (findInterface nameOf interfaces extend) as [base|] eqn:Hfind.
    + destruct (flatten nameOf ownNames baseNames interfaces fuel base) as [properties|]
        eqn:Hbase; cbn [mbind option_bind] in Hr.
      * apply IHe in Hr as (inherited & -> & Hbases).
        exists (properties ++ inherited). split; [by rewrite app_assoc |].
        eapply flattened_present; eauto.
      * by rewrite flatten_step_None in Hr.
    + apply IHe in Hr as (inherited & -> & Hbases).
      exists inherited. split; [done |]. by apply flattened_absent.
Qed.

Lemma flatten_sound (fuel : nat) (interface : I) (properties : list string) :
  flatten nameOf ownNames baseNames interfaces fuel interface = Some properties →
  Flattened nameOf ownNames baseNames interfaces interface properties.
Proof.
  revert interface properties.
  induction fuel as [|fuel IH]; intros interface properties Hflat; [done |].
  cbn [flatten] in Hflat.
  apply (flatten_bases_sound fuel IH) in Hflat as (inherited & -> & Hbases).
  by constructor.
Qed.

Lemma flatten_complete (interface : I) (properties : list string) :
  Flattened nameOf ownNames baseNames interfaces interface properties →
  ∃ fuel, ∀ fuel', fuel ≤ fuel' →
    flatten nameOf ownNames baseNames interfaces fuel' interface = Some properties.
Proof.
  revert interface properties.
  apply (Flattened_mutual nameOf ownNames baseNames interfaces
    (λ interface properties,
       ∃ fuel, ∀ fuel', fuel ≤ fuel' →
         flatten nameOf ownNames baseNames interfaces fuel' interface = Some properties)
    (λ extends inherited,
       ∃ fuel, ∀ fuel' acc, fuel ≤ fuel' →
         foldl (step fuel') (Some acc) extends = Some (acc ++ inherited))).
  - intros interface inherited _ [fuel Hfuel]. exists (S fuel). intros fuel' Hle.
    destruct fuel' as [|fuel']; [lia |]. cbn [flatten]. apply Hfuel. lia.
  - exists 0. intros fuel' acc _. cbn. by rewrite app_nil_r.
  - intros extend extends inherited Hfind _ [fuel Hfuel]. exists fuel.
    intros fuel' acc Hle. cbn [foldl mbind option_bind]. rewrite Hfind. by apply Hfuel.
  - intros extend extends base properties inherited Hfind _ [fuel1 Hbase] _ [fuel2 Hrest].
    exists (fuel1 `max` fuel2). intros fuel' acc Hle.
    cbn [foldl mbind option_bind]. rewrite Hfind, Hbase by lia.
    cbn [mbind option_bind]. rewrite Hrest by lia. by rewrite app_assoc.
Qed.

Lemma flatten_Flattened (interface : I) (properties : list string) :
  (∃ fuel, flatten nameOf ownNames baseNames interfaces fuel interface = Some properties) ↔
  Flattened nameOf ownNames baseNames interfaces interface properties.
Proof.
  split.
  - intros [fuel Hflat]. by eapply flatten_sound.
  - intros [fuel Hfuel]%flatten_complete. exists fuel. by apply Hfuel.
Qed.

End flatten_properties.

Lemma spec_interfaceProperties_flatten (fuel : nat) (interface : Data.Interface.t)
    (interfaces : list Data.Interface.t) :
  SpecWriter.interfaceProperties fuel interface interfaces =
  flatten Data.Interface.name specOwnNames Data.Interface.extends interfaces fuel interface.
Proof.
  revert interface. induction fuel as [|fuel IH]; intros interface; [done |].
  cbn [SpecWriter.interfaceProperties flatten].
  change (specOwnNames interface) with
    (map (λ prop, QString.remove "readonly "
                    (QString.removeChar "?" (Data.Property.name prop)))
       (Data.Interface.properties interface)).
  generalize (Some (map (λ prop, QString.remove "readonly "
                                   (QString.removeChar "?" (Data.Property.name prop)))
                      (Data.Interface.properties interface))).
  induction (Data.Interface.extends interface) as [|extend extends IHe]; intros acc; [done |].
  cbn [foldl]. rewrite <- IHe. f_equal. destruct acc as [acc|]; [| done].
  cbn [mbind option_bind]. unfold findInterface.
  destruct (List.find _ interfaces); [| done]. by rewrite IH.
Qed.

Lemma meta_interfaceProperties_flatten (fuel : nat) (interface : MetaData.Type_.t)
    (interfaces : list MetaData.Type_.t) :
  MetaSpecWriter.interfaceProperties fuel interface interfaces =
  flatten MetaData.Type_.name metaOwnNames metaBaseNames interfaces fuel interface.
Proof.
  revert interface. induction fuel as [|fuel IH]; intros interface; [done |].
  cbn [MetaSpecWriter.interfaceProperties flatten].
  change (metaOwnNames interface) with
    (map (λ prop, QString.removeChar "?" (MetaData.Type_.name prop))
       (filter (λ prop, MetaData.Type_.is_interface prop = false)
          (MetaData.Type_.items interface))).
  unfold metaBaseNames.
  generalize (Some (map (λ prop, QString.removeChar "?" (MetaData.Type_.name prop))
                      (filter (λ prop, MetaData.Type_.is_interface prop = false)
                         (MetaData.Type_.items interface)))).
  induction (MetaData.Type_.extends interface) as [|extend extends IHe]; intros acc; [done |].
  cbn [foldl map]. rewrite <- IHe. f_equal. destruct acc as [acc|]; [| done].
  cbn [mbind option_bind]. unfold findInterface.
  destruct (List.find _ interfaces); [| done]. by rewrite IH.
Qed.

Section flatten_own_names.
Context {I : Type} (nameOf : I → string) (codeNames statedNames : I → list string)
  (baseNames : I → list string) (interfaces : list I) (change : string → string).
Context (code_names : ∀ j, codeNames j = map change (statedNames j)).

(** When one reading of the own names is the other with every name changed,
    so are the flattened lists. *)
Lemma Flattened_changed_names (interface : I) (properties : list string) :
  Flattened nameOf codeNames baseNames interfaces interface properties ↔
  ∃ stated,
    Flattened nameOf statedNames baseNames interfaces interface stated ∧
    properties = map change stated.
Proof.
  split.
  - revert interface properties.
    apply (Flattened_mutual nameOf codeNames baseNames interfaces
      (λ interface properties,
         ∃ stated,
           Flattened nameOf statedNames baseNames interfaces interface stated ∧
           properties = map change stated)
      (λ extends inherited,
         ∃ stated,
           FlattenedBases nameOf statedNames baseNames interfaces extends stated ∧
           inherited = map change stated)).
    + intros interface inherited _ (stated & Hstated & ->).
      exists (statedNames interface ++ stated). split; [by constructor |].
      by rewrite code_names, map_app.
    + exists []. split; [constructor | done].
    + intros extend extends inherited Hfind _ (stated & Hstated & ->).
      exists stated. split; [by apply flattened_absent | done].
    + intros extend extends base properties inherited Hfind _ (own & Hown & ->) _
        (stated & Hstated & ->).
      exists (own ++ stated). split; [by eapply flattened_present | by rewrite map_app].
  - intros (stated & Hstated & ->). revert interface stated Hstated.
    apply (Flattened_mutual nameOf statedNames baseNames interfaces
      (λ interface stated,
         Flattened nameOf codeNames baseNames interfaces interface (map change stated))
      (λ extends stated,
         FlattenedBases nameOf codeNames baseNames interfaces extends (map change stated))).
    + intros interface inherited _ Hbases. rewrite map_app, <- code_names. by constructor.
    + constructor.
    + intros extend extends inherited Hfind _ Hbases. by apply flattened_absent.
    + intros extend extends base properties inherited Hfind _ Hbase _ Hbases.
      rewrite map_app. by eapply flattened_present.
Qed.

(** Every name of a flattened list is an own name of the interface or of an
    interface of the model. *)
Lemma Flattened_names (interface : I) (properties : list string) :
  Flattened nameOf statedNames baseNames interfaces interface properties →
  ∀ name, name ∈ properties →
    ∃ j, (j = interface ∨ j ∈ interfaces) ∧ name ∈ statedNames j.
Proof.
  revert interface properties.
  apply (Flattened_mutual nameOf statedNames baseNames interfaces
    (λ interface properties,
       ∀ name, name ∈ properties →
         ∃ j, (j = interface ∨ j ∈ interfaces) ∧ name ∈ statedNames j)
    (λ extends inherited,
       ∀ name, name ∈ inherited → ∃ j, j ∈ interfaces ∧ name ∈ statedNames j)).
  - intros interface inherited _ Hbases name [Hown|Hinherited]%elem_of_app.
    + exists interface. by split; [left |].
    + destruct (Hbases name Hinherited) as (j & Hj & Hname). exists j. by split; [right |].
  - intros name Hname. by apply elem_of_nil in Hname.
  - intros extend extends inherited _ _ Hbases. exact Hbases.
  - intros extend extends base properties inherited Hfind _ Hbase _ Hbases name
      [Hname|Hname]%elem_of_app; [| by apply Hbases].
    destruct (Hbase name Hname) as (j & [Hj|Hj] & Hown); exists j; (split; [| done]);
      [| done].
    rewrite Hj. apply find_some in Hfind as [Hin _]. by apply list_elem_of_In.
Qed.

End flatten_own_names.

(** C5, as stated, fails: for an interface whose only property is named
    [readonly id?] the flattened list of the specification is [readonly id],
    the marker taken off, and no other; the table-driven writer returns
    [id]. *)
Lemma readonly_modifier_is_dropped :
  SpecFlattened [Examples.readonlyHolder] Examples.readonlyHolder ["readonly id"] ∧
  (∀ properties,
     SpecFlattened [Examples.readonlyHolder] Examples.readonlyHolder properties →
     properties = ["readonly id"]) ∧
  SpecWriter.interfaceProperties 1 Examples.readonlyHolder [Examples.readonlyHolder]
    = Some ["id"] ∧
  (∀ fuel,
     SpecWriter.interfaceProperties fuel Examples.readonlyHolder [Examples.readonlyHolder]
     ≠ Some ["readonly id"]).
Proof.
  split_and!.
  - apply (flattened_interface Data.Interface.name statedOwnNames Data.Interface.extends
             [Examples.readonlyHolder] Examples.readonlyHolder []).
    constructor.
  - intros properties Hflattened. inversion Hflattened as [interface inherited Hbases].
    by inversion Hbases.
  - reflexivity.
  - intros [|fuel]; discriminate.
Qed.

(** C5, amended: what [interfaceProperties] returns is the flattened list of
    the specification, but for the modifier [readonly ], which the
    table-driven writer takes off every name as well.  In the table-driven
    writer the recursion returns a list exactly when the specification
    defines one, and then returns that list with the modifier taken off each
    name; it is the list of the specification itself when taking the modifier
    off changes no own name of the interface or of an interface of the model.
    In the tree-structured writer the recursion returns a list exactly when
    the specification defines one, and then returns that list.  In both the
    own names come first and then the lists of the bases in the order of
    [extends]; for [Child extends Parent] with [p1], [p2] in [Parent] and
    [p3] in [Child] the list is [p3], [p1], [p2]. *)
Theorem interfaceProperties_flattened :
  (∀ interfaces interface properties,
     (∃ fuel, SpecWriter.interfaceProperties fuel interface interfaces = Some properties) ↔
     (∃ stated,
        SpecFlattened interfaces interface stated ∧
        properties = map (QString.remove "readonly ") stated)) ∧
  (∀ interfaces interface properties,
     (∀ j name, j = interface ∨ j ∈ interfaces → name ∈ statedOwnNames j →
                QString.remove "readonly " name = name) →
     (∃ fuel, SpecWriter.interfaceProperties fuel interface interfaces = Some properties) ↔
     SpecFlattened interfaces interface properties) ∧
  (∀ interfaces interface properties,
     (∃ fuel, MetaSpecWriter.interfaceProperties fuel interface interfaces = Some properties) ↔
     MetaFlattened interfaces interface properties) ∧
  SpecWriter.interfaceProperties 2 Examples.child [Examples.parent; Examples.child]
    = Some ["p3"; "p1"; "p2"] ∧
  MetaSpecWriter.interfaceProperties 2 Examples.metaChildInterface
    [Examples.metaParentInterface; Examples.metaChildInterface]
    = Some ["p3"; "p1"; "p2"].
Proof.
  assert (∀ interfaces interface properties,
            (∃ fuel, SpecWriter.interfaceProperties fuel interface interfaces
                     = Some properties) ↔
            (∃ stated,
               SpecFlattened interfaces interface stated ∧
               properties = map (QString.remove "readonly ") stated)) as Hspec.
  { intros interfaces interface properties. unfold SpecFlattened.
    rewrite <- (Flattened_changed_names Data.Interface.name specOwnNames statedOwnNames).
    - rewrite <- flatten_Flattened. by setoid_rewrite spec_interfaceProperties_flatten.
    - intros j. unfold specOwnNames, statedOwnNames. by rewrite map_map. }
  split_and!.
  - exact Hspec.
  - intros interfaces interface properties Hsame. rewrite Hspec. split.
    + intros (stated & Hstated & ->).
      assert (map (QString.remove "readonly ") stated = stated) as ->; [| done].
      pose proof (Flattened_names _ _ _ _ _ _ Hstated) as Hnames.
      clear Hstated. induction stated as [|name stated IH]; [done |]. cbn [map]. f_equal.
      * destruct (Hnames name) as (j & Hj & Hown); [by left |]. by apply (Hsame j).
      * apply IH. intros name' Hname'. apply Hnames. by right.
    + intros Hstated. exists properties. split; [done |].
      pose proof (Flattened_names _ _ _ _ _ _ Hstated) as Hnames.
      clear Hstated. induction properties as [|name stated IH]; [done |]. cbn [map]. f_equal.
      * destruct (Hnames name) as (j & Hj & Hown); [by left |]. symmetry. by apply (Hsame j).
      * apply IH. intros name' Hname'. apply Hnames. by right.
  - intros interfaces interface properties. unfold MetaFlattened.
    rewrite <- flatten_Flattened.
    by setoid_rewrite meta_interfaceProperties_flatten.
  - reflexivity.
  - reflexivity.
Qed.

(** ** The clean-up pass *)

#[global] Instance Type_DeclarationLaws : DeclarationLaws Data.Type_.t.
Proof. split; intros; try done. by destruct a. Qed.

#[global] Instance Interface_DeclarationLaws : DeclarationLaws Data.Interface.t.
Proof. split; intros; try done. by destruct a. Qed.

#[global] Instance MetaType_DeclarationLaws : DeclarationLaws MetaData.Type_.t.
Proof. split; intros; try done. by destruct a. Qed.

#[global] Instance Pair_DeclarationLaws : DeclarationLaws (string * list string).
Proof. split; intros; try done. by destruct a. Qed.

Lemma filter_idempotent {A} (P : A → Prop) `{!∀ x, Decision (P x)} (l : list A) :
  filter P (filter P l) = filter P l.
Proof.
  induction l as [|x l IH]; [done |]. rewrite filter_cons.
  destruct (decide (P x)) as [HP | HP]; [| done].
  rewrite filter_cons. by rewrite decide_True, IH.
Qed.

Lemma filter_commute {A} (P Q : A → Prop) `{!∀ x, Decision (P x)} `{!∀ x, Decision (Q x)}
    (l : list A) :
  filter P (filter Q l) = filter Q (filter P l).
Proof.
  induction l as [|x l IH]; [done |]. rewrite !filter_cons.
  destruct (decide (Q x)) as [HQ | HQ], (decide (P x)) as [HP | HP];
    rewrite ?filter_cons, ?decide_True, ?decide_False by done; by rewrite IH.
Qed.

Lemma removeEach_filter (names l : list string) :
  QString.removeEach names l = filter (λ x, x ∉ names) l.
Proof.
  unfold QString.removeEach. revert l.
  induction names as [|n names IH]; intros l; cbn [foldl].
  - induction l as [|x l IHl]; [done |].
    rewrite filter_cons, decide_True by set_solver. by rewrite <- IHl.
  - rewrite IH. unfold QString.removeAll. rewrite list_filter_filter.
    apply list_filter_iff. intros x. set_solver.
Qed.

Lemma removeEach_idempotent (names l : list string) :
  QString.removeEach names (QString.removeEach names l) = QString.removeEach names l.
Proof. rewrite !removeEach_filter. apply filter_idempotent. Qed.

Section declaration_properties.
Context {A : Type} `{DeclarationLaws A}.

Lemma cleanupDependencies_names (names : list string) (l : list A) :
  map declName (cleanupDependencies names l) = map declName l.
Proof.
  unfold cleanupDependencies. rewrite map_map. apply map_ext. intros a.
  apply declName_with.
Qed.

Lemma cleanupDependencies_idempotent (names : list string) (l : list A) :
  cleanupDependencies names (cleanupDependencies names l) = cleanupDependencies names l.
Proof.
  unfold cleanupDependencies. rewrite map_map. apply map_ext. intros a.
  by rewrite declDependencies_with, withDependencies_twice, removeEach_idempotent.
Qed.

Lemma cleanupDependencies_nil (l : list A) : cleanupDependencies [] l = l.
Proof.
  unfold cleanupDependencies. induction l as [|a l IH]; [done |].
  cbn [map]. rewrite IH. cbn. by rewrite withDependencies_same.
Qed.

Lemma eraseNamed_cleanup (erased : gset string) (names : list string) (l : list A) :
  eraseNamed erased (cleanupDependencies names l) =
  cleanupDependencies names (eraseNamed erased l).
Proof.
  unfold cleanupDependencies, eraseNamed. induction l as [|a l IH]; [done |].
  cbn [map]. rewrite !filter_cons, declName_with.
  destruct (decide (declName a ∉ erased)); [cbn [map]|]; by rewrite IH.
Qed.

Lemma eraseListed_cleanup (erased names : list string) (l : list A) :
  eraseListed erased (cleanupDependencies names l) =
  cleanupDependencies names (eraseListed erased l).
Proof.
  unfold cleanupDependencies, eraseListed. induction l as [|a l IH]; [done |].
  cbn [map]. rewrite !filter_cons, declName_with.
  destruct (decide (declName a ∉ erased)); [cbn [map]|]; by rewrite IH.
Qed.

Lemma eraseNamed_idempotent (erased : gset string) (l : list A) :
  eraseNamed erased (eraseNamed erased l) = eraseNamed erased l.
Proof. apply filter_idempotent. Qed.

Lemma eraseListed_idempotent (erased : list string) (l : list A) :
  eraseListed erased (eraseListed erased l) = eraseListed erased l.
Proof. apply filter_idempotent. Qed.

Lemma eraseNamed_eraseListed (erased : gset string) (listed : list string) (l : list A) :
  eraseNamed erased (eraseListed listed l) = eraseListed listed (eraseNamed erased l).
Proof. apply filter_commute. Qed.

End declaration_properties.

(** The aliases and the interfaces after the clean-up ran twice, for given
    names of the enumerations. *)
Lemma clean_declarations_idempotent {T I : Type} `{DeclarationLaws T} `{DeclarationLaws I}
    (removeStructs removeTypes : gset string) (enumNames : list string)
    (types : list T) (interfaces : list I) :
  let interfaces1 := eraseNamed removeStructs interfaces in
  let types1 :=
    cleanupDependencies enumNames
      (eraseListed (enumNames ++ map declName interfaces1)
         (eraseNamed removeTypes types)) in
  let interfaces2 := eraseNamed removeStructs (cleanupDependencies enumNames interfaces1) in
  cleanupDependencies enumNames
    (eraseListed (enumNames ++ map declName interfaces2) (eraseNamed removeTypes types1))
  = types1 ∧
  cleanupDependencies enumNames interfaces2 = cleanupDependencies enumNames interfaces1.
Proof.
  intros interfaces1 types1 interfaces2.
  assert (interfaces2 = cleanupDependencies enumNames interfaces1) as Hinterfaces.
  { unfold interfaces2, interfaces1. by rewrite eraseNamed_cleanup, eraseNamed_idempotent. }
  split; [| by rewrite Hinterfaces, cleanupDependencies_idempotent].
  rewrite Hinterfaces, cleanupDependencies_names. unfold types1.
  rewrite eraseNamed_cleanup, eraseListed_cleanup, cleanupDependencies_idempotent.
  by rewrite eraseNamed_eraseListed, eraseNamed_idempotent, eraseListed_idempotent.
Qed.

Section removeDuplicates_properties.
Context {E : Type} (nameOf : E → string).

Lemma removeDuplicates_names (seen : gset string) (l : list E) (n : string) :
  n ∈ map nameOf (removeDuplicates nameOf seen l) ↔ n ∈ map nameOf l ∧ n ∉ seen.
Proof.
  revert seen. induction l as [|e l IH]; intros seen; cbn [removeDuplicates map].
  - rewrite elem_of_nil. tauto.
  - case_bool_decide as Hseen; cbn [map]; rewrite ?elem_of_cons, IH.
    + split; [tauto |]. intros [[-> | Hn] Hnot]; [done | tauto].
    + rewrite not_elem_of_union, elem_of_singleton.
      destruct (decide (n = nameOf e)) as [-> | Hne]; tauto.
Qed.

Lemma removeDuplicates_NoDup (seen : gset string) (l : list E) :
  NoDup (map nameOf (removeDuplicates nameOf seen l)).
Proof.
  revert seen. induction l as [|e l IH]; intros seen; cbn [removeDuplicates map].
  - constructor.
  - case_bool_decide as Hseen; [done |]. cbn [map]. constructor; [| done].
    rewrite removeDuplicates_names, not_elem_of_union, elem_of_singleton. tauto.
Qed.

Lemma removeDuplicates_length (seen : gset string) (l : list E) :
  length (removeDuplicates nameOf seen l) ≤ length l.
Proof.
  revert seen. induction l as [|e l IH]; intros seen; cbn [removeDuplicates]; [done |].
  case_bool_decide; cbn [length]; [specialize (IH seen) | specialize (IH ({[nameOf e]} ∪ seen))];
    lia.
Qed.

Lemma removeDuplicates_same (seen : gset string) (l : list E) :
  NoDup (map nameOf l) → (∀ n, n ∈ map nameOf l → n ∉ seen) →
  removeDuplicates nameOf seen l = l.
Proof.
  revert seen. induction l as [|e l IH]; intros seen Hnodup Hseen; [done |].
  cbn [removeDuplicates map] in *. apply NoDup_cons in Hnodup as [He Hnodup].
  rewrite bool_decide_eq_false_2 by (apply Hseen; left). f_equal.
  apply IH; [done |]. intros n Hn.
  rewrite not_elem_of_union, elem_of_singleton. split; [congruence |].
  apply Hseen. by right.
Qed.

(** A name met twice makes the list shorter. *)
Lemma removeDuplicates_shorter (seen : gset string) (l : list E) :
  (∃ n, n ∈ map nameOf l ∧ n ∈ seen) ∨ ¬ NoDup (map nameOf l) →
  length (removeDuplicates nameOf seen l) < length l.
Proof.
  revert seen. induction l as [|e l IH]; intros seen Hdup.
  - destruct Hdup as [(n & Hn & _) | Hdup]; [by apply elem_of_nil in Hn |].
    destruct Hdup. constructor.
  - cbn [removeDuplicates]. case_bool_decide as Hseen; cbn [length].
    + pose proof (removeDuplicates_length seen l). lia.
    + assert (length (removeDuplicates nameOf ({[nameOf e]} ∪ seen) l) < length l); [| lia].
      apply IH. cbn [map] in Hdup.
      destruct (decide (nameOf e ∈ map nameOf l)) as [Hin | Hin].
      { left. exists (nameOf e). split; [done |]. apply elem_of_union_l.
        by apply elem_of_singleton. }
      destruct Hdup as [(n & Hn & Hnseen) | Hdup].
      * left. exists n. apply elem_of_cons in Hn as [-> | Hn]; [done |].
        split; [done |]. by apply elem_of_union_r.
      * right. intros Hl. apply Hdup. by constructor.
Qed.

End removeDuplicates_properties.

Lemma elem_of_map {A B} (f : A → B) (l : list A) (y : B) :
  y ∈ map f l ↔ ∃ x, y = f x ∧ x ∈ l.
Proof. apply (list_elem_of_fmap f l y). Qed.

Lemma NoDup_map_on {A B} (f : A → B) (l : list A) :
  (∀ a b, a ∈ l → b ∈ l → f a = f b → a = b) → NoDup l → NoDup (map f l).
Proof.
  induction l as [|x l IH]; intros Hinj Hnodup; [constructor |].
  apply NoDup_cons in Hnodup as [Hx Hnodup]. cbn [map]. constructor.
  - rewrite elem_of_map. intros (y & Hxy & Hy).
    assert (x = y) as -> by (apply Hinj; [left | by right | done]). done.
  - apply IH; [| done]. intros a b Ha Hb. apply Hinj; by right.
Qed.

Lemma NoDup_map_injective {A B} (f : A → B) (l : list A) (a b : A) :
  NoDup (map f l) → a ∈ l → b ∈ l → f a = f b → a = b.
Proof.
  induction l as [|x l IH]; intros Hnodup Ha Hb Hab; [by apply elem_of_nil in Ha |].
  cbn [map] in Hnodup. apply NoDup_cons in Hnodup as [Hx Hnodup].
  rewrite elem_of_map in Hx.
  apply elem_of_cons in Ha as [-> | Ha], Hb as [-> | Hb]; [done | | | by apply IH].
  - destruct Hx. by exists b.
  - destruct Hx. by exists a.
Qed.

Section clean_enumerations.
Context {E : Type} (nameOf : E → string) (clean : E → E) (rename : string → string).
Context (clean_name : ∀ e, nameOf (clean e) = rename (nameOf e)).
Context (clean_idempotent : ∀ e, clean (clean e) = clean e).

Lemma cleaned_names (l : list E) : map nameOf (map clean l) = map rename (map nameOf l).
Proof. rewrite !map_map. apply map_ext. intros e. apply clean_name. Qed.

Lemma removeDuplicates_members (l : list E) (n : string) :
  n ∈ map nameOf (removeDuplicates nameOf ∅ l) ↔ n ∈ map nameOf l.
Proof. rewrite removeDuplicates_names. split; [tauto |]. split; [done | apply not_elem_of_empty]. Qed.

Lemma cleaned_twice_same (l : list E) :
  (∀ a b, a ∈ map nameOf l → b ∈ map nameOf l → rename a = rename b → a = b) →
  map clean (removeDuplicates nameOf ∅ (map clean (removeDuplicates nameOf ∅ l))) =
  map clean (removeDuplicates nameOf ∅ l).
Proof.
  intros Hinj.
  rewrite (removeDuplicates_same nameOf ∅ (map clean _)).
  - rewrite map_map. apply map_ext. intros e. apply clean_idempotent.
  - rewrite cleaned_names. apply NoDup_map_on; [| apply removeDuplicates_NoDup].
    intros a b Ha Hb. apply (proj1 (removeDuplicates_members _ _)) in Ha, Hb.
    by apply Hinj.
  - intros n _. apply not_elem_of_empty.
Qed.

Lemma cleaned_twice_differs (l : list E) (a b : string) :
  a ∈ map nameOf l → b ∈ map nameOf l → a ≠ b → rename a = rename b →
  map clean (removeDuplicates nameOf ∅ (map clean (removeDuplicates nameOf ∅ l))) ≠
  map clean (removeDuplicates nameOf ∅ l).
Proof.
  intros Ha Hb Hne Hrename Hsame. apply (f_equal length) in Hsame.
  rewrite !length_map in Hsame.
  pose proof (removeDuplicates_shorter nameOf ∅
                (map clean (removeDuplicates nameOf ∅ l))) as Hshorter.
  rewrite length_map in Hshorter.
  assert (length (removeDuplicates nameOf ∅ (map clean (removeDuplicates nameOf ∅ l)))
          < length (removeDuplicates nameOf ∅ l)); [| lia].
  apply Hshorter. right. rewrite cleaned_names. intros Hnodup. apply Hne.
  apply (NoDup_map_injective rename (map nameOf (removeDuplicates nameOf ∅ l)));
    [done | by apply removeDuplicates_members .. | done].
Qed.

End clean_enumerations.

Lemma toUpper_idempotent (c : ascii) : QString.toUpper (QString.toUpper c) = QString.toUpper c.
Proof. destruct c as [[] [] [] [] [] [] [] []]; reflexivity. Qed.

Lemma upperFirst_idempotent (s : string) :
  QString.upperFirst (QString.upperFirst s) = QString.upperFirst s.
Proof. destruct s as [|c s]; [done |]. cbn. by rewrite toUpper_idempotent. Qed.

Lemma removeChar_idempotent (c : ascii) (s : string) :
  QString.removeChar c (QString.removeChar c s) = QString.removeChar c s.
Proof.
  induction s as [|a s IH]; [done |]. cbn [QString.removeChar].
  destruct (Ascii.eqb a c) eqn:Hac; [done |]. cbn [QString.removeChar].
  by rewrite Hac, IH.
Qed.

(** The name the clean-up gives an enumeration. *)
Lemma special_name (name : string) :
  default name (SpecWriter.specialEnumNames !! name) =
  if decide (name = "InitializeError") then "InitializeErrorCodes" else name.
Proof.
  unfold SpecWriter.specialEnumNames. destruct (decide (name = "InitializeError")) as [-> | Hne].
  - by rewrite lookup_singleton_eq.
  - by rewrite lookup_singleton_ne.
Qed.

Lemma special_name_idempotent (name : string) :
  default (default name (SpecWriter.specialEnumNames !! name))
    (SpecWriter.specialEnumNames !! default name (SpecWriter.specialEnumNames !! name)) =
  default name (SpecWriter.specialEnumNames !! name).
Proof. rewrite !special_name. by repeat case_decide. Qed.

Lemma special_name_injective (names : list string) (a b : string) :
  ¬ ("InitializeError" ∈ names ∧ "InitializeErrorCodes" ∈ names) →
  a ∈ names → b ∈ names →
  default a (SpecWriter.specialEnumNames !! a) = default b (SpecWriter.specialEnumNames !! b) →
  a = b.
Proof.
  intros Hboth Ha Hb. rewrite !special_name. repeat case_decide; intros Hab; subst; tauto.
Qed.

Lemma spec_cleanEnumeration_idempotent (e : Data.Enumeration.t) :
  SpecWriter.cleanEnumeration (SpecWriter.cleanEnumeration e) = SpecWriter.cleanEnumeration e.
Proof.
  destruct e as [name comment isString values]. unfold SpecWriter.cleanEnumeration.
  cbn [Data.Enumeration.name Data.Enumeration.comment Data.Enumeration.isString
       Data.Enumeration.values].
  rewrite special_name_idempotent. f_equal.
  rewrite map_map. apply map_ext. intros [vname value vcomment].
  cbn [Data.Value.name Data.Value.value Data.Value.comment].
  rewrite upperFirst_idempotent.
  destruct isString; by rewrite ?removeChar_idempotent, ?upperFirst_idempotent.
Qed.

Lemma meta_cleanEnumeration_idempotent (e : MetaData.Enumeration.t) :
  MetaSpecWriter.cleanEnumeration (MetaSpecWriter.cleanEnumeration e) =
  MetaSpecWriter.cleanEnumeration e.
Proof.
  destruct e as [name documentation type values]. unfold MetaSpecWriter.cleanEnumeration.
  cbn [MetaData.Enumeration.name MetaData.Enumeration.documentation MetaData.Enumeration.type
       MetaData.Enumeration.values].
  change MetaSpecWriter.specialEnumNames with SpecWriter.specialEnumNames.
  rewrite special_name_idempotent. f_equal.
  rewrite map_map. apply map_ext. intros [vname value vdocumentation].
  cbn [MetaData.Value.name MetaData.Value.value MetaData.Value.documentation].
  rewrite upperFirst_idempotent.
  case_bool_decide; by rewrite ?upperFirst_idempotent.
Qed.

(** C8, as stated, fails: a model with an enumeration [InitializeError] and an
    enumeration [InitializeErrorCodes] has two enumerations of the second name
    after one clean-up, and one after two. *)
Lemma cleanCode_twice_differs :
  SpecWriter.cleanCode (SpecWriter.cleanCode Examples.twoInitializeErrors)
    ≠ SpecWriter.cleanCode Examples.twoInitializeErrors ∧
  MetaSpecWriter.cleanCode (MetaSpecWriter.cleanCode Examples.metaTwoInitializeErrors)
    ≠ MetaSpecWriter.cleanCode Examples.metaTwoInitializeErrors ∧
  map Data.Enumeration.name
    (Data.enumerations (SpecWriter.cleanCode Examples.twoInitializeErrors))
    = ["InitializeErrorCodes"; "InitializeErrorCodes"] ∧
  map Data.Enumeration.name
    (Data.enumerations
       (SpecWriter.cleanCode (SpecWriter.cleanCode Examples.twoInitializeErrors)))
    = ["InitializeErrorCodes"].
Proof.
  split_and!.
  - intros H. apply (f_equal (λ d, length (Data.enumerations d))) in H.
    vm_compute in H. discriminate H.
  - intros H. apply (f_equal (λ d, length (MetaData.enumerations d))) in H.
    vm_compute in H. discriminate H.
  - by vm_compute.
  - by vm_compute.
Qed.

(** C8, amended: the clean-up is idempotent exactly on the models that do not
    have both an enumeration named [InitializeError] and one named
    [InitializeErrorCodes]: for such a model, and only for such a model, to
    clean what was cleaned once changes nothing. *)
Theorem cleanCode_idempotent_iff (data : Data.t) (metaData : MetaData.t) :
  (SpecWriter.cleanCode (SpecWriter.cleanCode data) = SpecWriter.cleanCode data ↔
   ¬ ("InitializeError" ∈ map Data.Enumeration.name (Data.enumerations data) ∧
      "InitializeErrorCodes" ∈ map Data.Enumeration.name (Data.enumerations data))) ∧
  (MetaSpecWriter.cleanCode (MetaSpecWriter.cleanCode metaData) = MetaSpecWriter.cleanCode metaData ↔
   ¬ ("InitializeError" ∈ map MetaData.Enumeration.name (MetaData.enumerations metaData) ∧
      "InitializeErrorCodes"
        ∈ map MetaData.Enumeration.name (MetaData.enumerations metaData))).
Proof.
  split.
  - split.
    + intros Hsame [Ha Hb].
      apply (f_equal Data.enumerations) in Hsame.
      unfold SpecWriter.cleanCode in Hsame. cbn [Data.enumerations] in Hsame.
      revert Hsame.
      apply (cleaned_twice_differs Data.Enumeration.name SpecWriter.cleanEnumeration
               (λ n, default n (SpecWriter.specialEnumNames !! n)) (λ e, eq_refl)
               (Data.enumerations data) "InitializeError" "InitializeErrorCodes");
        done.
    + intros Hboth. unfold SpecWriter.cleanCode.
      cbn [Data.notifications Data.requests Data.enumerations Data.types Data.interfaces].
      rewrite (cleaned_twice_same Data.Enumeration.name SpecWriter.cleanEnumeration
                 (λ n, default n (SpecWriter.specialEnumNames !! n)) (λ e, eq_refl)
                 spec_cleanEnumeration_idempotent);
        [| intros a b; by apply special_name_injective].
      pose proof (clean_declarations_idempotent SpecWriter.removeStructNames
                    SpecWriter.removeTypeNames
                    (map Data.Enumeration.name
                       (map SpecWriter.cleanEnumeration
                          (removeDuplicates Data.Enumeration.name ∅ (Data.enumerations data))))
                    (Data.types data) (Data.interfaces data)) as [Htypes Hinterfaces].
      cbv zeta in Htypes, Hinterfaces. f_equal; [exact Htypes | exact Hinterfaces].
  - split.
    + intros Hsame [Ha Hb].
      apply (f_equal MetaData.enumerations) in Hsame.
      unfold MetaSpecWriter.cleanCode in Hsame. cbn [MetaData.enumerations] in Hsame.
      revert Hsame.
      apply (cleaned_twice_differs MetaData.Enumeration.name MetaSpecWriter.cleanEnumeration
               (λ n, default n (SpecWriter.specialEnumNames !! n)) (λ e, eq_refl)
               (MetaData.enumerations metaData) "InitializeError" "InitializeErrorCodes");
        done.
    + intros Hboth. unfold MetaSpecWriter.cleanCode.
      cbn [MetaData.notifications MetaData.requests MetaData.enumerations MetaData.types
           MetaData.interfaces].
      rewrite (cleaned_twice_same MetaData.Enumeration.name MetaSpecWriter.cleanEnumeration
                 (λ n, default n (SpecWriter.specialEnumNames !! n)) (λ e, eq_refl)
                 meta_cleanEnumeration_idempotent);
        [| intros a b; by apply special_name_injective].
      pose proof (clean_declarations_idempotent MetaSpecWriter.removeStructNames
                    MetaSpecWriter.removeTypeNames
                    (map MetaData.Enumeration.name
                       (map MetaSpecWriter.cleanEnumeration
                          (removeDuplicates MetaData.Enumeration.name ∅
                             (MetaData.enumerations metaData))))
                    (MetaData.types metaData) (MetaData.interfaces metaData))
        as [Htypes Hinterfaces].
      cbv zeta in Htypes, Hinterfaces. f_equal; [exact Htypes | exact Hinterfaces].
Qed.

(** ** The emission loop *)

Section ready_blocked.
Context {A : Type} `{DeclarationLaws A}.

Lemma readyPart_nil_blocked (l : list A) : readyPart l = [] → blockedPart l = l.
Proof.
  unfold readyPart, blockedPart. induction l as [|a l IH]; [done |].
  rewrite !filter_cons. destruct (decide (isReady a)) as [Ha | Ha]; [done |].
  intros Hl. rewrite decide_True by done. by rewrite IH.
Qed.

Lemma declarations_readyPart (l : list A) :
  declarations (readyPart l) = readyPart (declarations l).
Proof.
  unfold readyPart, declarations. induction l as [|a l IH]; [done |].
  cbn [map]. rewrite !filter_cons.
  destruct (decide (isReady a)) as [Ha | Ha].
  - rewrite (decide_True (P := isReady (declName a, declDependencies a))) by exact Ha.
    cbn [map]. by rewrite IH.
  - by rewrite (decide_False (P := isReady (declName a, declDependencies a))) by exact Ha.
Qed.

Lemma declarations_blockedPart (l : list A) :
  declarations (blockedPart l) = blockedPart (declarations l).
Proof.
  unfold blockedPart, declarations. induction l as [|a l IH]; [done |].
  cbn [map]. rewrite !filter_cons.
  destruct (decide (¬ isReady a)) as [Ha | Ha].
  - rewrite (decide_True (P := ¬ isReady (declName a, declDependencies a))) by exact Ha.
    cbn [map]. by rewrite IH.
  - by rewrite (decide_False (P := ¬ isReady (declName a, declDependencies a))) by exact Ha.
Qed.

Lemma declarations_cleanup (names : list string) (l : list A) :
  declarations (cleanupDependencies names l) = cleanupDependencies names (declarations l).
Proof.
  unfold cleanupDependencies, declarations. rewrite !map_map. apply map_ext. intros a.
  cbn. by rewrite declName_with, declDependencies_with.
Qed.

Lemma declarations_names (l : list A) : map fst (declarations l) = map declName l.
Proof. unfold declarations. by rewrite map_map. Qed.

Lemma readyPart_names_sublist (l : list A) :
  map declName (readyPart l) `sublist_of` map declName l.
Proof. apply (fmap_sublist declName). apply sublist_filter. Qed.

Lemma blockedPart_names_sublist (names : list string) (l : list A) :
  map declName (cleanupDependencies names (blockedPart l)) `sublist_of` map declName l.
Proof. rewrite cleanupDependencies_names. apply (fmap_sublist declName). apply sublist_filter. Qed.

End ready_blocked.

Lemma spec_passes_unfold (fuel : nat) (types : list Data.Type_.t)
    (interfaces : list Data.Interface.t) :
  types ≠ [] ∨ interfaces ≠ [] →
  SpecWriter.passes (S fuel) types interfaces =
  rest ← SpecWriter.passes fuel
           (cleanupDependencies
              (map declName (readyPart types) ++ map declName (readyPart interfaces))
              (blockedPart types))
           (cleanupDependencies
              (map declName (readyPart types) ++ map declName (readyPart interfaces))
              (blockedPart interfaces));
  Some ((readyPart types, readyPart interfaces) :: rest).
Proof. intros Hsome. destruct types, interfaces; try done. by destruct Hsome. Qed.

(** A pass that finds nothing to write leaves the two vectors as they are, so
    the loop goes on for ever. *)
Lemma spec_passes_stuck (fuel : nat) (types : list Data.Type_.t)
    (interfaces : list Data.Interface.t) :
  types ≠ [] ∨ interfaces ≠ [] → readyPart types = [] → readyPart interfaces = [] →
  SpecWriter.passes fuel types interfaces = None.
Proof.
  intros Hsome Htypes Hinterfaces. induction fuel as [|fuel IH].
  - destruct types, interfaces; try done. by destruct Hsome.
  - cbn [SpecWriter.passes]. rewrite Htypes, Hinterfaces. cbn [map app].
    rewrite !readyPart_nil_blocked, !cleanupDependencies_nil by done. rewrite IH.
    destruct types, interfaces; try done. by destruct Hsome.
Qed.

Lemma meta_passes_stuck (fuel : nat) (written rootTypes : list MetaData.Type_.t) :
  rootTypes ≠ [] → readyPart rootTypes = [] →
  MetaSpecWriter.passes fuel written rootTypes = None.
Proof.
  intros Hsome Hready. revert written. induction fuel as [|fuel IH]; intros written.
  - by destruct rootTypes.
  - cbn [MetaSpecWriter.passes]. rewrite Hready. cbn [map].
    rewrite !readyPart_nil_blocked, !cleanupDependencies_nil by done. rewrite IH.
    by destruct rootTypes.
Qed.

(** C3, as stated, fails: for two interfaces that depend on each other, be it
    from the first pass on or after a pass that wrote an alias, and for an
    interface that depends on a name nothing bears, the loop ends after no
    number of passes, with an error or without. *)
Lemma blocked_loop_never_ends :
  (¬ ∃ fuel outcome, SpecWriter.passes fuel [] Examples.cycle = Some outcome) ∧
  (¬ ∃ fuel outcome,
       SpecWriter.passes fuel Examples.aliasBeforeCycle Examples.cycleAfterAlias
       = Some outcome) ∧
  (¬ ∃ fuel outcome, SpecWriter.passes fuel [] Examples.dangling = Some outcome) ∧
  (¬ ∃ fuel outcome, MetaSpecWriter.passes fuel [] Examples.metaCycle = Some outcome).
Proof.
  split_and!; intros (fuel & outcome & Hend).
  - by rewrite spec_passes_stuck in Hend; [| right | |].
  - destruct fuel as [|fuel]; [done |].
    rewrite spec_passes_unfold in Hend by by left.
    by rewrite spec_passes_stuck in Hend; [| right | |].
  - by rewrite spec_passes_stuck in Hend; [| right | |].
  - by rewrite meta_passes_stuck in Hend.
Qed.

(** C3, amended: when a pass of the loop finds no alias and no interface
    without dependencies while some remain, no error is raised: the pass
    leaves what remains as it is, and the loop never ends, whatever the number
    of passes; [writeTypesAndInterfaces] does not return. *)
Theorem blocked_pass_repeats_for_ever
    (types : list Data.Type_.t) (interfaces : list Data.Interface.t)
    (rootTypes : list MetaData.Type_.t) :
  types ≠ [] ∨ interfaces ≠ [] → readyPart types = [] → readyPart interfaces = [] →
  rootTypes ≠ [] → readyPart rootTypes = [] →
  (∀ fuel, SpecWriter.passes fuel types interfaces = None) ∧
  (∀ fuel written, MetaSpecWriter.passes fuel written rootTypes = None) ∧
  (∀ fuel data,
     SpecWriter.writeTypesAndInterfaces (λ _, Some types) (λ _, Some interfaces) fuel data
     = None) ∧
  (∀ fuel data,
     MetaSpecWriter.writeTypesAndInterfaces (λ _, Some rootTypes) fuel data = None).
Proof.
  intros Hsome Htypes Hinterfaces HsomeRoot Hroot. split_and!.
  - intros fuel. by apply spec_passes_stuck.
  - intros fuel written. by apply meta_passes_stuck.
  - intros fuel data. unfold SpecWriter.writeTypesAndInterfaces.
    cbn [mbind option_bind]. by rewrite spec_passes_stuck.
  - intros fuel data. unfold MetaSpecWriter.writeTypesAndInterfaces.
    cbn [mbind option_bind]. by rewrite meta_passes_stuck.
Qed.

Lemma blocked_pass_repeats_for_ever_witness :
  SpecWriter.passes 1000 [] Examples.cycle = None ∧
  MetaSpecWriter.passes 1000 [] Examples.metaCycle = None.
Proof.
  destruct (blocked_pass_repeats_for_ever [] Examples.cycle Examples.metaCycle)
    as (Hspec & Hmeta & _); [by right | done..|].
  split; [apply Hspec | apply Hmeta].
Defined.

(** In a finite part of a graph without cycles some node has no edge into the
    part. *)
Lemma exists_sink {A : Type} `{EqDecision A} (R : relation A) `{!RelDecision R} :
  (∀ x, ¬ tc R x x) →
  ∀ part : list A, part ≠ [] → ∃ y, y ∈ part ∧ ∀ z, z ∈ part → ¬ R y z.
Proof.
  intros Hacyclic.
  assert (∀ n (part : list A), length part ≤ n → ∀ x, x ∈ part →
            ∃ y, y ∈ part ∧ rtc R x y ∧ ∀ z, z ∈ part → ¬ R y z) as Hwalk.
  { induction n as [|n IH]; intros part Hlen x Hx.
    - destruct part; [by apply elem_of_nil in Hx | cbn in Hlen; lia].
    - destruct (decide (Exists (R x) part)) as [Hedge | Hedge].
      + apply Exists_exists in Hedge as (z & Hz & Hxz).
        assert (z ≠ x) as Hzx.
        { intros ->. apply (Hacyclic x). by apply tc_once. }
        destruct (IH (filter (λ a, a ≠ x) part)) with (x := z) as (y & Hy & Hzy & Hsink).
        * pose proof (length_filter_lt (λ a, a ≠ x) part x Hx) as Hlt.
          assert (length (filter (λ a, a ≠ x) part) < length part) by (apply Hlt; tauto).
          lia.
        * by apply list_elem_of_filter.
        * apply list_elem_of_filter in Hy as [Hyx Hy].
          exists y. split_and!; [done | by eapply rtc_l |].
          intros w Hw Hyw. destruct (decide (w = x)) as [-> | Hwx].
          -- apply (Hacyclic x). eapply tc_l; [exact Hxz |].
             eapply tc_rtc_l; [exact Hzy | by apply tc_once].
          -- apply (Hsink w); [by apply list_elem_of_filter | done].
      + exists x. split_and!; [done | done |].
        intros z Hz Hxz. apply Hedge. apply Exists_exists. by exists z. }
  intros part Hpart. destruct part as [|x part]; [done |].
  destruct (Hwalk (length (x :: part)) (x :: part)) with (x := x) as (y & Hy & _ & Hsink);
    [done | by left |].
  by exists y.
Qed.

Section waves_properties.
Context (decls0 : list (string * list string)).
Context (names_unique : NoDup (map fst decls0)).
Context (all_resolved : resolved decls0).
Context (no_cycle : acyclic (dependsOn decls0)).

Lemma dependencies_unique (name : string) (ds1 ds2 : list string) :
  (name, ds1) ∈ decls0 → (name, ds2) ∈ decls0 → ds1 = ds2.
Proof.
  intros H1 H2.
  assert ((name, ds1) = (name, ds2)) as [= ->]; [| done].
  by apply (NoDup_map_injective fst decls0).
Qed.

Lemma cleanup_pairs_names (names : list string) (l : list (string * list string)) :
  map fst (cleanupDependencies names l) = map fst l.
Proof.
  exact (@cleanupDependencies_names (string * list string) Pair_Declaration
           Pair_DeclarationLaws names l).
Qed.

Lemma ready_blocked_names (l : list (string * list string)) :
  map fst (readyPart l) ++ map fst (blockedPart l) ≡ₚ map fst l.
Proof.
  rewrite <- map_app. apply (fmap_Permutation fst). apply filter_app_complement.
Qed.

Lemma loop_progress (emitted : list string) (remaining : list (string * list string)) :
  loopInvariant decls0 emitted remaining → remaining ≠ [] → readyPart remaining ≠ [].
Proof.
  intros [Hnames Hdeps] Hsome.
  destruct (exists_sink (dependsOn decls0) no_cycle (map fst remaining))
    as (name & Hname & Hsink).
  { by destruct remaining. }
  apply elem_of_map in Hname as ([name' ds] & -> & Hin). cbn [fst] in Hsink.
  destruct (Hdeps _ _ Hin) as (ds0 & Hin0 & Hds).
  assert (ds = []) as ->.
  { destruct ds as [|d ds]; [done |]. exfalso.
    assert (d ∈ filter (λ d, d ∉ emitted) ds0) as [Hd Hd0]%list_elem_of_filter
      by (rewrite <- Hds; left).
    apply (Hsink d).
    - assert (d ∈ map fst remaining ++ emitted) as [Hrem | Hem]%elem_of_app; [| done..].
      rewrite Hnames. apply (all_resolved name'). by exists ds0.
    - by exists ds0. }
  intros Hready.
  assert ((name', []) ∈ readyPart remaining) as Hin'.
  { apply list_elem_of_filter. by split. }
  rewrite Hready in Hin'. by apply elem_of_nil in Hin'.
Qed.

Lemma loop_step (emitted : list string) (remaining : list (string * list string)) :
  loopInvariant decls0 emitted remaining →
  loopInvariant decls0 (emitted ++ map fst (readyPart remaining))
    (cleanupDependencies (map fst (readyPart remaining)) (blockedPart remaining)).
Proof.
  intros [Hnames Hdeps]. split.
  - rewrite cleanup_pairs_names.
    rewrite <- Hnames, <- (ready_blocked_names remaining).
    rewrite (Permutation_app_comm emitted), !app_assoc.
    apply Permutation_app_tail, Permutation_app_comm.
  - intros name ds Hin. unfold cleanupDependencies in Hin.
    apply elem_of_map in Hin as ([name' ds'] & [= -> ->] & Hin).
    apply list_elem_of_filter in Hin as [_ Hin].
    destruct (Hdeps _ _ Hin) as (ds0 & Hin0 & ->). exists ds0. split; [done |].
    cbn [declDependencies Pair_Declaration snd]. rewrite removeEach_filter, list_filter_filter.
    apply list_filter_iff. intros d. rewrite elem_of_app. tauto.
Qed.

Lemma waves_nil (fuel : nat) : waves fuel [] = Some [].
Proof. by destruct fuel. Qed.

Lemma waves_cons (fuel : nat) (remaining : list (string * list string)) :
  remaining ≠ [] →
  waves (S fuel) remaining =
  rest ← waves fuel
           (cleanupDependencies (map fst (readyPart remaining)) (blockedPart remaining));
  Some (map fst (readyPart remaining) :: rest).
Proof. by destruct remaining. Qed.

Lemma waves_total (fuel : nat) :
  ∀ emitted remaining,
    loopInvariant decls0 emitted remaining → length remaining ≤ fuel →
    ∃ ws,
      waves fuel remaining = Some ws ∧
      concat ws ≡ₚ map fst remaining ∧
      Forall (λ w, w ≠ []) ws ∧
      ∀ name dependency,
        dependsOn decls0 name dependency → name ∈ concat ws →
        dependency ∈ emitted ∨
        ∃ before after, concat ws = before ++ name :: after ∧ dependency ∈ before.
Proof.
  induction fuel as [|fuel IH]; intros emitted remaining Hinv Hlen.
  - destruct remaining; [| cbn in Hlen; lia].
    exists []. split_and!; [done | done | constructor |].
    intros name dependency _ Hin. by apply elem_of_nil in Hin.
  - destruct (decide (remaining = [])) as [-> | Hsome].
    { exists []. split_and!; [done | done | constructor |].
      intros name dependency _ Hin. by apply elem_of_nil in Hin. }
    pose proof (loop_progress emitted remaining Hinv Hsome) as Hready.
    pose proof (loop_step emitted remaining Hinv) as Hinv'.
    set (names := map fst (readyPart remaining)) in *.
    set (remaining' := cleanupDependencies names (blockedPart remaining)) in *.
    assert (length remaining' < length remaining) as Hshorter.
    { unfold remaining', cleanupDependencies. rewrite length_map.
      destruct (readyPart remaining) as [|a ready] eqn:Ha; [done |].
      assert (a ∈ readyPart remaining) as [Hra Hina]%list_elem_of_filter
        by (rewrite Ha; left).
      apply (length_filter_lt _ _ a); [done | tauto]. }
    destruct (IH (emitted ++ names) remaining' Hinv') as (ws & Hws & Hperm & Hnonempty & Horder);
      [lia |].
    exists (names :: ws). split_and!.
    + rewrite waves_cons by done. fold names remaining'. by rewrite Hws.
    + cbn [concat]. rewrite Hperm. unfold remaining'. rewrite cleanup_pairs_names.
      apply ready_blocked_names.
    + constructor; [| done]. unfold names. by destruct (readyPart remaining).
    + intros name dependency Hdep Hin. cbn [concat] in *.
      apply elem_of_app in Hin as [Hin | Hin].
      * left. unfold names in Hin.
        apply elem_of_map in Hin as ([name' ds] & -> & Hin). cbn [fst] in *.
        apply list_elem_of_filter in Hin as [Hempty Hin].
        unfold isReady in Hempty. cbn in Hempty. subst ds.
        destruct Hinv as [_ Hdeps]. destruct (Hdeps _ _ Hin) as (ds0 & Hin0 & Hds).
        destruct Hdep as (ds0' & Hin0' & Hd).
        rewrite (dependencies_unique name' ds0' ds0) in Hd by done.
        destruct (decide (dependency ∈ emitted)) as [Hem | Hem]; [done |].
        assert (dependency ∈ filter (λ d, d ∉ emitted) ds0) as Hfalse
          by by apply list_elem_of_filter.
        rewrite <- Hds in Hfalse. by apply elem_of_nil in Hfalse.
      * destruct (Horder name dependency Hdep Hin)
          as [[Hem | Hnew]%elem_of_app | (before & after & Heq & Hbefore)].
        -- by left.
        -- right. apply list_elem_of_split in Hin as (before & after & Heq).
           exists (names ++ before), after. rewrite Heq, <- app_assoc. split; [done |].
           apply elem_of_app. by left.
        -- right. exists (names ++ before), after. rewrite Heq, <- app_assoc.
           split; [done |]. apply elem_of_app. by right.
Qed.

End waves_properties.

(** The two loops, seen on names and dependencies. *)

Lemma filter_true {A} (P : A → Prop) `{!∀ x, Decision (P x)} (l : list A) :
  (∀ x, P x) → filter P l = l.
Proof.
  intros HP. induction l as [|x l IH]; [done |].
  by rewrite filter_cons, decide_True, IH.
Qed.

Lemma cleanupDependencies_app {A} `{Declaration A} (names : list string) (l1 l2 : list A) :
  cleanupDependencies names (l1 ++ l2) =
  cleanupDependencies names l1 ++ cleanupDependencies names l2.
Proof. apply map_app. Qed.

Lemma readyPart_app {A} `{Declaration A} (l1 l2 : list A) :
  readyPart (l1 ++ l2) = readyPart l1 ++ readyPart l2.
Proof. apply filter_app. Qed.

Lemma blockedPart_app {A} `{Declaration A} (l1 l2 : list A) :
  blockedPart (l1 ++ l2) = blockedPart l1 ++ blockedPart l2.
Proof. apply filter_app. Qed.

Lemma spec_passes_waves (fuel : nat) :
  ∀ (types : list Data.Type_.t) (interfaces : list Data.Interface.t),
    map SpecWriter.passNames <$> SpecWriter.passes fuel types interfaces =
    waves fuel (declarations types ++ declarations interfaces).
Proof.
  induction fuel as [|fuel IH]; intros types interfaces.
  - by destruct types, interfaces.
  - destruct (decide (declarations types ++ declarations interfaces = [])) as [Hnil | Hsome].
    { apply app_eq_nil in Hnil as [Ht Hi]. by destruct types, interfaces. }
    rewrite waves_cons by done.
    rewrite readyPart_app, blockedPart_app.
    rewrite <- !declarations_readyPart, <- !declarations_blockedPart.
    rewrite cleanupDependencies_app, map_app, !declarations_names.
    rewrite <- !declarations_cleanup, <- IH.
    rewrite spec_passes_unfold by (destruct types, interfaces; [done | right | left ..]; done).
    by destruct (SpecWriter.passes fuel _ _).
Qed.

Lemma meta_passes_waves (fuel : nat) :
  ∀ written rootTypes : list MetaData.Type_.t,
    map (λ pass, map MetaData.Type_.name pass.1)
      <$> MetaSpecWriter.passes fuel written rootTypes =
    waves fuel (declarations rootTypes).
Proof.
  induction fuel as [|fuel IH]; intros written rootTypes.
  - by destruct rootTypes.
  - destruct (decide (declarations rootTypes = [])) as [Hnil | Hsome].
    { by destruct rootTypes. }
    rewrite waves_cons by done.
    rewrite <- !declarations_readyPart, <- !declarations_blockedPart, !declarations_names.
    rewrite <- !declarations_cleanup, <- (IH (written ++ readyPart rootTypes)).
    assert (MetaSpecWriter.passes (S fuel) written rootTypes =
            rest ← MetaSpecWriter.passes fuel (written ++ readyPart rootTypes)
                     (cleanupDependencies (map declName (readyPart rootTypes))
                        (blockedPart rootTypes));
            Some ((readyPart rootTypes,
                   written ++ readyPart rootTypes ++ blockedPart rootTypes) :: rest)) as ->.
    { by destruct rootTypes. }
    by destruct (MetaSpecWriter.passes fuel _ _).
Qed.

(** Every pass writes aliases and interfaces in the order in which the loop
    was given them. *)
Lemma spec_passes_in_order (fuel : nat) :
  ∀ (types : list Data.Type_.t) (interfaces : list Data.Interface.t) passes,
    SpecWriter.passes fuel types interfaces = Some passes →
    Forall (λ pass,
      map Data.Type_.name pass.1 `sublist_of` map Data.Type_.name types ∧
      map Data.Interface.name pass.2 `sublist_of` map Data.Interface.name interfaces) passes.
Proof.
  induction fuel as [|fuel IH]; intros types interfaces passes Hpasses.
  - destruct types, interfaces; try done. injection Hpasses as <-. constructor.
  - destruct (decide (types = [] ∧ interfaces = [])) as [[-> ->] | Hsome].
    { injection Hpasses as <-. constructor. }
    rewrite spec_passes_unfold in Hpasses
      by (destruct types, interfaces; [by destruct Hsome | right | left ..]; done).
    destruct (SpecWriter.passes fuel _ _) as [rest|] eqn:Hrest; [| done].
    injection Hpasses as <-. constructor.
    + split.
      * exact (@readyPart_names_sublist _ Type_Declaration types).
      * exact (@readyPart_names_sublist _ Interface_Declaration interfaces).
    + apply IH in Hrest. eapply Forall_impl; [exact Hrest |].
      intros pass [Htypes Hinterfaces]. split.
      * etrans; [exact Htypes |].
        exact (@blockedPart_names_sublist _ Type_Declaration _ _ types).
      * etrans; [exact Hinterfaces |].
        exact (@blockedPart_names_sublist _ Interface_Declaration _ _ interfaces).
Qed.

Lemma meta_passes_in_order (fuel : nat) :
  ∀ (written rootTypes : list MetaData.Type_.t) passes,
    MetaSpecWriter.passes fuel written rootTypes = Some passes →
    Forall (λ pass,
      map MetaData.Type_.name pass.1 `sublist_of` map MetaData.Type_.name rootTypes) passes.
Proof.
  induction fuel as [|fuel IH]; intros written rootTypes passes Hpasses.
  - destruct rootTypes; try done. injection Hpasses as <-. constructor.
  - destruct rootTypes as [|type rootTypes]; [injection Hpasses as <-; constructor |].
    cbn [MetaSpecWriter.passes] in Hpasses.
    destruct (MetaSpecWriter.passes fuel _ _) as [rest|] eqn:Hrest; [| done].
    injection Hpasses as <-. constructor.
    + exact (@readyPart_names_sublist _ MetaType_Declaration (type :: rootTypes)).
    + apply IH in Hrest. eapply Forall_impl; [exact Hrest |].
      intros pass Hpass. etrans; [exact Hpass |].
      exact (@blockedPart_names_sublist _ MetaType_Declaration _ _ (type :: rootTypes)).
Qed.

(** More passes than needed change nothing. *)
Lemma waves_more_fuel (fuel fuel' : nat) :
  ∀ remaining ws, waves fuel remaining = Some ws → fuel ≤ fuel' →
    waves fuel' remaining = Some ws.
Proof.
  revert fuel'. induction fuel as [|fuel IH]; intros fuel' remaining ws Hws Hle.
  - destruct remaining; [| done]. injection Hws as <-. apply waves_nil.
  - destruct (decide (remaining = [])) as [-> | Hsome].
    { injection Hws as <-. apply waves_nil. }
    destruct fuel' as [|fuel']; [lia |].
    rewrite waves_cons in Hws |- * by done.
    destruct (waves fuel _) as [rest|] eqn:Hrest; [| done].
    injection Hws as <-. rewrite (IH fuel' _ rest); [done | done | lia].
Qed.

Lemma acyclic_by_rank (decls : list (string * list string)) (rank : string → nat) :
  Forall (λ decl, Forall (λ d, rank d < rank decl.1) decl.2) decls →
  acyclic (dependsOn decls).
Proof.
  intros Hrank.
  assert (∀ n d, tc (dependsOn decls) n d → rank d < rank n) as Htc.
  { assert (∀ n d, dependsOn decls n d → rank d < rank n) as Hstep.
    { intros n d (ds & Hin & Hd). rewrite Forall_forall in Hrank.
      specialize (Hrank _ Hin). rewrite Forall_forall in Hrank. by apply Hrank. }
    induction 1 as [n d Hnd | n m d Hnm _ IH]; [by apply Hstep |].
    apply Hstep in Hnm. lia. }
  intros n Hn. apply Htc in Hn. lia.
Qed.

Lemma resolved_by_list (decls : list (string * list string)) :
  Forall (λ decl, Forall (λ d, d ∈ map fst decls) decl.2) decls → resolved decls.
Proof.
  intros Hall n d (ds & Hin & Hd). rewrite Forall_forall in Hall.
  specialize (Hall _ Hin). rewrite Forall_forall in Hall. by apply Hall.
Qed.

Lemma initial_invariant (decls : list (string * list string)) : loopInvariant decls [] decls.
Proof.
  split; [by rewrite app_nil_r |]. intros name ds Hin. exists ds. split; [done |].
  symmetry. apply filter_true. intros d. apply not_elem_of_nil.
Qed.

Lemma spec_passes_more_fuel (fuel fuel' : nat) :
  ∀ types interfaces passes,
    SpecWriter.passes fuel types interfaces = Some passes → fuel ≤ fuel' →
    SpecWriter.passes fuel' types interfaces = Some passes.
Proof.
  revert fuel'. induction fuel as [|fuel IH]; intros fuel' types interfaces passes Hpasses Hle.
  - destruct types, interfaces; try done. by destruct fuel'.
  - destruct (decide (types = [] ∧ interfaces = [])) as [[-> ->] | Hsome].
    { by destruct fuel'. }
    destruct fuel' as [|fuel']; [lia |].
    assert (types ≠ [] ∨ interfaces ≠ []) as Hremain
      by (destruct types, interfaces; [by destruct Hsome | right | left ..]; done).
    rewrite spec_passes_unfold in Hpasses |- * by done.
    destruct (SpecWriter.passes fuel _ _) as [rest|] eqn:Hrest; [| done].
    rewrite (IH fuel' _ _ rest); [done | done | lia].
Qed.

Lemma meta_passes_more_fuel (fuel fuel' : nat) :
  ∀ written rootTypes passes,
    MetaSpecWriter.passes fuel written rootTypes = Some passes → fuel ≤ fuel' →
    MetaSpecWriter.passes fuel' written rootTypes = Some passes.
Proof.
  revert fuel'. induction fuel as [|fuel IH]; intros fuel' written rootTypes passes Hpasses Hle.
  - destruct rootTypes; try done. by destruct fuel'.
  - destruct rootTypes as [|type rootTypes]; [by destruct fuel' |].
    destruct fuel' as [|fuel']; [lia |].
    cbn [MetaSpecWriter.passes] in Hpasses |- *.
    destruct (MetaSpecWriter.passes fuel _ _) as [rest|] eqn:Hrest; [| done].
    rewrite (IH fuel' _ _ rest); [done | done | lia].
Qed.

(** The order of the names that the loop over [decls] writes. *)
Lemma waves_order (decls : list (string * list string)) :
  NoDup (map fst decls) → resolved decls → acyclic (dependsOn decls) →
  ∃ ws,
    waves (length decls) decls = Some ws ∧
    concat ws ≡ₚ map fst decls ∧
    Forall (λ w, w ≠ []) ws ∧
    ∀ name dependency, dependsOn decls name dependency →
      ∃ before after, concat ws = before ++ name :: after ∧ dependency ∈ before.
Proof.
  intros Hnodup Hresolved Hacyclic.
  destruct (waves_total decls Hnodup Hresolved Hacyclic (length decls) [] decls
              (initial_invariant decls)) as (ws & Hws & Hperm & Hnonempty & Horder); [done |].
  exists ws. split_and!; [done..|].
  intros name dependency Hdep.
  destruct (Horder name dependency Hdep) as [Hnil | Hbefore].
  - rewrite Hperm. destruct Hdep as (ds & Hin & _). apply elem_of_map. by exists (name, ds).
  - by apply elem_of_nil in Hnil.
  - done.
Qed.

(** ** What every pass writes *)

Section wave_content.
Context {A : Type} `{DeclarationLaws A}.

Lemma removeEach_nil_iff (written ds : list string) :
  QString.removeEach written ds = [] ↔ Forall (λ d, d ∈ written) ds.
Proof.
  rewrite removeEach_filter. induction ds as [|d ds IH]; [done |].
  rewrite filter_cons, Forall_cons. destruct (decide (d ∉ written)) as [Hnot|Hin].
  - split; [done | tauto].
  - rewrite IH. apply dec_stable in Hin. tauto.
Qed.

Lemma removeEach_app (written names ds : list string) :
  QString.removeEach (written ++ names) ds
  = QString.removeEach names (QString.removeEach written ds).
Proof. unfold QString.removeEach. apply foldl_app. Qed.

Lemma remainingAfter_nil (l : list A) : remainingAfter [] l = l.
Proof.
  unfold remainingAfter. rewrite cleanupDependencies_nil. apply filter_true.
  intros a. apply not_elem_of_nil.
Qed.

Lemma readyPart_remainingAfter (written : list string) (l : list A) :
  readyPart (remainingAfter written l) = releasedBy written l.
Proof.
  unfold readyPart, remainingAfter, releasedBy, cleanupDependencies.
  induction l as [|a l IH]; [done |].
  rewrite !(filter_cons _ a). destruct (decide (declName a ∉ written)) as [Hname|Hname].
  - cbn [map]. rewrite filter_cons.
    destruct (decide (QString.removeEach written (declDependencies a) = [])) as [Hready|Hready].
    + rewrite decide_True by (unfold isReady; by rewrite declDependencies_with).
      rewrite decide_True by (split; [done | by apply removeEach_nil_iff]).
      cbn [map]. by rewrite Hready, IH.
    + rewrite decide_False by (unfold isReady; by rewrite declDependencies_with).
      rewrite decide_False; [done |]. intros [_ Hall]. by apply Hready, removeEach_nil_iff.
  - rewrite decide_False by tauto. exact IH.
Qed.

Lemma blockedPart_remainingAfter (written names : list string) (l : list A) :
  (∀ a, a ∈ l → declName a ∉ written →
        (Forall (λ d, d ∈ written) (declDependencies a) ↔ declName a ∈ names)) →
  cleanupDependencies names (blockedPart (remainingAfter written l))
  = remainingAfter (written ++ names) l.
Proof.
  unfold blockedPart, remainingAfter, cleanupDependencies.
  induction l as [|a l IH]; intros Hnames; [done |].
  assert (∀ a', a' ∈ l → declName a' ∉ written →
            (Forall (λ d, d ∈ written) (declDependencies a') ↔ declName a' ∈ names)) as Hrest
    by (intros a' Ha'; apply Hnames; by right).
  specialize (IH Hrest).
  rewrite !(filter_cons _ a). destruct (decide (declName a ∉ written)) as [Hname|Hname].
  - cbn [map]. rewrite filter_cons.
    pose proof (Hnames a ltac:(by left) Hname) as Hiff.
    destruct (decide (¬ QString.removeEach written (declDependencies a) = []))
      as [Hblocked|Hready].
    + assert (declName a ∉ names) as Hother.
      { intros Hin. apply Hblocked, removeEach_nil_iff. by apply Hiff. }
      rewrite decide_True by (unfold isReady; by rewrite declDependencies_with).
      rewrite decide_True by (rewrite elem_of_app; tauto).
      cbn [map]. rewrite IH. f_equal.
      by rewrite declDependencies_with, withDependencies_twice, removeEach_app.
    + apply dec_stable in Hready.
      rewrite decide_False by (unfold isReady; rewrite declDependencies_with; tauto).
      apply removeEach_nil_iff, Hiff in Hready.
      rewrite decide_False by (rewrite elem_of_app; tauto). exact IH.
  - rewrite decide_False by (rewrite elem_of_app; tauto). exact IH.
Qed.

Lemma releasedBy_names (written : list string) (l : list A) (name : string) :
  name ∈ map declName (releasedBy written l) ↔
  ∃ a, a ∈ l ∧ declName a = name ∧ (declName a ∉ written) ∧
       Forall (λ d, d ∈ written) (declDependencies a).
Proof.
  unfold releasedBy. rewrite map_map. rewrite elem_of_map. split.
  - intros (a & -> & [[Hname Hall] Hin]%list_elem_of_filter).
    exists a. by rewrite declName_with.
  - intros (a & Hin & <- & Hname & Hall). exists a. rewrite declName_with.
    split; [done |]. by apply list_elem_of_filter.
Qed.

Lemma released_iff (written others : list string) (l : list A) (a : A) :
  NoDup (map declName l) → (∀ o, o ∈ others → o ∉ map declName l) →
  a ∈ l → declName a ∉ written →
  Forall (λ d, d ∈ written) (declDependencies a) ↔
  declName a ∈ map declName (releasedBy written l) ∨ declName a ∈ others.
Proof.
  intros Hnodup Hothers Ha Hname. split.
  - intros Hall. left. apply releasedBy_names. by exists a.
  - intros [(b & Hb & Hsame & _ & Hall)%releasedBy_names | Hother].
    + by rewrite <- (NoDup_map_injective declName l b a Hnodup Hb Ha Hsame).
    + destruct (Hothers _ Hother). apply elem_of_map. by exists a.
Qed.

End wave_content.

Lemma spec_passes_content (types0 : list Data.Type_.t) (interfaces0 : list Data.Interface.t) :
  NoDup (map Data.Type_.name types0 ++ map Data.Interface.name interfaces0) →
  ∀ fuel written passes,
    SpecWriter.passes fuel (remainingAfter written types0) (remainingAfter written interfaces0)
      = Some passes →
    ∀ k pass, passes !! k = Some pass →
      pass.1 = releasedBy (written ++ concat (map SpecWriter.passNames (take k passes))) types0 ∧
      pass.2
        = releasedBy (written ++ concat (map SpecWriter.passNames (take k passes))) interfaces0.
Proof.
  intros (HnodupTypes & Hdisjoint & HnodupInterfaces)%NoDup_app.
  induction fuel as [|fuel IH]; intros written passes Hpasses k pass Hpass.
  - destruct (remainingAfter written types0), (remainingAfter written interfaces0); try done.
    injection Hpasses as <-. done.
  - destruct (decide (remainingAfter written types0 = []
                      ∧ remainingAfter written interfaces0 = [])) as [[Ht Hi]|Hsome].
    { rewrite Ht, Hi in Hpasses. injection Hpasses as <-. done. }
    rewrite spec_passes_unfold in Hpasses
      by (destruct (remainingAfter written types0), (remainingAfter written interfaces0);
          [by destruct Hsome | by right | by left..]).
    rewrite !readyPart_remainingAfter in Hpasses.
    rewrite (blockedPart_remainingAfter written _ types0) in Hpasses.
    2:{ intros a Ha Hname. rewrite elem_of_app.
        apply released_iff; [done | | done..].
        intros o (b & Hb & <- & _)%releasedBy_names Hin.
        apply (Hdisjoint _ Hin). apply elem_of_map. by exists b. }
    rewrite (blockedPart_remainingAfter written _ interfaces0) in Hpasses.
    2:{ intros a Ha Hname. rewrite elem_of_app.
        rewrite (or_comm (_ ∈ map declName (releasedBy _ types0))).
        apply released_iff; [done | | done..].
        intros o (b & Hb & <- & _)%releasedBy_names Hin.
        apply (Hdisjoint (declName b)); [| done]. apply elem_of_map. by exists b. }
    destruct (SpecWriter.passes fuel _ _) as [rest|] eqn:Hrest; [| done].
    injection Hpasses as <-. destruct k as [|k].
    + injection Hpass as <-. cbn [take map concat fst snd]. by rewrite app_nil_r.
    + cbn [lookup] in Hpass. destruct (IH _ _ Hrest k pass Hpass) as [Htypes Hinterfaces].
      rewrite Htypes, Hinterfaces. cbn [take map concat].
      change (SpecWriter.passNames (releasedBy written types0, releasedBy written interfaces0))
        with (map declName (releasedBy written types0)
              ++ map declName (releasedBy written interfaces0)).
      by rewrite <- !app_assoc.
Qed.

Lemma meta_passes_content (rootTypes0 : list MetaData.Type_.t) :
  NoDup (map MetaData.Type_.name rootTypes0) →
  ∀ fuel written emitted passes,
    MetaSpecWriter.passes fuel emitted (remainingAfter written rootTypes0) = Some passes →
    ∀ k pass, passes !! k = Some pass →
      pass.1 = releasedBy
                 (written
                  ++ concat (map (λ pass, map MetaData.Type_.name pass.1) (take k passes)))
                 rootTypes0.
Proof.
  intros Hnodup.
  induction fuel as [|fuel IH]; intros written emitted passes Hpasses k pass Hpass.
  - destruct (remainingAfter written rootTypes0); [| done]. injection Hpasses as <-. done.
  - destruct (remainingAfter written rootTypes0) as [|type remaining] eqn:Hremaining.
    { injection Hpasses as <-. done. }
    cbn [MetaSpecWriter.passes] in Hpasses. rewrite <- Hremaining in Hpasses.
    rewrite !readyPart_remainingAfter in Hpasses.
    rewrite (blockedPart_remainingAfter written _ rootTypes0) in Hpasses.
    2:{ intros a Ha Hname.
        pose proof (λ Hothers,
                      @released_iff _ MetaType_Declaration MetaType_DeclarationLaws written []
                        rootTypes0 a Hnodup Hothers Ha Hname) as Hiff.
        rewrite Hiff; [| intros o Ho; by apply elem_of_nil in Ho].
        split; [intros [Hin|Hin%elem_of_nil]; [exact Hin | done] |].
        intros Hin. left. exact Hin. }
    destruct (MetaSpecWriter.passes fuel _ _) as [rest|] eqn:Hrest; [| done].
    injection Hpasses as <-. destruct k as [|k].
    + injection Hpass as <-. cbn [take map concat fst snd]. by rewrite app_nil_r.
    + cbn [lookup] in Hpass. rewrite (IH _ _ _ Hrest k pass Hpass).
      cbn [take map concat fst]. by rewrite <- !app_assoc.
Qed.

(** C2, as stated, fails: an alias that names itself among its dependencies
    has no cycle but the self-reference and no dependency that is not
    declared, and the loop never writes it. *)
Lemma self_dependency_blocks_loop :
  let decls :=
    declarations Examples.selfDependent ++ declarations ([] : list Data.Interface.t) in
  NoDup (map fst decls) ∧ resolved decls ∧ acyclic (dependsOnOther decls) ∧
  ¬ ∃ fuel passes, SpecWriter.passes fuel Examples.selfDependent [] = Some passes.
Proof.
  assert (∀ n d,
            dependsOn (declarations Examples.selfDependent
                       ++ declarations ([] : list Data.Interface.t)) n d →
            n = "A" ∧ d = "A") as Hedge.
  { intros n d (ds & Hin & Hd). cbn in Hin.
    apply list_elem_of_singleton in Hin as [= -> ->].
    by apply list_elem_of_singleton in Hd as ->. }
  cbv zeta. split_and!.
  - cbn. apply NoDup_singleton.
  - intros n d [-> ->]%Hedge. cbn. by left.
  - intros n Hn. destruct Hn as [x y [[-> ->]%Hedge Hne] | x y z [[-> ->]%Hedge Hne] _]; done.
  - intros (fuel & passes & Hpasses). by rewrite spec_passes_stuck in Hpasses; [| left | |].
Qed.

(** C2, amended: when no alias and no interface has a name twice, every
    dependency is the name of an alias or an interface, and the dependency
    graph has no cycle, a self-reference being a cycle, the loop ends after at
    most as many passes as there are aliases and interfaces.  Every alias and
    every interface is written once, after all it depends on; every pass
    writes something, and writes exactly what has no dependency left: the
    aliases not written yet whose dependencies were all written by earlier
    passes, in the order in which the loop was given them, then the
    interfaces of which the same holds, in the order in which the loop was
    given them.  The loop of the tree-structured writer, over one vector, ends
    likewise and writes in every pass the root types without a dependency
    left, in the order of the vector. *)
Theorem emission_loop_respects_dependencies
    (types : list Data.Type_.t) (interfaces : list Data.Interface.t)
    (rootTypes : list MetaData.Type_.t) :
  let decls := declarations types ++ declarations interfaces in
  let rootDecls := declarations rootTypes in
  NoDup (map fst decls) → resolved decls → acyclic (dependsOn decls) →
  NoDup (map fst rootDecls) → resolved rootDecls → acyclic (dependsOn rootDecls) →
  (∃ passes,
     (∀ fuel, length types + length interfaces ≤ fuel →
        SpecWriter.passes fuel types interfaces = Some passes) ∧
     (let order := concat (map SpecWriter.passNames passes) in
      order ≡ₚ map fst decls ∧
      ∀ name dependency, dependsOn decls name dependency →
        ∃ before after, order = before ++ name :: after ∧ dependency ∈ before) ∧
     Forall (λ pass,
        SpecWriter.passNames pass ≠ [] ∧
        SpecWriter.passNames pass =
          map Data.Type_.name pass.1 ++ map Data.Interface.name pass.2 ∧
        map Data.Type_.name pass.1 `sublist_of` map Data.Type_.name types ∧
        map Data.Interface.name pass.2 `sublist_of` map Data.Interface.name interfaces)
       passes ∧
     (∀ k pass, passes !! k = Some pass →
        let written := concat (map SpecWriter.passNames (take k passes)) in
        pass.1 = releasedBy written types ∧ pass.2 = releasedBy written interfaces) ∧
     (∀ fuel data, length types + length interfaces ≤ fuel →
        fst <$> SpecWriter.writeTypesAndInterfaces (λ _, Some types) (λ _, Some interfaces)
                  fuel data
        = Some (QString.appendAll
                  (λ pass, QString.appendAll SpecWriter.writeType pass.1
                           +:+ QString.appendAll SpecWriter.writeMainInterface pass.2)
                  passes))) ∧
  (∃ passes,
     (∀ fuel, length rootTypes ≤ fuel →
        MetaSpecWriter.passes fuel [] rootTypes = Some passes) ∧
     (let order := concat (map (λ pass, map MetaData.Type_.name pass.1) passes) in
      order ≡ₚ map fst rootDecls ∧
      ∀ name dependency, dependsOn rootDecls name dependency →
        ∃ before after, order = before ++ name :: after ∧ dependency ∈ before) ∧
     Forall (λ pass,
        pass.1 ≠ [] ∧
        map MetaData.Type_.name pass.1 `sublist_of` map MetaData.Type_.name rootTypes)
       passes ∧
     (∀ k pass, passes !! k = Some pass →
        pass.1 = releasedBy
                   (concat (map (λ pass, map MetaData.Type_.name pass.1) (take k passes)))
                   rootTypes)).
Proof.
  intros decls rootDecls Hnodup Hresolved Hacyclic HrootNodup HrootResolved HrootAcyclic.
  split.
  - destruct (waves_order decls Hnodup Hresolved Hacyclic)
      as (ws & Hws & Hperm & Hnonempty & Horder).
    assert (length decls = length types + length interfaces) as Hlength.
    { unfold decls, declarations. by rewrite length_app, !length_map. }
    rewrite Hlength in Hws. unfold decls in Hws. rewrite <- spec_passes_waves in Hws.
    destruct (SpecWriter.passes (length types + length interfaces) types interfaces)
      as [passes|] eqn:Hpasses; [| done].
    injection Hws as <-. exists passes. split_and!.
    + intros fuel Hfuel. by apply (spec_passes_more_fuel _ _ _ _ _ Hpasses).
    + cbv zeta. by split.
    + pose proof (spec_passes_in_order _ _ _ _ Hpasses) as Hin_order.
      rewrite Forall_forall in Hin_order |- *. intros pass Hpass.
      destruct (Hin_order pass Hpass) as [Htypes Hinterfaces].
      split_and!; [| done..].
      rewrite Forall_forall in Hnonempty. apply Hnonempty.
      apply elem_of_map. by exists pass.
    + intros k pass Hpass. cbv zeta.
      apply (spec_passes_content types interfaces) with (fuel := length types + length interfaces)
                                                       (written := []); [| | done].
      * unfold decls in Hnodup. by rewrite map_app, !declarations_names in Hnodup.
      * by rewrite !remainingAfter_nil.
    + intros fuel data Hfuel. unfold SpecWriter.writeTypesAndInterfaces.
      cbn [mbind option_bind].
      by rewrite (spec_passes_more_fuel _ fuel _ _ _ Hpasses).
  - destruct (waves_order rootDecls HrootNodup HrootResolved HrootAcyclic)
      as (ws & Hws & Hperm & Hnonempty & Horder).
    assert (length rootDecls = length rootTypes) as Hlength.
    { unfold rootDecls, declarations. by rewrite length_map. }
    rewrite Hlength in Hws. unfold rootDecls in Hws.
    rewrite <- (meta_passes_waves _ []) in Hws.
    destruct (MetaSpecWriter.passes (length rootTypes) [] rootTypes)
      as [passes|] eqn:Hpasses; [| done].
    injection Hws as <-. exists passes. split_and!.
    + intros fuel Hfuel. by apply (meta_passes_more_fuel _ _ _ _ _ Hpasses).
    + cbv zeta. by split.
    + pose proof (meta_passes_in_order _ _ _ _ Hpasses) as Hin_order.
      rewrite Forall_forall in Hin_order |- *. intros pass Hpass.
      split; [| by apply Hin_order].
      rewrite Forall_forall in Hnonempty. intros Hnil.
      apply (Hnonempty (map MetaData.Type_.name pass.1)).
      * apply elem_of_map. by exists pass.
      * by rewrite Hnil.
    + intros k pass Hpass.
      apply (meta_passes_content rootTypes) with (fuel := length rootTypes) (written := [])
                                                (emitted := []) (passes := passes);
        [| | done].
      * unfold rootDecls in HrootNodup. by rewrite declarations_names in HrootNodup.
      * by rewrite remainingAfter_nil.
Qed.

Lemma emission_loop_respects_dependencies_witness :
  ∃ passes,
    SpecWriter.passes 5 Examples.someTypes Examples.someInterfaces = Some passes ∧
    concat (map SpecWriter.passNames passes)
      ≡ₚ map fst (declarations Examples.someTypes ++ declarations Examples.someInterfaces).
Proof.
  pose (rank := λ name : string,
          if decide (name = "uinteger") then 0
          else if decide (name = "Position") then 1
          else if decide (name = "Location") then 3 else 2).
  destruct (emission_loop_respects_dependencies Examples.someTypes Examples.someInterfaces
              Examples.someRootTypes)
    as [(passes & Hfuel & [Horder _] & _) _].
  - compute_done.
  - apply resolved_by_list. compute_done.
  - apply (acyclic_by_rank _ rank). compute_done.
  - compute_done.
  - apply resolved_by_list. compute_done.
  - apply (acyclic_by_rank _ rank). compute_done.
  - exists passes. split; [| exact Horder]. apply Hfuel. cbn. lia.
Defined.

(** * Further properties of the writers *)

(** ** When the emission loop ends *)

Lemma waves_blocked (blocking : string → Prop) (fuel : nat) :
  ∀ remaining, blockedBy blocking remaining → waves fuel remaining = None.
Proof.
  induction fuel as [|fuel IH]; intros remaining Hblocked.
  - destruct Hblocked as [(decl & d & Hin & _) _]. destruct remaining; [| done].
    by apply elem_of_nil in Hin.
  - assert (remaining ≠ []) as Hsome.
    { destruct Hblocked as [(decl & d & Hin & _) _]. intros ->. by apply elem_of_nil in Hin. }
    rewrite waves_cons by done. rewrite IH; [done |].
    destruct Hblocked as [(decl & d & Hin & Hd & Hblocking) Hall].
    assert (∀ n, n ∈ map fst (readyPart remaining) → ¬ blocking n) as Hready.
    { intros n ([n' ds] & -> & [Hempty Hn]%list_elem_of_filter)%elem_of_map Hn'.
      destruct (Hall _ Hn Hn') as (d' & Hd' & _).
      unfold isReady in Hempty. cbn in Hempty, Hd'. rewrite Hempty in Hd'.
      by apply elem_of_nil in Hd'. }
    assert (∀ decl' d', decl' ∈ remaining → d' ∈ decl'.2 → blocking d' →
              (decl'.1, QString.removeEach (map fst (readyPart remaining)) decl'.2)
                ∈ cleanupDependencies (map fst (readyPart remaining)) (blockedPart remaining)
              ∧ d' ∈ QString.removeEach (map fst (readyPart remaining)) decl'.2) as Hkept.
    { intros decl' d' Hin' Hd' Hblocking'. split.
      - unfold cleanupDependencies. apply elem_of_map. exists decl'. split; [done |].
        apply list_elem_of_filter. split; [| done].
        unfold isReady. cbn. intros Hnil. rewrite Hnil in Hd'. by apply elem_of_nil in Hd'.
      - rewrite removeEach_filter. apply list_elem_of_filter. split; [| done].
        intros Hnames. by apply (Hready d'). }
    split.
    + destruct (Hkept decl d Hin Hd Hblocking) as [Hin' Hd'].
      eexists _, d. split; [exact Hin' |]. by split.
    + intros decl' Hin' Hname. unfold cleanupDependencies in Hin'.
      apply elem_of_map in Hin' as (decl0 & -> & [_ Hin0]%list_elem_of_filter).
      cbn [fst snd withDependencies Pair_Declaration declDependencies] in *.
      destruct (Hall _ Hin0 Hname) as (d' & Hd' & Hblocking').
      exists d'. split; [| done]. by apply (Hkept decl0 d' Hin0 Hd' Hblocking').
Qed.

Lemma spec_passes_blocked (blocking : string → Prop) (types : list Data.Type_.t)
    (interfaces : list Data.Interface.t) (fuel : nat) :
  blockedBy blocking (declarations types ++ declarations interfaces) →
  SpecWriter.passes fuel types interfaces = None.
Proof.
  intros Hblocked. pose proof (spec_passes_waves fuel types interfaces) as Hwaves.
  rewrite (waves_blocked blocking) in Hwaves by done.
  by destruct (SpecWriter.passes fuel types interfaces).
Qed.

Lemma meta_passes_blocked (blocking : string → Prop) (written rootTypes : list MetaData.Type_.t)
    (fuel : nat) :
  blockedBy blocking (declarations rootTypes) →
  MetaSpecWriter.passes fuel written rootTypes = None.
Proof.
  intros Hblocked. pose proof (meta_passes_waves fuel written rootTypes) as Hwaves.
  rewrite (waves_blocked blocking) in Hwaves by done.
  by destruct (MetaSpecWriter.passes fuel written rootTypes).
Qed.

Lemma dangling_blocks (decls : list (string * list string)) (decl : string * list string)
    (d : string) :
  decl ∈ decls → d ∈ decl.2 → d ∉ map fst decls → blockedBy (λ n, n = d) decls.
Proof.
  intros Hin Hd Hdangling. split.
  - by exists decl, d.
  - intros decl' Hin' Hname. destruct Hdangling. apply elem_of_map. by exists decl'.
Qed.

Lemma cycle_blocks (decls : list (string * list string)) (name : string) :
  NoDup (map fst decls) → tc (dependsOn decls) name name →
  blockedBy (λ n, tc (dependsOn decls) n n) decls.
Proof.
  intros Hnodup Hcycle.
  assert (∀ n, tc (dependsOn decls) n n →
            ∃ ds d, (n, ds) ∈ decls ∧ d ∈ ds ∧ tc (dependsOn decls) d d) as Hnext.
  { intros n Hn. inversion Hn as [x y Hstep | x y z Hstep Hrest]; subst.
    - destruct Hstep as (ds & Hin & Hd). by exists ds, n.
    - pose proof Hstep as (ds & Hin & Hd). exists ds, y. split_and!; [done..|].
      by eapply tc_r. }
  split.
  - destruct (Hnext name Hcycle) as (ds & d & Hin & Hd & Hdd). by exists (name, ds), d.
  - intros [n ds] Hin Hn. cbn [fst snd] in *.
    destruct (Hnext n Hn) as (ds' & d & Hin' & Hd & Hdd).
    assert ((n, ds') = (n, ds)) as [= ->] by by apply (NoDup_map_injective fst decls).
    by exists d.
Qed.

(** X1: an alias or an interface that depends on a name which no alias and no
    interface bears keeps the loop from ending, whatever else the model
    holds: neither loop ends after any number of passes. *)
Theorem dangling_dependency_never_ends
    (types : list Data.Type_.t) (interfaces : list Data.Interface.t)
    (rootTypes : list MetaData.Type_.t) (decl rootDecl : string * list string)
    (d rootD : string) :
  decl ∈ declarations types ++ declarations interfaces → d ∈ decl.2 →
  d ∉ map Data.Type_.name types ++ map Data.Interface.name interfaces →
  rootDecl ∈ declarations rootTypes → rootD ∈ rootDecl.2 →
  rootD ∉ map MetaData.Type_.name rootTypes →
  (∀ fuel, SpecWriter.passes fuel types interfaces = None) ∧
  (∀ fuel written, MetaSpecWriter.passes fuel written rootTypes = None).
Proof.
  intros Hin Hd Hdangling HrootIn HrootD HrootDangling. split.
  - intros fuel. apply (spec_passes_blocked (λ n, n = d)).
    apply (dangling_blocks _ decl d); [done..|].
    by rewrite map_app, !declarations_names.
  - intros fuel written. apply (meta_passes_blocked (λ n, n = rootD)).
    apply (dangling_blocks _ rootDecl rootD); [done..|].
    by rewrite declarations_names.
Qed.

Lemma dangling_dependency_never_ends_witness :
  SpecWriter.passes 1000 Examples.someTypes (Examples.someInterfaces ++ Examples.dangling)
    = None ∧
  MetaSpecWriter.passes 1000 []
    (Examples.someRootTypes ++ [Examples.structure "A" [] [] ["Missing"]]) = None.
Proof.
  destruct (dangling_dependency_never_ends Examples.someTypes
              (Examples.someInterfaces ++ Examples.dangling)
              (Examples.someRootTypes ++ [Examples.structure "A" [] [] ["Missing"]])
              ("A", ["Missing"]) ("A", ["Missing"]) "Missing" "Missing")
    as [Hspec Hmeta]; [compute_done..|].
  split; [apply Hspec | apply Hmeta].
Defined.

(** X2: when no two aliases or interfaces share a name, the loop ends if and
    only if every dependency is the name of an alias or an interface and the
    dependency graph, self-references included, has no cycle. *)
Theorem loop_ends_iff_resolved_and_acyclic
    (types : list Data.Type_.t) (interfaces : list Data.Interface.t)
    (rootTypes : list MetaData.Type_.t) :
  let decls := declarations types ++ declarations interfaces in
  let rootDecls := declarations rootTypes in
  NoDup (map fst decls) → NoDup (map fst rootDecls) →
  ((∃ fuel passes, SpecWriter.passes fuel types interfaces = Some passes) ↔
   resolved decls ∧ acyclic (dependsOn decls)) ∧
  ((∃ fuel passes, MetaSpecWriter.passes fuel [] rootTypes = Some passes) ↔
   resolved rootDecls ∧ acyclic (dependsOn rootDecls)).
Proof.
  intros decls rootDecls Hnodup HrootNodup.
  assert (∀ l, NoDup (map fst l) →
            (∃ fuel ws, waves fuel l = Some ws) ↔ resolved l ∧ acyclic (dependsOn l)) as Hwaves.
  { intros l Hl. split.
    - intros (fuel & ws & Hws). split.
      + intros name d (ds & Hin & Hd).
        destruct (decide (d ∈ map fst l)) as [|Hdangling]; [done |].
        by rewrite (waves_blocked (λ n, n = d)) in Hws
          by by apply (dangling_blocks _ (name, ds) d).
      + intros name Hcycle.
        by rewrite (waves_blocked (λ n, tc (dependsOn l) n n)) in Hws
          by by apply (cycle_blocks _ name).
    - intros [Hresolved Hacyclic].
      destruct (waves_order l Hl Hresolved Hacyclic) as (ws & Hws & _). by exists (length l), ws. }
  split.
  - rewrite <- (Hwaves decls Hnodup). unfold decls. split.
    + intros (fuel & passes & Hpasses). exists fuel, (map SpecWriter.passNames passes).
      by rewrite <- spec_passes_waves, Hpasses.
    + intros (fuel & ws & Hws). exists fuel. rewrite <- spec_passes_waves in Hws.
      destruct (SpecWriter.passes fuel types interfaces) as [passes|]; [by exists passes | done].
  - rewrite <- (Hwaves rootDecls HrootNodup). unfold rootDecls. split.
    + intros (fuel & passes & Hpasses).
      exists fuel, (map (λ pass, map MetaData.Type_.name pass.1) passes).
      by rewrite <- (meta_passes_waves fuel []), Hpasses.
    + intros (fuel & ws & Hws). exists fuel. rewrite <- (meta_passes_waves fuel []) in Hws.
      destruct (MetaSpecWriter.passes fuel [] rootTypes) as [passes|];
        [by exists passes | done].
Qed.

Lemma loop_ends_iff_resolved_and_acyclic_witness :
  (∃ fuel passes,
     SpecWriter.passes fuel Examples.someTypes Examples.someInterfaces = Some passes) ↔
  resolved (declarations Examples.someTypes ++ declarations Examples.someInterfaces) ∧
  acyclic (dependsOn (declarations Examples.someTypes ++ declarations Examples.someInterfaces)).
Proof.
  destruct (loop_ends_iff_resolved_and_acyclic Examples.someTypes Examples.someInterfaces
              Examples.someRootTypes) as [Hspec _]; [compute_done.. |].
  exact Hspec.
Defined.

(** ** What the loop leaves behind and what the sort in front of it can change *)

Section loop_vectors.
Context {A : Type} `{DeclarationLaws A}.

Lemma cleanupDependencies_names_equiv (names names' : list string) (l : list A) :
  (∀ n, n ∈ names ↔ n ∈ names') →
  cleanupDependencies names l = cleanupDependencies names' l.
Proof.
  intros Hsame. unfold cleanupDependencies. apply map_ext. intros a. f_equal.
  rewrite !removeEach_filter. apply list_filter_iff. intros d. by rewrite Hsame.
Qed.

Lemma cleanupDependencies_Permutation (names : list string) (l l' : list A) :
  l ≡ₚ l' → cleanupDependencies names l ≡ₚ cleanupDependencies names l'.
Proof. intros Hperm. unfold cleanupDependencies. by apply Permutation_map. Qed.

Lemma readyPart_Permutation (l l' : list A) : l ≡ₚ l' → readyPart l ≡ₚ readyPart l'.
Proof. intros Hperm. unfold readyPart. by rewrite Hperm. Qed.

Lemma blockedPart_Permutation (l l' : list A) : l ≡ₚ l' → blockedPart l ≡ₚ blockedPart l'.
Proof. intros Hperm. unfold blockedPart. by rewrite Hperm. Qed.

Lemma readyPart_emptied (l : list A) : map (withDependencies []) (readyPart l) = readyPart l.
Proof.
  rewrite <- (map_id (readyPart l)) at 2. apply map_ext_in.
  intros a [Hready _]%list_elem_of_In%list_elem_of_filter.
  unfold isReady in Hready. by rewrite <- Hready, withDependencies_same.
Qed.

Lemma cleanupDependencies_emptied (names : list string) (l : list A) :
  map (withDependencies []) (cleanupDependencies names l) = map (withDependencies []) l.
Proof.
  unfold cleanupDependencies. rewrite map_map. apply map_ext. intros a.
  apply withDependencies_twice.
Qed.

Lemma ready_blocked_emptied (names : list string) (l rest : list A) :
  rest ≡ₚ map (withDependencies []) (cleanupDependencies names (blockedPart l)) →
  readyPart l ++ rest ≡ₚ map (withDependencies []) l.
Proof.
  intros ->. rewrite cleanupDependencies_emptied, <- readyPart_emptied, <- map_app.
  apply Permutation_map. apply filter_app_complement.
Qed.

End loop_vectors.

Lemma spec_passes_emptied (fuel : nat) :
  ∀ types interfaces passes,
    SpecWriter.passes fuel types interfaces = Some passes →
    passes ≫= fst ≡ₚ map (withDependencies []) types ∧
    passes ≫= snd ≡ₚ map (withDependencies []) interfaces.
Proof.
  induction fuel as [|fuel IH]; intros types interfaces passes Hpasses.
  - destruct types, interfaces; try done. by injection Hpasses as <-.
  - destruct (decide (types = [] ∧ interfaces = [])) as [[-> ->]|Hsome].
    { by injection Hpasses as <-. }
    rewrite spec_passes_unfold in Hpasses
      by (destruct types, interfaces; [by destruct Hsome | by right | by left..]).
    destruct (SpecWriter.passes fuel _ _) as [rest|] eqn:Hrest; [| done].
    injection Hpasses as <-. destruct (IH _ _ _ Hrest) as [Htypes Hinterfaces].
    cbn [mbind list_bind fst snd]. split.
    + exact (ready_blocked_emptied _ _ _ Htypes).
    + exact (ready_blocked_emptied _ _ _ Hinterfaces).
Qed.

(** X4: when [writeTypesAndInterfaces] returns, the sort in front of the loop
    having done no more than rearrange its vector, the model holds the
    aliases and the interfaces it held before, rearranged, each with an empty
    list of dependencies and otherwise as it was; notifications, requests and
    enumerations are as before. *)
Theorem emission_empties_dependencies
    (sortTypes : list Data.Type_.t → option (list Data.Type_.t))
    (sortInterfaces : list Data.Interface.t → option (list Data.Interface.t))
    (fuel : nat) (data data' : Data.t) (text : string) :
  (∀ l l', sortTypes l = Some l' → l' ≡ₚ l) →
  (∀ l l', sortInterfaces l = Some l' → l' ≡ₚ l) →
  SpecWriter.writeTypesAndInterfaces sortTypes sortInterfaces fuel data = Some (text, data') →
  Data.types data' ≡ₚ map (withDependencies []) (Data.types data) ∧
  Data.interfaces data' ≡ₚ map (withDependencies []) (Data.interfaces data) ∧
  Data.notifications data' = Data.notifications data ∧
  Data.requests data' = Data.requests data ∧
  Data.enumerations data' = Data.enumerations data.
Proof.
  intros HsortTypes HsortInterfaces Hwritten.
  unfold SpecWriter.writeTypesAndInterfaces in Hwritten.
  destruct (sortTypes (Data.types data)) as [types|] eqn:Htypes0; [| done].
  destruct (sortInterfaces (Data.interfaces data)) as [interfaces|] eqn:Hinterfaces0;
    [| done].
  cbn [mbind option_bind] in Hwritten.
  destruct (SpecWriter.passes fuel _ _) as [passes|] eqn:Hpasses; [| done].
  injection Hwritten as _ <-. cbn.
  destruct (spec_passes_emptied _ _ _ _ Hpasses) as [Htypes Hinterfaces].
  split_and!; [| | done..].
  - rewrite Htypes. apply Permutation_map. by apply HsortTypes.
  - rewrite Hinterfaces. apply Permutation_map. by apply HsortInterfaces.
Qed.

Lemma emission_empties_dependencies_witness :
  ∃ text data',
    SpecWriter.writeTypesAndInterfaces Some Some 5 Samples.someData = Some (text, data') ∧
    Data.types data' ≡ₚ map (withDependencies []) (Data.types Samples.someData) ∧
    Data.interfaces data' ≡ₚ map (withDependencies []) (Data.interfaces Samples.someData).
Proof.
  eexists _, _. split; [vm_compute; reflexivity |].
  assert (∀ (A : Type) (l l' : list A), Some l = Some l' → l' ≡ₚ l) as Hsome
    by (by intros A l l' [= <-]).
  destruct (emission_empties_dependencies Some Some 5 Samples.someData _ _
              (Hsome _) (Hsome _) eq_refl) as (Htypes & Hinterfaces & _).
  by split.
Defined.

Lemma spec_passes_Permutation (fuel : nat) :
  ∀ types types' interfaces interfaces',
    types ≡ₚ types' → interfaces ≡ₚ interfaces' →
    option_Forall2 (Forall2 (λ pass pass', pass.1 ≡ₚ pass'.1 ∧ pass.2 ≡ₚ pass'.2))
      (SpecWriter.passes fuel types interfaces) (SpecWriter.passes fuel types' interfaces').
Proof.
  induction fuel as [|fuel IH]; intros types types' interfaces interfaces' Htypes Hinterfaces.
  - destruct types, interfaces.
    + apply Permutation_nil_l in Htypes, Hinterfaces. subst. by repeat constructor.
    + destruct interfaces'; [by apply Permutation_nil_r in Hinterfaces |].
      destruct types'; constructor.
    + destruct types'; [by apply Permutation_nil_r in Htypes |]. constructor.
    + destruct types'; [by apply Permutation_nil_r in Htypes |]. constructor.
  - destruct (decide (types = [] ∧ interfaces = [])) as [[-> ->]|Hsome].
    { apply Permutation_nil_l in Htypes, Hinterfaces. subst. by repeat constructor. }
    assert (types ≠ [] ∨ interfaces ≠ []) as Hsome1
      by (destruct types, interfaces; [by destruct Hsome | by right | by left..]).
    assert (types' ≠ [] ∨ interfaces' ≠ []) as Hsome2.
    { destruct Hsome1 as [Hne|Hne]; [left | right]; intros ->;
        [apply Permutation_nil_r in Htypes | apply Permutation_nil_r in Hinterfaces]; done. }
    rewrite !spec_passes_unfold by done.
    pose proof (readyPart_Permutation _ _ Htypes) as HreadyTypes.
    pose proof (readyPart_Permutation _ _ Hinterfaces) as HreadyInterfaces.
    assert (∀ n, n ∈ map declName (readyPart types) ++ map declName (readyPart interfaces)
               ↔ n ∈ map declName (readyPart types')
                     ++ map declName (readyPart interfaces')) as Hnames.
    { intros n. rewrite !elem_of_app.
      by rewrite (Permutation_map declName HreadyTypes),
        (Permutation_map declName HreadyInterfaces). }
    rewrite (cleanupDependencies_names_equiv _ _ (blockedPart types) Hnames).
    rewrite (cleanupDependencies_names_equiv _ _ (blockedPart interfaces) Hnames).
    specialize (IH _ _ _ _
      (cleanupDependencies_Permutation
         (map declName (readyPart types') ++ map declName (readyPart interfaces')) _ _
         (blockedPart_Permutation _ _ Htypes))
      (cleanupDependencies_Permutation
         (map declName (readyPart types') ++ map declName (readyPart interfaces')) _ _
         (blockedPart_Permutation _ _ Hinterfaces))).
    destruct IH as [rest rest' Hrest|]; cbn; constructor. by constructor.
Qed.

Lemma meta_passes_Permutation (fuel : nat) :
  ∀ written written' rootTypes rootTypes',
    written ≡ₚ written' → rootTypes ≡ₚ rootTypes' →
    option_Forall2 (Forall2 (λ pass pass', pass.1 ≡ₚ pass'.1 ∧ pass.2 ≡ₚ pass'.2))
      (MetaSpecWriter.passes fuel written rootTypes)
      (MetaSpecWriter.passes fuel written' rootTypes').
Proof.
  induction fuel as [|fuel IH]; intros written written' rootTypes rootTypes' Hwritten Hroot.
  - destruct rootTypes.
    + apply Permutation_nil_l in Hroot. subst. by repeat constructor.
    + destruct rootTypes'; [by apply Permutation_nil_r in Hroot |]. constructor.
  - destruct rootTypes as [|type rootTypes].
    { apply Permutation_nil_l in Hroot. subst. by repeat constructor. }
    destruct rootTypes' as [|type' rootTypes']; [by apply Permutation_nil_r in Hroot |].
    cbn [MetaSpecWriter.passes].
    pose proof (readyPart_Permutation _ _ Hroot) as Hready.
    pose proof (blockedPart_Permutation _ _ Hroot) as Hblocked.
    assert (∀ n, n ∈ map MetaData.Type_.name (readyPart (type :: rootTypes))
               ↔ n ∈ map MetaData.Type_.name (readyPart (type' :: rootTypes'))) as Hnames.
    { intros n. by rewrite (Permutation_map MetaData.Type_.name Hready). }
    rewrite (cleanupDependencies_names_equiv _ _ (blockedPart (type :: rootTypes)) Hnames).
    assert (written ++ readyPart (type :: rootTypes)
              ≡ₚ written' ++ readyPart (type' :: rootTypes')) as Hwritten2
      by by rewrite Hwritten, Hready.
    specialize (IH _ _ _ _ Hwritten2
      (cleanupDependencies_Permutation
         (map MetaData.Type_.name (readyPart (type' :: rootTypes'))) _ _ Hblocked)).
    destruct IH as [rest rest' Hrest|]; cbn; constructor. constructor; [| done].
    cbn [fst snd]. split; [done |]. by rewrite Hwritten, Hready, Hblocked.
Qed.

(** X5: how the two vectors are arranged before the loop starts changes
    neither whether the loop ends, nor the number of passes, nor what each
    pass writes: the aliases of a pass are the same up to their order, and so
    are its interfaces. *)
Theorem arrangement_only_reorders_within_passes
    (types types' : list Data.Type_.t) (interfaces interfaces' : list Data.Interface.t)
    (rootTypes rootTypes' : list MetaData.Type_.t) (fuel : nat) :
  types ≡ₚ types' → interfaces ≡ₚ interfaces' → rootTypes ≡ₚ rootTypes' →
  option_Forall2 (Forall2 (λ pass pass', pass.1 ≡ₚ pass'.1 ∧ pass.2 ≡ₚ pass'.2))
    (SpecWriter.passes fuel types interfaces) (SpecWriter.passes fuel types' interfaces') ∧
  option_Forall2 (Forall2 (λ pass pass', pass.1 ≡ₚ pass'.1 ∧ pass.2 ≡ₚ pass'.2))
    (MetaSpecWriter.passes fuel [] rootTypes) (MetaSpecWriter.passes fuel [] rootTypes').
Proof.
  intros Htypes Hinterfaces Hroot. split.
  - by apply spec_passes_Permutation.
  - by apply meta_passes_Permutation.
Qed.

Lemma arrangement_only_reorders_within_passes_witness :
  option_Forall2 (Forall2 (λ pass pass', pass.1 ≡ₚ pass'.1 ∧ pass.2 ≡ₚ pass'.2))
    (SpecWriter.passes 5 Examples.someTypes Examples.someInterfaces)
    (SpecWriter.passes 5 (reverse Examples.someTypes) (reverse Examples.someInterfaces)).
Proof.
  apply (arrangement_only_reorders_within_passes
           Examples.someTypes (reverse Examples.someTypes)
           Examples.someInterfaces (reverse Examples.someInterfaces)
           Samples.allRootTypes (reverse Samples.allRootTypes) 5);
    symmetry; apply reverse_Permutation.
Defined.

Lemma waves_Permutation (fuel : nat) :
  ∀ decls decls' : list (string * list string),
    decls ≡ₚ decls' →
    option_Forall2 (Forall2 (≡ₚ)) (waves fuel decls) (waves fuel decls').
Proof.
  induction fuel as [|fuel IH]; intros decls decls' Hperm.
  - destruct decls.
    + apply Permutation_nil_l in Hperm. subst. by repeat constructor.
    + destruct decls'; [by apply Permutation_nil_r in Hperm |]. constructor.
  - destruct (decide (decls = [])) as [->|Hsome].
    { apply Permutation_nil_l in Hperm. subst. by repeat constructor. }
    assert (decls' ≠ []) as Hsome' by (intros ->; by apply Permutation_nil_r in Hperm).
    rewrite !waves_cons by done.
    pose proof (readyPart_Permutation _ _ Hperm) as Hready.
    assert (∀ n, n ∈ map fst (readyPart decls) ↔ n ∈ map fst (readyPart decls')) as Hnames.
    { intros n. by rewrite (Permutation_map fst Hready). }
    rewrite (cleanupDependencies_names_equiv _ _ (blockedPart decls) Hnames).
    specialize (IH _ _
      (cleanupDependencies_Permutation (map fst (readyPart decls')) _ _
         (blockedPart_Permutation _ _ Hperm))).
    destruct IH as [rest rest' Hrest|]; cbn; constructor. constructor; [| done].
    by apply Permutation_map.
Qed.

(** X3: the two writers write the same names pass by pass.  Whatever the
    order in which the sorts leave the vectors, when the vector of the
    tree-structured writer holds the aliases and the interfaces that the
    table-driven writer holds, with the same names and dependencies, the two
    loops end after the same number of passes or both go on, and every pass
    of the one writes the names that the same pass of the other writes; only
    the order within a pass can differ. *)
Theorem writers_emit_same_names_in_every_pass
    (types : list Data.Type_.t) (interfaces : list Data.Interface.t)
    (written rootTypes : list MetaData.Type_.t) (fuel : nat) :
  declarations rootTypes ≡ₚ declarations types ++ declarations interfaces →
  option_Forall2 (Forall2 (≡ₚ))
    (map SpecWriter.passNames <$> SpecWriter.passes fuel types interfaces)
    (map (λ pass, map MetaData.Type_.name pass.1)
       <$> MetaSpecWriter.passes fuel written rootTypes).
Proof.
  intros Hsame. rewrite spec_passes_waves, meta_passes_waves.
  symmetry in Hsame. by apply waves_Permutation.
Qed.

Lemma writers_emit_same_names_in_every_pass_witness :
  option_Forall2 (Forall2 (≡ₚ))
    (map SpecWriter.passNames <$> SpecWriter.passes 5 Examples.someTypes Examples.someInterfaces)
    (map (λ pass, map MetaData.Type_.name pass.1)
       <$> MetaSpecWriter.passes 5 [] (reverse Samples.allRootTypes)).
Proof.
  apply (writers_emit_same_names_in_every_pass Examples.someTypes Examples.someInterfaces []
           (reverse Samples.allRootTypes) 5).
  etrans; [apply Permutation_map, reverse_Permutation | reflexivity].
Defined.

(** ** What the clean-up leaves in the model *)

Section cleaned_declarations.
Context {A : Type} `{DeclarationLaws A}.

Lemma elem_of_cleanupDependencies (names : list string) (l : list A) (a : A) :
  a ∈ cleanupDependencies names l ↔
  ∃ a0, a0 ∈ l ∧ a = withDependencies (QString.removeEach names (declDependencies a0)) a0.
Proof.
  unfold cleanupDependencies. rewrite elem_of_map. split.
  - intros (a0 & -> & Hin). by exists a0.
  - intros (a0 & Hin & ->). by exists a0.
Qed.

Lemma cleanupDependencies_pruned (names : list string) (l : list A) (a : A) (d : string) :
  a ∈ cleanupDependencies names l → d ∈ declDependencies a → d ∉ names.
Proof.
  intros (a0 & _ & ->)%elem_of_cleanupDependencies.
  rewrite declDependencies_with, removeEach_filter. by intros [Hd _]%list_elem_of_filter.
Qed.

Lemma cleanupDependencies_name (names : list string) (l : list A) (a : A) :
  a ∈ cleanupDependencies names l → declName a ∈ map declName l.
Proof.
  intros (a0 & Hin & ->)%elem_of_cleanupDependencies. rewrite declName_with.
  apply elem_of_map. by exists a0.
Qed.

Lemma cleanupDependencies_kept (names : list string) (l : list A) (a : A) (d : string) :
  a ∈ l → d ∈ declDependencies a → d ∉ names →
  ∃ a', a' ∈ cleanupDependencies names l ∧ declName a' = declName a
        ∧ d ∈ declDependencies a'.
Proof.
  intros Hin Hd Hnames.
  exists (withDependencies (QString.removeEach names (declDependencies a)) a). split_and!.
  - apply elem_of_cleanupDependencies. by exists a.
  - apply declName_with.
  - rewrite declDependencies_with, removeEach_filter. by apply list_elem_of_filter.
Qed.

Lemma cleanupDependencies_ready (names : list string) (l : list A) (a : A) :
  a ∈ l → (∀ d, d ∈ declDependencies a → d ∈ names) →
  withDependencies [] a ∈ readyPart (cleanupDependencies names l).
Proof.
  intros Hin Hall.
  assert (QString.removeEach names (declDependencies a) = []) as Hnone.
  { rewrite removeEach_filter.
    destruct (filter _ _) as [|d ds] eqn:Hfilter; [done |].
    assert (d ∈ filter (λ x, x ∉ names) (declDependencies a)) as [Hnot Hd]%list_elem_of_filter
      by (rewrite Hfilter; left).
    destruct Hnot. by apply Hall. }
  apply list_elem_of_filter. split.
  - unfold isReady. apply declDependencies_with.
  - apply elem_of_cleanupDependencies. exists a. split; [done |]. by rewrite Hnone.
Qed.

Lemma eraseNamed_names_sublist (erased : gset string) (l : list A) :
  map declName (eraseNamed erased l) `sublist_of` map declName l.
Proof. apply (fmap_sublist declName). apply sublist_filter. Qed.

Lemma eraseListed_names_sublist (erased : list string) (l : list A) :
  map declName (eraseListed erased l) `sublist_of` map declName l.
Proof. apply (fmap_sublist declName). apply sublist_filter. Qed.

End cleaned_declarations.

(** The aliases and the interfaces that the clean-up leaves, for given names
    of the enumerations. *)
Lemma cleaned_declarations {T I : Type} `{DeclarationLaws T} `{DeclarationLaws I}
    (removeStructs removeTypes : gset string) (enumNames : list string)
    (types : list T) (interfaces : list I) :
  let interfaces1 := eraseNamed removeStructs interfaces in
  let types' :=
    cleanupDependencies enumNames
      (eraseListed (enumNames ++ map declName interfaces1)
         (eraseNamed removeTypes types)) in
  let interfaces' := cleanupDependencies enumNames interfaces1 in
  (∀ i, i ∈ interfaces' → declName i ∉ removeStructs) ∧
  (∀ t, t ∈ types' →
     (declName t ∉ removeTypes) ∧ (declName t ∉ enumNames) ∧
     (declName t ∉ map declName interfaces')) ∧
  (∀ t d, t ∈ types' → d ∈ declDependencies t → d ∉ enumNames) ∧
  (∀ i d, i ∈ interfaces' → d ∈ declDependencies i → d ∉ enumNames) ∧
  map declName types' `sublist_of` map declName types ∧
  map declName interfaces' `sublist_of` map declName interfaces.
Proof.
  intros interfaces1 types' interfaces'. split_and!.
  - intros i (i0 & [Hname _]%list_elem_of_filter & ->)%elem_of_cleanupDependencies.
    by rewrite declName_with.
  - intros t (t0 & [Hlisted [Hname _]%list_elem_of_filter]%list_elem_of_filter & ->)
             %elem_of_cleanupDependencies.
    rewrite declName_with. unfold interfaces'. rewrite cleanupDependencies_names.
    rewrite elem_of_app in Hlisted. tauto.
  - intros t d. apply cleanupDependencies_pruned.
  - intros i d. apply cleanupDependencies_pruned.
  - unfold types'. rewrite cleanupDependencies_names.
    etrans; [apply eraseListed_names_sublist | apply eraseNamed_names_sublist].
  - unfold interfaces'. rewrite cleanupDependencies_names. apply eraseNamed_names_sublist.
Qed.

(** X6: after the clean-up no interface of the vector of the model, that is,
    no top-level interface, bears one of the names of [removeStructNames], and
    no alias is named [LSPAny] or has the name of an enumeration or of a
    top-level interface that is left.  The interfaces nested in others are
    not looked at: an interface that is left is one of the model with
    nothing but its dependencies changed, so it has the children it had,
    whatever their names. *)
Theorem cleanCode_drops_reserved_and_shadowed (data : Data.t) (metaData : MetaData.t) :
  let cleaned := SpecWriter.cleanCode data in
  let metaCleaned := MetaSpecWriter.cleanCode metaData in
  (∀ i, i ∈ Data.interfaces cleaned →
     (Data.Interface.name i ∉ SpecWriter.removeStructNames) ∧
     ∃ i0, i0 ∈ Data.interfaces data ∧
           i = withDependencies (Data.Interface.dependencies i) i0 ∧
           Data.Interface.children i = Data.Interface.children i0) ∧
  (∀ t, t ∈ Data.types cleaned →
     (Data.Type_.name t ∉ SpecWriter.removeTypeNames) ∧
     (Data.Type_.name t ∉ map Data.Enumeration.name (Data.enumerations cleaned)) ∧
     (Data.Type_.name t ∉ map Data.Interface.name (Data.interfaces cleaned))) ∧
  (∀ i, i ∈ MetaData.interfaces metaCleaned →
     (MetaData.Type_.name i ∉ MetaSpecWriter.removeStructNames) ∧
     ∃ i0, i0 ∈ MetaData.interfaces metaData ∧
           i = withDependencies (MetaData.Type_.dependencies i) i0 ∧
           MetaData.Type_.items i = MetaData.Type_.items i0) ∧
  (∀ t, t ∈ MetaData.types metaCleaned →
     (MetaData.Type_.name t ∉ MetaSpecWriter.removeTypeNames) ∧
     (MetaData.Type_.name t
        ∉ map MetaData.Enumeration.name (MetaData.enumerations metaCleaned)) ∧
     (MetaData.Type_.name t ∉ map MetaData.Type_.name (MetaData.interfaces metaCleaned))).
Proof.
  intros cleaned metaCleaned.
  destruct (cleaned_declarations SpecWriter.removeStructNames SpecWriter.removeTypeNames
              (map Data.Enumeration.name (Data.enumerations cleaned))
              (Data.types data) (Data.interfaces data)) as (Hi & Ht & _).
  destruct (cleaned_declarations MetaSpecWriter.removeStructNames
              MetaSpecWriter.removeTypeNames
              (map MetaData.Enumeration.name (MetaData.enumerations metaCleaned))
              (MetaData.types metaData) (MetaData.interfaces metaData)) as (Hmi & Hmt & _).
  split_and!; [| exact Ht | | exact Hmt].
  - intros i Hin. split; [by apply Hi |].
    apply elem_of_cleanupDependencies in Hin as (i0 & [_ Hin0]%list_elem_of_filter & ->).
    exists i0. by destruct i0.
  - intros i Hin. split; [by apply Hmi |].
    apply elem_of_cleanupDependencies in Hin as (i0 & [_ Hin0]%list_elem_of_filter & ->).
    exists i0. by destruct i0.
Qed.

(** X7: after the clean-up no alias and no interface of the model lists the
    name of an enumeration of the cleaned model among its dependencies. *)
Theorem cleanCode_prunes_enumeration_names (data : Data.t) (metaData : MetaData.t) :
  let cleaned := SpecWriter.cleanCode data in
  let metaCleaned := MetaSpecWriter.cleanCode metaData in
  (∀ t d, t ∈ Data.types cleaned → d ∈ Data.Type_.dependencies t →
     d ∉ map Data.Enumeration.name (Data.enumerations cleaned)) ∧
  (∀ i d, i ∈ Data.interfaces cleaned → d ∈ Data.Interface.dependencies i →
     d ∉ map Data.Enumeration.name (Data.enumerations cleaned)) ∧
  (∀ t d, t ∈ MetaData.types metaCleaned → d ∈ MetaData.Type_.dependencies t →
     d ∉ map MetaData.Enumeration.name (MetaData.enumerations metaCleaned)) ∧
  (∀ i d, i ∈ MetaData.interfaces metaCleaned → d ∈ MetaData.Type_.dependencies i →
     d ∉ map MetaData.Enumeration.name (MetaData.enumerations metaCleaned)).
Proof.
  intros cleaned metaCleaned.
  destruct (cleaned_declarations SpecWriter.removeStructNames SpecWriter.removeTypeNames
              (map Data.Enumeration.name (Data.enumerations cleaned))
              (Data.types data) (Data.interfaces data)) as (_ & _ & Ht & Hi & _).
  destruct (cleaned_declarations MetaSpecWriter.removeStructNames
              MetaSpecWriter.removeTypeNames
              (map MetaData.Enumeration.name (MetaData.enumerations metaCleaned))
              (MetaData.types metaData) (MetaData.interfaces metaData))
    as (_ & _ & Hmt & Hmi & _).
  split_and!; [exact Ht | exact Hi | exact Hmt | exact Hmi].
Qed.

(** X8: the clean-up adds nothing and moves nothing: the names of the aliases
    and of the interfaces that are left come in the order in which the model
    had them, and the notifications and the requests are as they were. *)
Theorem cleanCode_keeps_order (data : Data.t) (metaData : MetaData.t) :
  let cleaned := SpecWriter.cleanCode data in
  let metaCleaned := MetaSpecWriter.cleanCode metaData in
  (map Data.Type_.name (Data.types cleaned) `sublist_of` map Data.Type_.name (Data.types data) ∧
   map Data.Interface.name (Data.interfaces cleaned)
     `sublist_of` map Data.Interface.name (Data.interfaces data) ∧
   Data.notifications cleaned = Data.notifications data ∧
   Data.requests cleaned = Data.requests data) ∧
  (map MetaData.Type_.name (MetaData.types metaCleaned)
     `sublist_of` map MetaData.Type_.name (MetaData.types metaData) ∧
   map MetaData.Type_.name (MetaData.interfaces metaCleaned)
     `sublist_of` map MetaData.Type_.name (MetaData.interfaces metaData) ∧
   MetaData.notifications metaCleaned = MetaData.notifications metaData ∧
   MetaData.requests metaCleaned = MetaData.requests metaData).
Proof.
  intros cleaned metaCleaned.
  destruct (cleaned_declarations SpecWriter.removeStructNames SpecWriter.removeTypeNames
              (map Data.Enumeration.name (Data.enumerations cleaned))
              (Data.types data) (Data.interfaces data)) as (_ & _ & _ & _ & Ht & Hi).
  destruct (cleaned_declarations MetaSpecWriter.removeStructNames
              MetaSpecWriter.removeTypeNames
              (map MetaData.Enumeration.name (MetaData.enumerations metaCleaned))
              (MetaData.types metaData) (MetaData.interfaces metaData))
    as (_ & _ & _ & _ & Hmt & Hmi).
  split; split_and!; [exact Ht | exact Hi | done | done | exact Hmt | exact Hmi | done | done].
Qed.

Section kept_enumerations.
Context {E : Type} (nameOf : E → string).

Lemma removeDuplicates_first (seen : gset string) (l : list E) (e : E) :
  e ∈ removeDuplicates nameOf seen l →
  (nameOf e ∉ seen) ∧ List.find (λ x, bool_decide (nameOf x = nameOf e)) l = Some e.
Proof.
  revert seen. induction l as [|a l IH]; intros seen Hin; cbn in Hin.
  - by apply elem_of_nil in Hin.
  - cbn [List.find]. case_bool_decide as Hseen.
    + destruct (IH _ Hin) as [Hnot Hfind]. split; [done |].
      rewrite bool_decide_eq_false_2; [done |]. intros Hsame. by rewrite Hsame in Hseen.
    + apply elem_of_cons in Hin as [->|Hin].
      * split; [done |]. by rewrite bool_decide_eq_true_2.
      * destruct (IH _ Hin) as [Hnot Hfind]. split; [set_solver |].
        rewrite bool_decide_eq_false_2; [done |]. set_solver.
Qed.

Lemma removeDuplicates_sublist (seen : gset string) (l : list E) :
  removeDuplicates nameOf seen l `sublist_of` l.
Proof.
  revert seen. induction l as [|a l IH]; intros seen; cbn; [done |].
  case_bool_decide; [by apply sublist_cons | by apply sublist_skip].
Qed.

End kept_enumerations.

(** X9: of the enumerations that share a name the clean-up keeps the first
    and only the first: every enumeration of the cleaned model is the cleaned
    form of the first enumeration of its name in the model, the enumerations
    that are kept come in the order in which the model had them, and every
    name of an enumeration of the model is still the name of one that is
    kept. *)
Theorem cleanCode_keeps_first_enumeration (data : Data.t) (metaData : MetaData.t) :
  (∃ kept,
     Data.enumerations (SpecWriter.cleanCode data) = map SpecWriter.cleanEnumeration kept ∧
     kept `sublist_of` Data.enumerations data ∧
     NoDup (map Data.Enumeration.name kept) ∧
     (∀ n, n ∈ map Data.Enumeration.name (Data.enumerations data) →
           n ∈ map Data.Enumeration.name kept) ∧
     (∀ e, e ∈ kept →
           List.find (λ x, bool_decide (Data.Enumeration.name x = Data.Enumeration.name e))
             (Data.enumerations data) = Some e)) ∧
  (∃ kept,
     MetaData.enumerations (MetaSpecWriter.cleanCode metaData)
       = map MetaSpecWriter.cleanEnumeration kept ∧
     kept `sublist_of` MetaData.enumerations metaData ∧
     NoDup (map MetaData.Enumeration.name kept) ∧
     (∀ n, n ∈ map MetaData.Enumeration.name (MetaData.enumerations metaData) →
           n ∈ map MetaData.Enumeration.name kept) ∧
     (∀ e, e ∈ kept →
           List.find
             (λ x, bool_decide (MetaData.Enumeration.name x = MetaData.Enumeration.name e))
             (MetaData.enumerations metaData) = Some e)).
Proof.
  split.
  - exists (removeDuplicates Data.Enumeration.name ∅ (Data.enumerations data)). split_and!.
    + done.
    + apply removeDuplicates_sublist.
    + apply removeDuplicates_NoDup.
    + intros n Hn. apply removeDuplicates_names. split; [done | apply not_elem_of_empty].
    + intros e He. by apply (removeDuplicates_first _ ∅).
  - exists (removeDuplicates MetaData.Enumeration.name ∅ (MetaData.enumerations metaData)).
    split_and!.
    + done.
    + apply removeDuplicates_sublist.
    + apply removeDuplicates_NoDup.
    + intros n Hn. apply removeDuplicates_names. split; [done | apply not_elem_of_empty].
    + intros e He. by apply (removeDuplicates_first _ ∅).
Qed.

Lemma toUpper_not_lower (c : ascii) :
  ¬ (97 ≤ nat_of_ascii (QString.toUpper c) ≤ 122).
Proof.
  unfold QString.toUpper.
  destruct (97 <=? nat_of_ascii c)%nat eqn:Hlow; cbn [andb];
    [destruct (nat_of_ascii c <=? 122)%nat eqn:Hhigh |].
  - apply Nat.leb_le in Hlow, Hhigh. rewrite nat_ascii_embedding by lia. lia.
  - apply Nat.leb_gt in Hhigh. lia.
  - apply Nat.leb_gt in Hlow. lia.
Qed.

Lemma upperFirst_not_lower (s rest : string) (c : ascii) :
  QString.upperFirst s = String c rest → ¬ (97 ≤ nat_of_ascii c ≤ 122).
Proof. destruct s as [|a s]; [done |]. intros [= <- _]. apply toUpper_not_lower. Qed.

Lemma removeChar_containsChar (c : ascii) (s : string) :
  QString.containsChar c (QString.removeChar c s) = false.
Proof.
  induction s as [|a s IH]; [done |]. cbn.
  destruct (Ascii.eqb a c) eqn:Hc; [done |]. cbn. by rewrite Hc.
Qed.

(** X10: after the clean-up no name of a value of an enumeration starts with
    one of the letters [a] to [z], no enumeration is named [InitializeError],
    and in the table-driven model the value of a string enumeration holds no
    single quote while the value of any other enumeration does not start with
    one of the letters [a] to [z]. *)
Theorem cleanCode_capitalises_values (data : Data.t) (metaData : MetaData.t) :
  (∀ e, e ∈ Data.enumerations (SpecWriter.cleanCode data) →
     Data.Enumeration.name e ≠ "InitializeError" ∧
     ∀ v, v ∈ Data.Enumeration.values e →
       (∀ c rest, Data.Value.name v = String c rest → ¬ (97 ≤ nat_of_ascii c ≤ 122)) ∧
       (if Data.Enumeration.isString e
        then QString.containsChar "'" (Data.Value.value v) = false
        else ∀ c rest, Data.Value.value v = String c rest →
                       ¬ (97 ≤ nat_of_ascii c ≤ 122))) ∧
  (∀ e, e ∈ MetaData.enumerations (MetaSpecWriter.cleanCode metaData) →
     MetaData.Enumeration.name e ≠ "InitializeError" ∧
     ∀ v, v ∈ MetaData.Enumeration.values e →
       (∀ c rest, MetaData.Value.name v = String c rest →
                  ¬ (97 ≤ nat_of_ascii c ≤ 122)) ∧
       (MetaData.Enumeration.type e ≠ MetaData.String_ →
        ∀ c rest, MetaData.Value.value v = String c rest →
                  ¬ (97 ≤ nat_of_ascii c ≤ 122))).
Proof.
  split.
  - intros e (e0 & -> & _)%elem_of_map. split.
    + cbn. rewrite special_name. by case_decide.
    + intros v (v0 & -> & _)%elem_of_map. cbn. split.
      * intros c rest. apply upperFirst_not_lower.
      * destruct (Data.Enumeration.isString e0).
        -- apply removeChar_containsChar.
        -- intros c rest. apply upperFirst_not_lower.
  - intros e (e0 & -> & _)%elem_of_map. split.
    + cbn. pose proof (special_name (MetaData.Enumeration.name e0)) as Hname.
      unfold MetaSpecWriter.specialEnumNames. unfold SpecWriter.specialEnumNames in Hname.
      rewrite Hname. by case_decide.
    + intros v (v0 & -> & _)%elem_of_map. cbn. split.
      * intros c rest. apply upperFirst_not_lower.
      * intros Htype c rest. rewrite bool_decide_eq_true_2 by done.
        apply upperFirst_not_lower.
Qed.

Lemma special_name_fixed (name other : string) :
  other ≠ "InitializeErrorCodes" →
  default name (SpecWriter.specialEnumNames !! name) = other → name = other.
Proof. rewrite special_name. case_decide; [by intros ? <- | done]. Qed.

Lemma writeTypesAndInterfaces_blocked
    (sortTypes : list Data.Type_.t → option (list Data.Type_.t))
    (sortInterfaces : list Data.Interface.t → option (list Data.Interface.t))
    (data : Data.t) (i : Data.Interface.t) (d : string) (fuel : nat) :
  (∀ l l', sortTypes l = Some l' → l' ≡ₚ l) →
  (∀ l l', sortInterfaces l = Some l' → l' ≡ₚ l) →
  i ∈ Data.interfaces data → d ∈ Data.Interface.dependencies i →
  d ∉ map Data.Type_.name (Data.types data) →
  d ∉ map Data.Interface.name (Data.interfaces data) →
  SpecWriter.writeTypesAndInterfaces sortTypes sortInterfaces fuel data = None.
Proof.
  intros HsortTypes HsortInterfaces Hi Hd Htypes Hinterfaces.
  unfold SpecWriter.writeTypesAndInterfaces.
  destruct (sortTypes (Data.types data)) as [types|] eqn:Hsorted; [| done].
  destruct (sortInterfaces (Data.interfaces data)) as [interfaces|] eqn:HsortedInterfaces;
    [| done].
  apply HsortTypes in Hsorted. apply HsortInterfaces in HsortedInterfaces.
  cbn [mbind option_bind]. rewrite (spec_passes_blocked (λ n, n = d)); [done |].
  apply (dangling_blocks _ (Data.Interface.name i, Data.Interface.dependencies i) d).
  - apply elem_of_app. right. apply elem_of_map. exists i. split; [done |].
    by rewrite HsortedInterfaces.
  - done.
  - rewrite map_app, !declarations_names.
    rewrite (Permutation_map declName Hsorted).
    rewrite (Permutation_map declName HsortedInterfaces).
    rewrite elem_of_app. tauto.
Qed.

Lemma meta_writeTypesAndInterfaces_blocked
    (sortRootTypes : list MetaData.Type_.t → option (list MetaData.Type_.t))
    (data : MetaData.t) (i : MetaData.Type_.t) (d : string) (fuel : nat) :
  (∀ l l', sortRootTypes l = Some l' → l' ≡ₚ l) →
  i ∈ MetaData.interfaces data → d ∈ MetaData.Type_.dependencies i →
  d ∉ map MetaData.Type_.name (MetaData.types data) →
  d ∉ map MetaData.Type_.name (MetaData.interfaces data) →
  MetaSpecWriter.writeTypesAndInterfaces sortRootTypes fuel data = None.
Proof.
  intros Hsort Hi Hd Htypes Hinterfaces.
  unfold MetaSpecWriter.writeTypesAndInterfaces.
  destruct (sortRootTypes _) as [rootTypes|] eqn:Hsorted; [| done].
  apply Hsort in Hsorted.
  cbn [mbind option_bind]. rewrite (meta_passes_blocked (λ n, n = d)); [done |].
  apply (dangling_blocks _ (MetaData.Type_.name i, MetaData.Type_.dependencies i) d).
  - apply elem_of_map. exists i. split; [done |].
    rewrite Hsorted. apply elem_of_app. by right.
  - done.
  - rewrite declarations_names. rewrite (Permutation_map declName Hsorted).
    rewrite map_app, elem_of_app. tauto.
Qed.

(** X11: the clean-up removes the alias [LSPAny] but not the dependencies on
    it.  When an interface that the clean-up keeps depends on [LSPAny], and
    neither an enumeration nor an interface has that name, [saveCode] opens
    the file of the declarations and then never returns: the sort in front of
    the loop does not return, or the loop goes on for ever, however the sort
    has arranged the vectors. *)
Theorem dependency_on_removed_alias_never_ends
    (LSP_SOURCE_PATH : string) (dev : Device)
    (sortTypes : list Data.Type_.t → option (list Data.Type_.t))
    (sortInterfaces : list Data.Interface.t → option (list Data.Interface.t))
    (sortRootTypes : list MetaData.Type_.t → option (list MetaData.Type_.t))
    (files : gmap string string) (data : Data.t) (metaData : MetaData.t)
    (i : Data.Interface.t) (metaI : MetaData.Type_.t) :
  (∀ l l', sortTypes l = Some l' → l' ≡ₚ l) →
  (∀ l l', sortInterfaces l = Some l' → l' ≡ₚ l) →
  (∀ l l', sortRootTypes l = Some l' → l' ≡ₚ l) →
  canOpen dev (LSP_SOURCE_PATH +:+ "/types.h") = true →
  i ∈ Data.interfaces data →
  Data.Interface.name i ∉ SpecWriter.removeStructNames →
  "LSPAny" ∈ Data.Interface.dependencies i →
  "LSPAny" ∉ map Data.Enumeration.name (Data.enumerations data) →
  "LSPAny" ∉ map Data.Interface.name (Data.interfaces data) →
  metaI ∈ MetaData.interfaces metaData →
  MetaData.Type_.name metaI ∉ MetaSpecWriter.removeStructNames →
  "LSPAny" ∈ MetaData.Type_.dependencies metaI →
  "LSPAny" ∉ map MetaData.Enumeration.name (MetaData.enumerations metaData) →
  "LSPAny" ∉ map MetaData.Type_.name (MetaData.interfaces metaData) →
  (∀ fuel, SpecWriter.saveCode LSP_SOURCE_PATH dev sortTypes sortInterfaces fuel files data
           = None) ∧
  (∀ fuel, MetaSpecWriter.saveCode LSP_SOURCE_PATH dev sortRootTypes fuel files metaData
           = None).
Proof.
  intros HsortTypes HsortInterfaces HsortRoot Hopen Hi Hkept Hd Henum Hinterface
    HmetaI HmetaKept HmetaD HmetaEnum HmetaInterface.
  split; intros fuel.
  - unfold SpecWriter.saveCode. cbv zeta. rewrite Hopen. cbn [negb].
    assert ("LSPAny" ∉ map Data.Enumeration.name
                         (Data.enumerations (SpecWriter.cleanCode data))) as Hcleaned.
    { intros (e & Hname & (e0 & -> & He0)%elem_of_map)%elem_of_map. cbn in Hname.
      symmetry in Hname. apply special_name_fixed in Hname; [| done].
      destruct Henum. rewrite <- Hname.
      apply (removeDuplicates_names Data.Enumeration.name ∅). apply elem_of_map. by exists e0. }
    destruct (cleanupDependencies_kept
                (map Data.Enumeration.name (Data.enumerations (SpecWriter.cleanCode data)))
                (eraseNamed SpecWriter.removeStructNames (Data.interfaces data)) i "LSPAny")
      as (i' & Hi' & Hname' & Hd'); [by apply list_elem_of_filter | done | done |].
    destruct (cleaned_declarations SpecWriter.removeStructNames SpecWriter.removeTypeNames
                (map Data.Enumeration.name (Data.enumerations (SpecWriter.cleanCode data)))
                (Data.types data) (Data.interfaces data)) as (_ & Ht & _ & _ & _ & Hsub).
    rewrite (writeTypesAndInterfaces_blocked sortTypes sortInterfaces
               (SpecWriter.cleanCode data) i' "LSPAny"); [done | done | done | | done | |].
    + exact Hi'.
    + intros (t & Hname & Hin)%elem_of_map. destruct (Ht t Hin) as (Hany & _).
      apply Hany. cbn. rewrite <- Hname. by apply elem_of_singleton.
    + intros Hin. destruct Hinterface. by eapply elem_of_sublist.
  - unfold MetaSpecWriter.saveCode. cbv zeta. rewrite Hopen. cbn [negb].
    assert ("LSPAny" ∉ map MetaData.Enumeration.name
                         (MetaData.enumerations (MetaSpecWriter.cleanCode metaData)))
      as Hcleaned.
    { intros (e & Hname & (e0 & -> & He0)%elem_of_map)%elem_of_map. cbn in Hname.
      symmetry in Hname. apply special_name_fixed in Hname; [| done].
      destruct HmetaEnum. rewrite <- Hname.
      apply (removeDuplicates_names MetaData.Enumeration.name ∅). apply elem_of_map.
      by exists e0. }
    destruct (cleanupDependencies_kept
                (map MetaData.Enumeration.name
                   (MetaData.enumerations (MetaSpecWriter.cleanCode metaData)))
                (eraseNamed MetaSpecWriter.removeStructNames (MetaData.interfaces metaData))
                metaI "LSPAny")
      as (i' & Hi' & Hname' & Hd'); [by apply list_elem_of_filter | done | done |].
    destruct (cleaned_declarations MetaSpecWriter.removeStructNames
                MetaSpecWriter.removeTypeNames
                (map MetaData.Enumeration.name
                   (MetaData.enumerations (MetaSpecWriter.cleanCode metaData)))
                (MetaData.types metaData) (MetaData.interfaces metaData))
      as (_ & Ht & _ & _ & _ & Hsub).
    rewrite (meta_writeTypesAndInterfaces_blocked sortRootTypes
               (MetaSpecWriter.cleanCode metaData) i' "LSPAny"); [done | done | | done | |].
    + exact Hi'.
    + intros (t & Hname & Hin)%elem_of_map. destruct (Ht t Hin) as (Hany & _).
      apply Hany. cbn. rewrite <- Hname. by apply elem_of_singleton.
    + intros Hin. destruct HmetaInterface. by eapply elem_of_sublist.
Qed.

Lemma dependency_on_removed_alias_never_ends_witness :
  SpecWriter.saveCode "lsp" Examples.openDevice Some Some 1000 ∅ Samples.dependsOnAny
    = None ∧
  MetaSpecWriter.saveCode "lsp" Examples.openDevice Some 1000 ∅ Samples.metaDependsOnAny
    = None.
Proof.
  assert (∀ (A : Type) (l l' : list A), Some l = Some l' → l' ≡ₚ l) as Hsome
    by (by intros A l l' [= <-]).
  destruct (dependency_on_removed_alias_never_ends "lsp" Examples.openDevice Some Some Some ∅
              Samples.dependsOnAny Samples.metaDependsOnAny
              (Examples.empty "Holder" ["LSPAny"])
              (Examples.structure "Holder" [] [] ["LSPAny"])) as [Hspec Hmeta];
    [apply Hsome | apply Hsome | apply Hsome | reflexivity | first [by left | compute_done]..|].
  split; [apply Hspec | apply Hmeta].
Defined.

Lemma cleaned_enumeration_names {E : Type} (nameOf : E → string) (clean : E → E)
    (enumerations : list E) (d : string) :
  (∀ e, nameOf (clean e) = default (nameOf e) (SpecWriter.specialEnumNames !! nameOf e)) →
  d ∈ map nameOf enumerations → d ≠ "InitializeError" →
  d ∈ map nameOf (map clean (removeDuplicates nameOf ∅ enumerations)).
Proof.
  intros Hclean Hd Hother.
  apply (removeDuplicates_members nameOf) in Hd.
  apply elem_of_map in Hd as (e & -> & He).
  apply elem_of_map. exists (clean e). split.
  - rewrite Hclean, special_name. by rewrite decide_False.
  - apply elem_of_map. by exists e.
Qed.

(** X12: an interface that the clean-up keeps and that depends on nothing but
    enumerations, none of them named [InitializeError], waits for nothing:
    whenever the loop ends, its first pass wrote the interface, however the
    vectors are arranged when the loop starts. *)
Theorem enumeration_dependencies_do_not_block
    (arrangedTypes : list Data.Type_.t) (arrangedInterfaces : list Data.Interface.t)
    (arrangedRootTypes : list MetaData.Type_.t)
    (data : Data.t) (metaData : MetaData.t) (i : Data.Interface.t) (metaI : MetaData.Type_.t) :
  arrangedInterfaces ≡ₚ Data.interfaces (SpecWriter.cleanCode data) →
  arrangedRootTypes ≡ₚ MetaData.types (MetaSpecWriter.cleanCode metaData)
                       ++ MetaData.interfaces (MetaSpecWriter.cleanCode metaData) →
  i ∈ Data.interfaces data →
  Data.Interface.name i ∉ SpecWriter.removeStructNames →
  (∀ d, d ∈ Data.Interface.dependencies i →
        d ∈ map Data.Enumeration.name (Data.enumerations data) ∧ d ≠ "InitializeError") →
  metaI ∈ MetaData.interfaces metaData →
  MetaData.Type_.name metaI ∉ MetaSpecWriter.removeStructNames →
  (∀ d, d ∈ MetaData.Type_.dependencies metaI →
        d ∈ map MetaData.Enumeration.name (MetaData.enumerations metaData)
        ∧ d ≠ "InitializeError") →
  (∀ fuel passes,
     SpecWriter.passes fuel arrangedTypes arrangedInterfaces = Some passes →
     ∃ first rest, passes = first :: rest ∧ withDependencies [] i ∈ first.2) ∧
  (∀ fuel passes,
     MetaSpecWriter.passes fuel [] arrangedRootTypes = Some passes →
     ∃ first rest, passes = first :: rest ∧ withDependencies [] metaI ∈ first.1).
Proof.
  intros HarrangedInterfaces HarrangedRoot Hi Hkept Hdeps HmetaI HmetaKept HmetaDeps. split.
  - intros fuel passes Hpasses.
    assert (withDependencies [] i ∈ readyPart arrangedInterfaces) as Hready.
    { rewrite (readyPart_Permutation _ _ HarrangedInterfaces).
      apply cleanupDependencies_ready; [by apply list_elem_of_filter |].
      intros d Hd. destruct (Hdeps d Hd) as [Henum Hother].
      by apply (cleaned_enumeration_names Data.Enumeration.name). }
    assert (arrangedInterfaces ≠ []) as Hsome.
    { intros Hnil. rewrite Hnil in Hready. by apply elem_of_nil in Hready. }
    destruct fuel as [|fuel].
    { cbn in Hpasses. by destruct arrangedTypes, arrangedInterfaces. }
    rewrite spec_passes_unfold in Hpasses by by right.
    destruct (SpecWriter.passes fuel _ _) as [rest|]; [| done].
    injection Hpasses as <-. by eexists _, rest.
  - intros fuel passes Hpasses.
    assert (withDependencies [] metaI ∈ readyPart arrangedRootTypes) as Hready.
    { rewrite (readyPart_Permutation _ _ HarrangedRoot).
      unfold readyPart. rewrite filter_app. apply elem_of_app. right.
      apply cleanupDependencies_ready; [by apply list_elem_of_filter |].
      intros d Hd. destruct (HmetaDeps d Hd) as [Henum Hother].
      by apply (cleaned_enumeration_names MetaData.Enumeration.name). }
    destruct arrangedRootTypes as [|type rootTypes].
    { by apply elem_of_nil in Hready. }
    destruct fuel as [|fuel]; [done |]. cbn [MetaSpecWriter.passes] in Hpasses.
    destruct (MetaSpecWriter.passes fuel _ _) as [rest|]; [| done].
    injection Hpasses as <-. by eexists _, rest.
Qed.

Lemma enumeration_dependencies_do_not_block_witness :
  ∃ first rest,
    SpecWriter.passes 5 (Data.types (SpecWriter.cleanCode Examples.endToEnd))
      (Data.interfaces (SpecWriter.cleanCode Examples.endToEnd)) = Some (first :: rest) ∧
    withDependencies [] (hd (Examples.empty EmptyString []) (Data.interfaces Examples.endToEnd))
      ∈ first.2.
Proof.
  eexists _, _. split; [vm_compute; reflexivity |].
  refine (let H := enumeration_dependencies_do_not_block
                     (Data.types (SpecWriter.cleanCode Examples.endToEnd))
                     (Data.interfaces (SpecWriter.cleanCode Examples.endToEnd))
                     (MetaData.types (MetaSpecWriter.cleanCode Examples.metaEndToEnd)
                      ++ MetaData.interfaces (MetaSpecWriter.cleanCode Examples.metaEndToEnd))
                     Examples.endToEnd Examples.metaEndToEnd
                     (hd (Examples.empty EmptyString []) (Data.interfaces Examples.endToEnd))
                     (hd (Examples.structure EmptyString [] [] [])
                        (MetaData.interfaces Examples.metaEndToEnd))
                     (reflexivity _) (reflexivity _) _ _ _ _ _ _ in _).
  destruct H as [Hspec _].
  destruct (Hspec 5 _ eq_refl) as (first & rest & [= <- <-] & Hin). exact Hin.
  Unshelve.
  all: first [by left | compute_done | idtac].
  all: intros d Hd; apply list_elem_of_singleton in Hd as ->; split; [by left | done].
Defined.

(** ** The names derived from the methods *)

Lemma containsChar_app (c : ascii) (a b : string) :
  QString.containsChar c (a +:+ b) = QString.containsChar c a || QString.containsChar c b.
Proof.
  induction a as [|x a IH]; [done |].
  rewrite append_String. cbn. by rewrite IH, orb_assoc.
Qed.

Lemma split_pieces (sep : ascii) (s : string) :
  Forall (λ piece, QString.containsChar sep piece = false) (QString.split sep s).
Proof.
  induction s as [|a s IH]; cbn.
  - by constructor.
  - destruct (Ascii.eqb a sep) eqn:Ha; [by constructor |].
    destruct (QString.split sep s) as [|w ws]; [by repeat constructor; cbn; rewrite Ha |].
    inversion IH as [|? ? Hw Hws]; subst. constructor; [| done]. cbn. by rewrite Ha.
Qed.

Lemma split_not_nil (sep : ascii) (s : string) : QString.split sep s ≠ [].
Proof.
  destruct s as [|a s]; cbn; [done |].
  destruct (Ascii.eqb a sep); [done |]. by destruct (QString.split sep s).
Qed.

Lemma toUpper_slash (a : ascii) :
  Ascii.eqb (QString.toUpper a) "/" = Ascii.eqb a "/".
Proof. destruct a as [[] [] [] [] [] [] [] []]; reflexivity. Qed.

Lemma upperFirst_slash (s : string) :
  QString.containsChar "/" (QString.upperFirst s) = QString.containsChar "/" s.
Proof. destruct s as [|a s]; [done |]. cbn. by rewrite toUpper_slash. Qed.

Lemma appendAll_cons {A} (f : A → string) (x : A) (l : list A) :
  QString.appendAll f (x :: l) = f x +:+ QString.appendAll f l.
Proof. reflexivity. Qed.

Lemma appendAll_containsChar {A} (c : ascii) (f : A → string) (l : list A) :
  Forall (λ x, QString.containsChar c (f x) = false) l →
  QString.containsChar c (QString.appendAll f l) = false.
Proof.
  induction 1 as [|x l Hx Hl IH]; [done |].
  by rewrite appendAll_cons, containsChar_app, Hx, IH.
Qed.

(** X13: the name derived from a method holds no [/], whatever the method
    is. *)
Theorem methodToName_has_no_slash (method : string) :
  QString.containsChar "/" (Patterns.methodToName method) = false.
Proof.
  unfold Patterns.methodToName. apply appendAll_containsChar.
  pose proof (split_pieces "/" method) as Hpieces.
  assert (∀ l, Forall (λ piece, QString.containsChar "/" piece = false) l →
               Forall (λ x, QString.containsChar "/" (QString.upperFirst x) = false) l) as Hup.
  { intros l Hl. eapply Forall_impl; [exact Hl |]. intros piece. by rewrite upperFirst_slash. }
  destruct (QString.split "/" method) as [|first others]; [by constructor |].
  case_bool_decide; apply Hup; [by inversion Hpieces | done].
Qed.

Lemma split_prefixed (first rest : string) :
  QString.containsChar "/" first = false →
  QString.split "/" (first +:+ String "/" rest) = first :: QString.split "/" rest.
Proof.
  induction first as [|a first IH]; intros Hfirst; [done |].
  cbn in Hfirst. apply orb_false_iff in Hfirst as [Ha Hfirst].
  rewrite append_String. cbn [QString.split]. by rewrite Ha, IH.
Qed.

(** X14: a first piece [$], [window] or [client] leaves no trace in the name:
    the methods that differ in such a first piece only are given the same
    name, and it is the name of the rest of the method when the rest does not
    start with such a piece itself.  Only the first piece is looked at. *)
Theorem methodToName_drops_reserved_prefix (prefix rest : string) :
  prefix = "$" ∨ prefix = "window" ∨ prefix = "client" →
  Patterns.methodToName (prefix +:+ String "/" rest)
    = QString.appendAll QString.upperFirst (QString.split "/" rest) ∧
  (∀ first, head (QString.split "/" rest) = Some first →
            first ≠ "$" → first ≠ "window" → first ≠ "client" →
            Patterns.methodToName (prefix +:+ String "/" rest) = Patterns.methodToName rest).
Proof.
  intros Hprefix.
  assert (Patterns.methodToName (prefix +:+ String "/" rest)
            = QString.appendAll QString.upperFirst (QString.split "/" rest)) as Hname.
  { unfold Patterns.methodToName. rewrite split_prefixed by by destruct Hprefix as [->|[->| ->]].
    by rewrite bool_decide_eq_true_2. }
  split; [done |]. intros first Hhead Hdollar Hwindow Hclient. rewrite Hname.
  unfold Patterns.methodToName. destruct (QString.split "/" rest) as [|first' others]; [done |].
  injection Hhead as ->. rewrite bool_decide_eq_false_2; [done |]. tauto.
Qed.

Lemma methodToName_drops_reserved_prefix_witness :
  Patterns.methodToName "window/showMessage" = "ShowMessage" ∧
  Patterns.methodToName "window/showMessage" = Patterns.methodToName "showMessage".
Proof.
  destruct (methodToName_drops_reserved_prefix "window" "showMessage") as [Hname Hrest];
    [by right; left |].
  split; [exact Hname |]. by apply (Hrest "showMessage").
Defined.

(** ** The enumerations *)

(** X15: only the string enumerations are given a binding: the text of
    [writeJsonEnums] is the text for the string enumerations alone, and it is
    empty when there is none. *)
Theorem writeJsonEnums_skips_numeric
    (enumerations : list Data.Enumeration.t) (metaEnumerations : list MetaData.Enumeration.t) :
  SpecWriter.writeJsonEnums enumerations
    = SpecWriter.writeJsonEnums
        (filter (λ e, Data.Enumeration.isString e = true) enumerations) ∧
  MetaSpecWriter.writeJsonEnums metaEnumerations
    = MetaSpecWriter.writeJsonEnums
        (filter (λ e, MetaData.Enumeration.type e = MetaData.String_) metaEnumerations) ∧
  (Forall (λ e, Data.Enumeration.isString e = false) enumerations →
   SpecWriter.writeJsonEnums enumerations = EmptyString) ∧
  (Forall (λ e, MetaData.Enumeration.type e ≠ MetaData.String_) metaEnumerations →
   MetaSpecWriter.writeJsonEnums metaEnumerations = EmptyString).
Proof.
  split_and!.
  - induction enumerations as [|e l IH]; [done |].
    rewrite filter_cons. unfold SpecWriter.writeJsonEnums in *. rewrite appendAll_cons.
    destruct (Data.Enumeration.isString e) eqn:He.
    + rewrite decide_True by done. by rewrite appendAll_cons, He, IH.
    + rewrite decide_False by done. by rewrite <- IH.
  - induction metaEnumerations as [|e l IH]; [done |].
    rewrite filter_cons. unfold MetaSpecWriter.writeJsonEnums in *.
    rewrite appendAll_cons. case_bool_decide as He.
    + rewrite decide_True by done. by rewrite appendAll_cons, bool_decide_eq_true_2, IH.
    + rewrite decide_False by done. by rewrite <- IH.
  - induction 1 as [|e l He Hl IH]; [done |].
    unfold SpecWriter.writeJsonEnums in *. by rewrite appendAll_cons, He, IH.
  - induction 1 as [|e l He Hl IH]; [done |].
    unfold MetaSpecWriter.writeJsonEnums in *.
    by rewrite appendAll_cons, bool_decide_eq_false_2, IH.
Qed.

Lemma appendAll_map {A B} (f : B → string) (g : A → string) (h : A → B) (l : list A) :
  (∀ x, f (h x) = g x) → QString.appendAll f (map h l) = QString.appendAll g l.
Proof.
  intros Hsame. induction l as [|x l IH]; [done |].
  cbn [map]. by rewrite !appendAll_cons, Hsame, IH.
Qed.

(** X16: the declaration of a string enumeration does not show the values
    of its enumerators: whatever the values are changed to, the text of
    [writeEnums] is the same. *)
Theorem writeEnums_hides_string_values (change : string → string)
    (enumerations : list Data.Enumeration.t) (metaEnumerations : list MetaData.Enumeration.t) :
  SpecWriter.writeEnums
    (map (λ e,
       if Data.Enumeration.isString e
       then Data.Enumeration.mk (Data.Enumeration.name e) (Data.Enumeration.comment e) true
              (map (λ v, Data.Value.mk (Data.Value.name v) (change (Data.Value.value v))
                           (Data.Value.comment v))
                 (Data.Enumeration.values e))
       else e) enumerations)
    = SpecWriter.writeEnums enumerations ∧
  MetaSpecWriter.writeEnums
    (map (λ e,
       if bool_decide (MetaData.Enumeration.type e = MetaData.String_)
       then MetaData.Enumeration.mk (MetaData.Enumeration.name e)
              (MetaData.Enumeration.documentation e) MetaData.String_
              (map (λ v, MetaData.Value.mk (MetaData.Value.name v)
                           (change (MetaData.Value.value v)) (MetaData.Value.documentation v))
                 (MetaData.Enumeration.values e))
       else e) metaEnumerations)
    = MetaSpecWriter.writeEnums metaEnumerations.
Proof.
  split.
  - unfold SpecWriter.writeEnums. apply appendAll_map. intros e.
    destruct (Data.Enumeration.isString e) eqn:He; [| by rewrite He].
    cbn. f_equal. by apply appendAll_map.
  - unfold MetaSpecWriter.writeEnums. apply appendAll_map. intros e.
    case_bool_decide as He; [| by rewrite bool_decide_eq_false_2].
    cbn. f_equal. rewrite bool_decide_eq_true_2 by done. by apply appendAll_map.
Qed.

(** ** When the recursion through [extends] returns *)

Section flatten_returns.
Context {I : Type} (nameOf : I → string) (ownNames : I → list string)
  (baseNames : I → list string) (interfaces : list I).

Lemma Flattened_accessible (interface : I) (properties : list string) :
  Flattened nameOf ownNames baseNames interfaces interface properties →
  Acc (flip (extendsTo nameOf baseNames interfaces)) interface.
Proof.
  revert interface properties.
  apply (Flattened_mutual nameOf ownNames baseNames interfaces
    (λ interface _, Acc (flip (extendsTo nameOf baseNames interfaces)) interface)
    (λ extends _, ∀ extend base,
       extend ∈ extends → findInterface nameOf interfaces extend = Some base →
       Acc (flip (extendsTo nameOf baseNames interfaces)) base)).
  - intros interface inherited _ Hbases. constructor.
    intros base (extend & Hextend & Hfind). by eapply Hbases.
  - intros extend base Hin. by apply elem_of_nil in Hin.
  - intros extend extends inherited Hnone _ IH extend' base [->|Hin]%elem_of_cons Hfind.
    + by rewrite Hnone in Hfind.
    + by eapply IH.
  - intros extend extends base properties inherited Hsome _ Hbase _ IH extend' base'
      [->|Hin]%elem_of_cons Hfind.
    + rewrite Hsome in Hfind. by injection Hfind as <-.
    + by eapply IH.
Qed.

Lemma accessible_Flattened (interface : I) :
  Acc (flip (extendsTo nameOf baseNames interfaces)) interface →
  ∃ properties, Flattened nameOf ownNames baseNames interfaces interface properties.
Proof.
  induction 1 as [interface _ IH].
  assert (∀ extends, (∀ extend, extend ∈ extends → extend ∈ baseNames interface) →
            ∃ inherited,
              FlattenedBases nameOf ownNames baseNames interfaces extends inherited) as Hbases.
  { induction extends as [|extend extends IHe]; intros Hsub.
    - exists []. constructor.
    - destruct IHe as [inherited Hinherited]; [intros e He; apply Hsub; by right |].
      destruct (findInterface nameOf interfaces extend) as [base|] eqn:Hfind.
      + destruct (IH base) as [properties Hproperties].
        { exists extend. split; [apply Hsub; by left | done]. }
        exists (properties ++ inherited). by eapply flattened_present.
      + exists inherited. by apply flattened_absent. }
  destruct (Hbases (baseNames interface)) as [inherited Hinherited]; [done |].
  eexists. by constructor.
Qed.

Lemma flatten_returns_iff (interface : I) :
  (∃ fuel properties,
     flatten nameOf ownNames baseNames interfaces fuel interface = Some properties) ↔
  Acc (flip (extendsTo nameOf baseNames interfaces)) interface.
Proof.
  split.
  - intros (fuel & properties & Hflat). eapply Flattened_accessible. by eapply flatten_sound.
  - intros [properties Hflat]%accessible_Flattened.
    apply flatten_Flattened in Hflat as [fuel Hflat]. by exists fuel, properties.
Qed.

Lemma accessible_no_cycle (interface : I) :
  Acc (flip (extendsTo nameOf baseNames interfaces)) interface →
  ¬ tc (extendsTo nameOf baseNames interfaces) interface interface.
Proof.
  induction 1 as [interface _ IH]. intros Hcycle.
  inversion Hcycle as [? ? Hstep | ? base ? Hstep Hrest]; subst.
  - by apply (IH interface); [| apply tc_once].
  - apply (IH base); [done |]. by eapply tc_r.
Qed.

Lemma accessible_reachable (interface base : I) :
  rtc (extendsTo nameOf baseNames interfaces) interface base →
  Acc (flip (extendsTo nameOf baseNames interfaces)) interface →
  Acc (flip (extendsTo nameOf baseNames interfaces)) base.
Proof.
  induction 1 as [|interface next base Hstep _ IH]; [done |].
  intros Hacc. apply IH. by apply (Acc_inv Hacc).
Qed.

Lemma flatten_cycle (interface base : I) (fuel : nat) :
  rtc (extendsTo nameOf baseNames interfaces) interface base →
  tc (extendsTo nameOf baseNames interfaces) base base →
  flatten nameOf ownNames baseNames interfaces fuel interface = None.
Proof.
  intros Hreach Hcycle.
  destruct (flatten nameOf ownNames baseNames interfaces fuel interface)
    as [properties|] eqn:Hflat; [| done].
  destruct (accessible_no_cycle base); [| done].
  apply (accessible_reachable interface); [done |].
  apply flatten_returns_iff. by exists fuel, properties.
Qed.

End flatten_returns.

(** X17: [interfaceProperties] returns for an interface exactly when no
    chain of bases that starts from it goes on for ever: when the interface is
    accessible for the relation that leads from an interface to the bases the
    look-up finds for it. *)
Theorem interfaceProperties_returns_iff_well_founded
    (interfaces : list Data.Interface.t) (interface : Data.Interface.t)
    (metaInterfaces : list MetaData.Type_.t) (metaInterface : MetaData.Type_.t) :
  ((∃ fuel properties,
      SpecWriter.interfaceProperties fuel interface interfaces = Some properties) ↔
   Acc (flip (specExtendsTo interfaces)) interface) ∧
  ((∃ fuel properties,
      MetaSpecWriter.interfaceProperties fuel metaInterface metaInterfaces = Some properties) ↔
   Acc (flip (metaExtendsTo metaInterfaces)) metaInterface).
Proof.
  split.
  - unfold specExtendsTo.
    rewrite <- (flatten_returns_iff Data.Interface.name specOwnNames).
    by setoid_rewrite spec_interfaceProperties_flatten.
  - unfold metaExtendsTo.
    rewrite <- (flatten_returns_iff MetaData.Type_.name metaOwnNames).
    by setoid_rewrite meta_interfaceProperties_flatten.
Qed.

(** X18: an interface from which the bases lead into a cycle, as one that
    extends itself, is never flattened: [interfaceProperties] does not return
    for it, and neither does [writeJsonInterface] unless the interface is one
    of its exceptions. *)
Theorem cyclic_extends_never_returns
    (interfaces : list Data.Interface.t) (interface base : Data.Interface.t)
    (metaInterfaces : list MetaData.Type_.t) (metaInterface metaBase : MetaData.Type_.t) :
  rtc (specExtendsTo interfaces) interface base →
  tc (specExtendsTo interfaces) base base →
  rtc (metaExtendsTo metaInterfaces) metaInterface metaBase →
  tc (metaExtendsTo metaInterfaces) metaBase metaBase →
  (∀ fuel, SpecWriter.interfaceProperties fuel interface interfaces = None) ∧
  (∀ fuel, MetaSpecWriter.interfaceProperties fuel metaInterface metaInterfaces = None) ∧
  (Data.Interface.name interface ∉ SpecWriter.writeJsonInterface_exceptions →
   ∀ fuel parent, SpecWriter.writeJsonInterface fuel interfaces interface parent = None) ∧
  (QString.removeChar "?" (MetaData.Type_.name metaInterface)
     ∉ MetaSpecWriter.writeJsonInterface_exceptions →
   ∀ fuel parent,
     MetaSpecWriter.writeJsonInterface fuel metaInterfaces metaInterface parent = None).
Proof.
  intros Hreach Hcycle HmetaReach HmetaCycle.
  assert (∀ fuel, SpecWriter.interfaceProperties fuel interface interfaces = None) as Hspec.
  { intros fuel. rewrite spec_interfaceProperties_flatten.
    by apply (flatten_cycle _ _ _ _ interface base). }
  assert (∀ fuel, MetaSpecWriter.interfaceProperties fuel metaInterface metaInterfaces = None)
    as Hmeta.
  { intros fuel. rewrite meta_interfaceProperties_flatten.
    by apply (flatten_cycle _ _ _ _ metaInterface metaBase). }
  split_and!; [done | done | |].
  - intros Hname fuel parent. rewrite spec_writeJsonInterface_unfold. cbv zeta.
    by rewrite bool_decide_eq_false_2, Hspec.
  - intros Hname fuel parent. rewrite meta_writeJsonInterface_unfold. cbv zeta.
    by rewrite bool_decide_eq_false_2, Hmeta.
Qed.

Lemma cyclic_extends_never_returns_witness :
  SpecWriter.interfaceProperties 1000 Samples.selfExtending [Samples.selfExtending] = None ∧
  MetaSpecWriter.interfaceProperties 1000 Samples.metaSelfExtending
    [Samples.metaSelfExtending] = None.
Proof.
  destruct (cyclic_extends_never_returns
              [Samples.selfExtending] Samples.selfExtending Samples.selfExtending
              [Samples.metaSelfExtending] Samples.metaSelfExtending Samples.metaSelfExtending)
    as (Hspec & Hmeta & _).
  - apply rtc_refl.
  - apply tc_once. exists "Node". split; [by left | reflexivity].
  - apply rtc_refl.
  - apply tc_once. exists "Node". split; [by left | reflexivity].
  - split; [apply Hspec | apply Hmeta].
Defined.

(** ** The files *)

(** X19: a writer of an artifact changes no file but the one it opens, and
    what it leaves in that file does not depend on what any file held before:
    the notifications and the requests each go to their own file, the
    declarations and the bindings to the two files of [saveCode]. *)
Theorem writers_touch_only_their_files
    (path other : string) (dev : Device) (files files' : gmap string string)
    (data : Data.t) (metaData : MetaData.t) :
  (other ≠ path +:+ "/notifications.h" →
   (SpecWriter.saveNotifications path dev files data).2 !! other = files !! other ∧
   (MetaSpecWriter.saveNotifications path dev files metaData).2 !! other = files !! other) ∧
  (other ≠ path +:+ "/requests.h" →
   (SpecWriter.saveRequests path dev files data).2 !! other = files !! other ∧
   (MetaSpecWriter.saveRequests path dev files metaData).2 !! other = files !! other) ∧
  (canOpen dev (path +:+ "/notifications.h") = true →
   (SpecWriter.saveNotifications path dev files data).2 !! (path +:+ "/notifications.h")
     = (SpecWriter.saveNotifications path dev files' data).2 !! (path +:+ "/notifications.h") ∧
   (MetaSpecWriter.saveNotifications path dev files metaData).2 !! (path +:+ "/notifications.h")
     = (MetaSpecWriter.saveNotifications path dev files' metaData).2
         !! (path +:+ "/notifications.h")) ∧
  (canOpen dev (path +:+ "/requests.h") = true →
   (SpecWriter.saveRequests path dev files data).2 !! (path +:+ "/requests.h")
     = (SpecWriter.saveRequests path dev files' data).2 !! (path +:+ "/requests.h") ∧
   (MetaSpecWriter.saveRequests path dev files metaData).2 !! (path +:+ "/requests.h")
     = (MetaSpecWriter.saveRequests path dev files' metaData).2 !! (path +:+ "/requests.h")) ∧
  (other ≠ path +:+ "/types.h" → other ≠ path +:+ "/types_json.h" →
   ∀ sortTypes sortInterfaces sortRootTypes fuel,
     (∀ outcome,
        SpecWriter.saveCode path dev sortTypes sortInterfaces fuel files data = Some outcome →
        outcome.1.2 !! other = files !! other) ∧
     (∀ outcome,
        MetaSpecWriter.saveCode path dev sortRootTypes fuel files metaData = Some outcome →
        outcome.2 !! other = files !! other)) ∧
  (canOpen dev (path +:+ "/types.h") = true →
   canOpen dev (path +:+ "/types_json.h") = true →
   ∀ sortTypes sortInterfaces sortRootTypes fuel,
     (∀ outcome,
        SpecWriter.saveCode path dev sortTypes sortInterfaces fuel files data = Some outcome →
        ∃ outcome',
          SpecWriter.saveCode path dev sortTypes sortInterfaces fuel files' data
            = Some outcome' ∧
          outcome'.1.2 !! (path +:+ "/types.h") = outcome.1.2 !! (path +:+ "/types.h") ∧
          outcome'.1.2 !! (path +:+ "/types_json.h")
            = outcome.1.2 !! (path +:+ "/types_json.h")) ∧
     (∀ outcome,
        MetaSpecWriter.saveCode path dev sortRootTypes fuel files metaData = Some outcome →
        ∃ outcome',
          MetaSpecWriter.saveCode path dev sortRootTypes fuel files' metaData
            = Some outcome' ∧
          outcome'.2 !! (path +:+ "/types.h") = outcome.2 !! (path +:+ "/types.h") ∧
          outcome'.2 !! (path +:+ "/types_json.h")
            = outcome.2 !! (path +:+ "/types_json.h"))).
Proof.
  assert (path +:+ "/types.h" ≠ path +:+ "/types_json.h") as Hdistinct.
  { intros H. apply (inj (String.append path)) in H. discriminate H. }
  unfold SpecWriter.saveNotifications, MetaSpecWriter.saveNotifications,
    SpecWriter.saveRequests, MetaSpecWriter.saveRequests, SpecWriter.saveCode,
    MetaSpecWriter.saveCode, streamTo, openTruncate.
  split_and!.
  - intros Hother.
    destruct (canOpen dev _); cbn [negb snd]; by rewrite ?lookup_insert_ne.
  - intros Hother.
    destruct (canOpen dev _); cbn [negb snd]; by rewrite ?lookup_insert_ne.
  - intros ->. cbn [negb snd]. by rewrite !lookup_insert_eq.
  - intros ->. cbn [negb snd]. by rewrite !lookup_insert_eq.
  - intros Htypes Hjson sortTypes sortInterfaces sortRootTypes fuel. split.
    + intros outcome.
      destruct (canOpen dev (path +:+ "/types.h")); cbn [negb]; [| by intros [= <-]].
      destruct (SpecWriter.writeTypesAndInterfaces _ _ _ _) as [[written data']|];
        cbn [mbind option_bind]; [| done].
      destruct (canOpen dev (path +:+ "/types_json.h")); cbn [negb].
      * destruct (foldr _ _ _); cbn [mbind option_bind]; [| done].
        intros [= <-]. cbn [fst snd]. by rewrite !lookup_insert_ne.
      * intros [= <-]. cbn [fst snd]. by rewrite !lookup_insert_ne.
    + intros outcome.
      destruct (canOpen dev (path +:+ "/types.h")); cbn [negb]; [| by intros [= <-]].
      destruct (MetaSpecWriter.writeTypesAndInterfaces _ _ _) as [written|];
        cbn [mbind option_bind]; [| done].
      destruct (canOpen dev (path +:+ "/types_json.h")); cbn [negb].
      * destruct (foldr _ _ _); cbn [mbind option_bind]; [| done].
        intros [= <-]. cbn [fst snd]. by rewrite !lookup_insert_ne.
      * intros [= <-]. cbn [fst snd]. by rewrite !lookup_insert_ne.
  - intros -> -> sortTypes sortInterfaces sortRootTypes fuel. cbn [negb]. split.
    + intros outcome.
      destruct (SpecWriter.writeTypesAndInterfaces _ _ _ _) as [[written data']|];
        cbn [mbind option_bind]; [| done].
      destruct (foldr _ _ _); cbn [mbind option_bind]; [| done].
      intros [= <-]. eexists. split; [done |]. cbn [fst snd].
      by rewrite !lookup_insert_eq, !(lookup_insert_ne _ (path +:+ "/types_json.h")),
        !lookup_insert_eq.
    + intros outcome.
      destruct (MetaSpecWriter.writeTypesAndInterfaces _ _ _) as [written|];
        cbn [mbind option_bind]; [| done].
      destruct (foldr _ _ _); cbn [mbind option_bind]; [| done].
      intros [= <-]. eexists. split; [done |]. cbn [fst snd].
      by rewrite !lookup_insert_eq, !(lookup_insert_ne _ (path +:+ "/types_json.h")),
        !lookup_insert_eq.
Qed.

(** ** The names of the fields and the names in the bindings *)

Lemma removeChar_absent (c : ascii) (s : string) :
  QString.containsChar c s = false → QString.removeChar c s = s.
Proof.
  induction s as [|a s IH]; [done |]. cbn.
  intros [Ha Hs]%orb_false_iff. by rewrite Ha, IH.
Qed.

Lemma append_EmptyString (s : string) : EmptyString +:+ s = s.
Proof. reflexivity. Qed.

Lemma removeChar_marked (c : ascii) (s : string) :
  QString.containsChar c s = false →
  QString.removeChar c (s +:+ String c EmptyString) = s.
Proof.
  induction s as [|a s IH].
  - intros _. change (QString.removeChar c (String c EmptyString) = EmptyString).
    cbn. by rewrite Ascii.eqb_refl.
  - cbn. intros [Ha Hs]%orb_false_iff. rewrite append_String. cbn. by rewrite Ha, IH.
Qed.

Lemma containsChar_marked (c : ascii) (s : string) :
  QString.containsChar c (s +:+ String c EmptyString) = true.
Proof.
  rewrite containsChar_app. cbn. rewrite Ascii.eqb_refl. by destruct (QString.containsChar c s).
Qed.

Lemma prefix_marked (c : ascii) (pat s : string) :
  QString.containsChar c pat = false →
  String.prefix pat (s +:+ String c EmptyString) = String.prefix pat s.
Proof.
  revert s. induction pat as [|p pat IH]; intros s Hpat; [by destruct s |].
  cbn in Hpat. apply orb_false_iff in Hpat as [Hp Hpat].
  destruct s as [|a s].
  - rewrite append_EmptyString. cbn.
    destruct (ascii_dec p c) as [->|]; [| done]. by rewrite Ascii.eqb_refl in Hp.
  - rewrite append_String. cbn. destruct (ascii_dec p a); [by apply IH | done].
Qed.

Lemma prefix_length (pat s : string) :
  String.prefix pat s = true → String.length pat ≤ String.length s.
Proof.
  revert s. induction pat as [|p pat IH]; intros s; [cbn; lia |].
  destruct s as [|a s]; [done |]. cbn. destruct (ascii_dec p a); [| done].
  intros Hprefix%IH. lia.
Qed.

Lemma removeFrom_marked (c : ascii) (pat : string) :
  pat ≠ EmptyString → QString.containsChar c pat = false →
  ∀ s skip, skip ≤ String.length s →
    QString.removeFrom pat skip (s +:+ String c EmptyString)
    = QString.removeFrom pat skip s +:+ String c EmptyString.
Proof.
  intros Hpat Hc. induction s as [|a s IH]; intros skip Hskip.
  - cbn in Hskip. assert (skip = 0) as -> by lia. rewrite append_EmptyString.
    destruct pat as [|p pat]; [done |]. cbn.
    cbn in Hc. apply orb_false_iff in Hc as [Hp _].
    destruct (ascii_dec p c) as [->|]; [| done]. by rewrite Ascii.eqb_refl in Hp.
  - rewrite append_String. cbn [QString.removeFrom]. destruct skip as [|skip].
    + rewrite <- append_String, prefix_marked by done.
      destruct (String.prefix pat (String a s)) eqn:Hprefix.
      * apply IH. apply prefix_length in Hprefix. cbn in Hprefix. lia.
      * by rewrite IH, append_String by lia.
    + apply IH. cbn in Hskip. lia.
Qed.

Lemma removeFrom_containsChar (c : ascii) (pat : string) :
  ∀ s skip, QString.containsChar c s = false →
            QString.containsChar c (QString.removeFrom pat skip s) = false.
Proof.
  induction s as [|a s IH]; intros skip; [done |].
  cbn [QString.containsChar]. intros [Ha Hs]%orb_false_iff. cbn [QString.removeFrom].
  destruct skip as [|skip]; [| by apply IH].
  destruct (String.prefix pat (String a s)); [by apply IH |].
  cbn [QString.containsChar]. by rewrite Ha, IH.
Qed.

(** The name of the field and the name in the binding, for a name that holds
    the marker [?] at its end or not at all. *)
Lemma field_name_binding_name (name : string) :
  (∃ plain, QString.containsChar "?" plain = false ∧
            (name = plain ∨ name = plain +:+ "?")) →
  QString.removeChar "?" (QString.remove "readonly " name)
    = QString.remove "readonly " (QString.removeChar "?" name) ∧
  (QString.containsChar "?" name = false →
   QString.remove "readonly " name
     = QString.remove "readonly " (QString.removeChar "?" name)).
Proof.
  intros (plain & Hplain & [->| ->]).
  - rewrite (removeChar_absent _ plain) by done. split; [| done].
    apply removeChar_absent. by apply removeFrom_containsChar.
  - split; [| by rewrite containsChar_marked].
    rewrite removeChar_marked by done. unfold QString.remove.
    rewrite (removeFrom_marked "?"); [| done | done | lia].
    apply removeChar_marked. by apply removeFrom_containsChar.
Qed.

(** X20: the fields of a structure are named as its binding names them.
    In the table-driven writer this holds of a property whose name has the
    marker [?] at its end or not at all: the text of the property is the text
    of its kind of field with the name that [interfaceProperties] lists for
    it.  In the tree-structured writer it holds of every property. *)
Theorem fields_are_named_as_bindings
    (interface : Data.Interface.t) (rootTypes : list MetaData.Type_.t)
    (metaInterface : MetaData.Type_.t) :
  Forall (λ property,
            ∃ plain, QString.containsChar "?" plain = false ∧
                     (Data.Property.name property = plain ∨
                      Data.Property.name property = plain +:+ "?"))
    (Data.Interface.properties interface) →
  Forall2 (λ property binding,
             let comment := Data.Property.comment property in
             let dataType := Data.Property.dataType property in
             SpecWriter.writeProperty property (Data.Interface.name interface) =
             if bool_decide (dataType = Data.Interface.name interface)
             then Patterns.uniquePtrField comment dataType binding
             else if QString.containsChar "?" (Data.Property.name property)
             then Patterns.optionalField comment dataType binding
             else if QString.startsWith "'" dataType
             then Patterns.constStringField comment binding
                    (QString.replaceChar "'" "034" dataType)
             else Patterns.plainField comment dataType binding)
    (Data.Interface.properties interface) (specOwnNames interface) ∧
  Forall2 (λ property binding,
             let rendered :=
               MetaSpecWriter.writeProperty rootTypes property
                 (MetaData.Type_.name metaInterface) in
             rendered.1 =
             MetaSpecWriter.propertyText
               (bool_decide (MetaData.Type_.value property = MetaData.Type_.name metaInterface))
               (QString.containsChar "?" (MetaData.Type_.name property))
               (bool_decide (MetaData.Type_.kind property = MetaData.StringLiteral))
               (MetaData.Type_.documentation rendered.2) (MetaData.Type_.value rendered.2)
               binding)
    (filter (λ property, MetaData.Type_.is_interface property = false)
       (MetaData.Type_.items metaInterface))
    (metaOwnNames metaInterface).
Proof.
  intros Hnames. split.
  - unfold specOwnNames. induction Hnames as [|property properties Hname _ IH];
      constructor; [| done].
    cbv zeta. unfold SpecWriter.writeProperty.
    destruct (field_name_binding_name _ Hname) as [Hmarked Hplain].
    rewrite Hmarked.
    destruct (bool_decide _); [done |].
    destruct (QString.containsChar "?" (Data.Property.name property)); [done |].
    by rewrite Hplain.
  - unfold metaOwnNames.
    induction (filter _ (MetaData.Type_.items metaInterface)) as [|property properties IH];
      constructor; [| done].
    cbv zeta. rewrite meta_writeProperty_unfold. cbv zeta.
    assert (∀ isPtr isConstString documentation value,
              MetaSpecWriter.propertyText isPtr
                (QString.containsChar "?" (MetaData.Type_.name property)) isConstString
                documentation value (MetaData.Type_.name property) =
              MetaSpecWriter.propertyText isPtr
                (QString.containsChar "?" (MetaData.Type_.name property)) isConstString
                documentation value (QString.removeChar "?" (MetaData.Type_.name property)))
      as Hsame.
    { intros isPtr isConstString documentation value. unfold MetaSpecWriter.propertyText.
      rewrite removeChar_idempotent.
      destruct (QString.containsChar "?" (MetaData.Type_.name property)) eqn:Hmarker; [done |].
      by rewrite removeChar_absent. }
    destruct (MetaData.Type_.kind property); cbn [fst snd]; try apply Hsame.
    destruct (MetaSpecWriter.documentItems _ _ _ _). apply Hsame.
Qed.

Lemma fields_are_named_as_bindings_witness :
  Forall2 (λ property binding,
             let comment := Data.Property.comment property in
             let dataType := Data.Property.dataType property in
             SpecWriter.writeProperty property "SelectionRange" =
             if bool_decide (dataType = "SelectionRange")
             then Patterns.uniquePtrField comment dataType binding
             else if QString.containsChar "?" (Data.Property.name property)
             then Patterns.optionalField comment dataType binding
             else if QString.startsWith "'" dataType
             then Patterns.constStringField comment binding
                    (QString.replaceChar "'" "034" dataType)
             else Patterns.plainField comment dataType binding)
    [Examples.rangeProperty; Examples.parentProperty] ["range"; "parent"].
Proof.
  apply (fields_are_named_as_bindings Examples.selectionRange [] Examples.metaSelectionRange).
  repeat constructor.
  - exists "range". split; [reflexivity | by left].
  - exists "parent". split; [reflexivity | by right].
Defined.

(** ** String literals with items *)

Lemma documentItems_appendAll (rootTypes : list MetaData.Type_.t) (interface : string)
    (items : list MetaData.Type_.t) (documentation : string) :
  MetaSpecWriter.documentItems rootTypes interface items documentation =
  (documentation
     +:+ QString.appendAll (λ item, (MetaSpecWriter.writeProperty rootTypes item interface).1)
           items,
   map (λ item, (MetaSpecWriter.writeProperty rootTypes item interface).2) items).
Proof.
  revert documentation. induction items as [|item items IH]; intros documentation.
  - cbn [MetaSpecWriter.documentItems map]. f_equal.
    induction documentation as [|a d IHd]; [done |]. by rewrite append_String, <- IHd.
  - cbn [MetaSpecWriter.documentItems map]. rewrite appendAll_cons. cbn beta.
    destruct (MetaSpecWriter.writeProperty rootTypes item interface) as [text item'].
    rewrite IH. cbn [fst snd]. by rewrite append_assoc.
Qed.

(** X21: a string literal with items gets no field per item: the text of
    every item, rendered as a property of the same interface, is appended, in
    the order of the items, to the documentation of the literal, which
    keeps its value; the text of the literal is rendered with the
    documentation so extended. *)
Theorem literal_documents_its_items
    (rootTypes : list MetaData.Type_.t) (property : MetaData.Type_.t) (interface : string) :
  MetaData.Type_.kind property = MetaData.StringLiteral →
  let rendered := MetaSpecWriter.writeProperty rootTypes property interface in
  MetaData.Type_.documentation rendered.2 =
    MetaData.Type_.documentation property
    +:+ QString.appendAll
          (λ item, (MetaSpecWriter.writeProperty rootTypes item interface).1)
          (MetaData.Type_.items property) ∧
  MetaData.Type_.items rendered.2 =
    map (λ item, (MetaSpecWriter.writeProperty rootTypes item interface).2)
      (MetaData.Type_.items property) ∧
  MetaData.Type_.value rendered.2 = MetaData.Type_.value property ∧
  rendered.1 =
    MetaSpecWriter.propertyText
      (bool_decide (MetaData.Type_.value property = interface))
      (QString.containsChar "?" (MetaData.Type_.name property)) true
      (MetaData.Type_.documentation rendered.2) (MetaData.Type_.value property)
      (MetaData.Type_.name property).
Proof.
  intros Hkind rendered. unfold rendered.
  rewrite meta_writeProperty_unfold, Hkind, documentItems_appendAll. cbv zeta.
  cbn [fst snd MetaData.Type_.documentation MetaData.Type_.items MetaData.Type_.value].
  split_and!; reflexivity.
Qed.

Lemma literal_documents_its_items_witness :
  MetaData.Type_.documentation
    (MetaSpecWriter.writeProperty [] Samples.literalWithItems "Owner").2
  = "static inline const std::string  = " +:+ Patterns.dq +:+ "create" +:+ Patterns.dq
    +:+ ";" +:+ QString.nl
    +:+ ("static inline const std::string  = " +:+ Patterns.dq +:+ "rename" +:+ Patterns.dq
         +:+ ";" +:+ QString.nl).
Proof.
  destruct (literal_documents_its_items [] Samples.literalWithItems "Owner" eq_refl)
    as (Hdocumentation & _).
  rewrite Hdocumentation. reflexivity.
Defined.

(** ** Text ranges *)

Lemma pretty_N_char_no (c : ascii) (n : N) :
  c = ","%char ∨ c = "}"%char → Ascii.eqb (pretty_N_char n) c = false.
Proof. intros [->| ->]; unfold pretty_N_char; by repeat case_match. Qed.

Lemma pretty_N_go_no (c : ascii) (n : N) (s : string) :
  c = ","%char ∨ c = "}"%char →
  QString.containsChar c (pretty_N_go n s) = QString.containsChar c s.
Proof.
  intros Hc. revert s. induction (N.lt_wf_0 n) as [n _ IH]. intros s.
  destruct (decide (n = 0)%N) as [->|Hn]; [by rewrite pretty_N_go_0 |].
  rewrite pretty_N_go_step by lia. rewrite IH by (apply N.div_lt; lia).
  cbn. by rewrite pretty_N_char_no.
Qed.

Lemma pretty_Z_no (c : ascii) (z : Z) :
  c = ","%char ∨ c = "}"%char → QString.containsChar c (pretty z) = false.
Proof.
  intros Hc.
  assert (∀ p : positive, QString.containsChar c (pretty p) = false) as Hpositive.
  { intros p. unfold pretty, pretty_positive, pretty, pretty_N.
    rewrite decide_False by done. by rewrite pretty_N_go_no. }
  destruct z as [|p|p]; unfold pretty, pretty_Z.
  - by destruct Hc as [->| ->].
  - apply Hpositive.
  - rewrite containsChar_app. fold (pretty p). rewrite Hpositive.
    by destruct Hc as [->| ->].
Qed.

Lemma append_marker_inj (c : ascii) (a a' r r' : string) :
  QString.containsChar c a = false → QString.containsChar c a' = false →
  a +:+ String c r = a' +:+ String c r' → a = a' ∧ r = r'.
Proof.
  revert a'. induction a as [|x a IH]; intros [|x' a'] Ha Ha' Hsame.
  - by injection Hsame as ->.
  - injection Hsame as -> _. cbn in Ha'. by rewrite Ascii.eqb_refl in Ha'.
  - injection Hsame as -> _. cbn in Ha. by rewrite Ascii.eqb_refl in Ha.
  - injection Hsame as -> Hsame. cbn in Ha, Ha'.
    apply orb_false_iff in Ha as [_ Ha]. apply orb_false_iff in Ha' as [_ Ha'].
    destruct (IH a' Ha Ha' Hsame) as [-> ->]. done.
Qed.

(** X22: the text of a range tells the range: two ranges with the same text
    have the same start and the same end. *)
Theorem TextRange_toString_injective (lhs rhs : TextRange.t) :
  TextRange.toString lhs = TextRange.toString rhs → lhs = rhs.
Proof.
  destruct lhs as [s e], rhs as [s' e']. unfold TextRange.toString. cbn.
  intros Hsame. injection Hsame as Hsame.
  apply (append_marker_inj ",") in Hsame as [Hstart Hsame];
    [| apply pretty_Z_no; by left..].
  injection Hsame as Hsame.
  apply (append_marker_inj "}") in Hsame as [Hend _]; [| apply pretty_Z_no; by right..].
  by apply (inj pretty) in Hstart as ->, Hend as ->.
Qed.

Lemma TextRange_toString_injective_witness :
  TextRange.mk 3 12 = TextRange.mk (1 + 2) (3 * 4).
Proof. apply TextRange_toString_injective. reflexivity. Defined.

(** X23: the defaulted comparison orders the ranges by their start and,
    among those with the same start, by their end: two ranges compare equal
    exactly when they are the same range, a range is less than another
    exactly when that one is greater than it, and less than is transitive. *)
Theorem TextRange_compare_is_total_order (a b c : TextRange.t) :
  (TextRange.compare a b = Eq ↔ a = b) ∧
  TextRange.compare b a = CompOpp (TextRange.compare a b) ∧
  (TextRange.compare a b = Lt → TextRange.compare b c = Lt → TextRange.compare a c = Lt) ∧
  (TextRange.compare a b = Lt ↔
   (TextRange.start a < TextRange.start b)%Z ∨
   (TextRange.start a = TextRange.start b ∧ (TextRange.end_ a < TextRange.end_ b)%Z)).
Proof.
  destruct a as [sa ea], b as [sb eb], c as [sc ec]. unfold TextRange.compare. cbn.
  split_and!.
  - destruct (Z.compare_spec sa sb), (Z.compare_spec ea eb); split; try done;
      try (intros [= -> ->]; lia). by subst.
  - rewrite (Z.compare_antisym sa sb), (Z.compare_antisym ea eb).
    by destruct (sa ?= sb)%Z.
  - destruct (Z.compare_spec sa sb), (Z.compare_spec sb sc), (Z.compare_spec sa sc);
      try done; try lia.
    all: destruct (Z.compare_spec ea eb), (Z.compare_spec eb ec), (Z.compare_spec ea ec);
      try done; try lia.
  - destruct (Z.compare_spec sa sb), (Z.compare_spec ea eb); split; try done;
      try lia; try (intros _; lia).
Qed.

(** ** No pass later than needed *)

Lemma cleanup_dependsOn (names : list string) (l : list (string * list string))
    (name dependency : string) :
  dependsOn (cleanupDependencies names (blockedPart l)) name dependency →
  dependsOn l name dependency.
Proof.
  intros (ds & Hin & Hd).
  apply elem_of_cleanupDependencies in Hin as ([n0 ds0] & [_ Hin0]%list_elem_of_filter & Hsame).
  cbn in Hsame. injection Hsame as -> ->.
  rewrite removeEach_filter in Hd. apply list_elem_of_filter in Hd as [_ Hd].
  by exists ds0.
Qed.

Lemma waves_released (fuel : nat) :
  ∀ remaining ws k w w',
    waves fuel remaining = Some ws → ws !! k = Some w → ws !! S k = Some w' →
    ∀ name, name ∈ w' → ∃ dependency, dependency ∈ w ∧ dependsOn remaining name dependency.
Proof.
  induction fuel as [|fuel IH]; intros remaining ws k w w' Hws Hw Hw' name Hname.
  - destruct remaining; [| done]. injection Hws as <-. done.
  - destruct (decide (remaining = [])) as [->|Hsome].
    { injection Hws as <-. done. }
    rewrite waves_cons in Hws by done.
    destruct (waves fuel _) as [rest|] eqn:Hrest; [| done]. injection Hws as <-.
    destruct k as [|k].
    + injection Hw as <-. cbn in Hw'.
      set (names := map fst (readyPart remaining)) in *.
      destruct (decide (cleanupDependencies names (blockedPart remaining) = []))
        as [Hnil|Hmore].
      { rewrite Hnil, waves_nil in Hrest. injection Hrest as <-. done. }
      destruct fuel as [|fuel]; [by destruct (cleanupDependencies _ _) |].
      rewrite waves_cons in Hrest by done.
      destruct (waves fuel _) as [rest'|]; [| done]. injection Hrest as <-.
      injection Hw' as <-.
      apply elem_of_map in Hname as ([n ds] & -> & [Hready Hin]%list_elem_of_filter).
      apply elem_of_cleanupDependencies in Hin
        as ([n0 ds0] & [Hblocked Hin0]%list_elem_of_filter & Hsame).
      cbn in Hsame. injection Hsame as -> ->.
      unfold isReady in Hready, Hblocked. cbn in Hready, Hblocked.
      destruct ds0 as [|d ds0]; [done |].
      exists d. split; [| exists (d :: ds0); split; [done | by left]].
      destruct (decide (d ∈ names)) as [|Hnot]; [done |].
      rewrite removeEach_filter, filter_cons, decide_True in Hready by done. done.
    + cbn in Hw, Hw'.
      destruct (IH _ _ _ _ _ Hrest Hw Hw' name Hname) as (dependency & Hd & Hdep).
      exists dependency. split; [done |]. by eapply cleanup_dependsOn.
Qed.

(** X24: no alias and no interface is written later than it can be: what a
    pass after the first writes depends on something that the pass just
    before it wrote. *)
Theorem passes_release_as_early_as_possible
    (types : list Data.Type_.t) (interfaces : list Data.Interface.t)
    (rootTypes written : list MetaData.Type_.t) (fuel k : nat) :
  (∀ passes pass next,
     SpecWriter.passes fuel types interfaces = Some passes →
     passes !! k = Some pass → passes !! S k = Some next →
     ∀ name, name ∈ SpecWriter.passNames next →
       ∃ dependency,
         dependency ∈ SpecWriter.passNames pass ∧
         dependsOn (declarations types ++ declarations interfaces) name dependency) ∧
  (∀ passes pass next,
     MetaSpecWriter.passes fuel written rootTypes = Some passes →
     passes !! k = Some pass → passes !! S k = Some next →
     ∀ name, name ∈ map MetaData.Type_.name next.1 →
       ∃ dependency,
         dependency ∈ map MetaData.Type_.name pass.1 ∧
         dependsOn (declarations rootTypes) name dependency).
Proof.
  split.
  - intros passes pass next Hpasses Hpass Hnext name Hname.
    pose proof (spec_passes_waves fuel types interfaces) as Hwaves.
    rewrite Hpasses in Hwaves. cbn in Hwaves. symmetry in Hwaves.
    apply (waves_released fuel _ _ k (SpecWriter.passNames pass) (SpecWriter.passNames next)
             Hwaves); [| | done].
    + by rewrite list_lookup_fmap, Hpass.
    + by rewrite list_lookup_fmap, Hnext.
  - intros passes pass next Hpasses Hpass Hnext name Hname.
    pose proof (meta_passes_waves fuel written rootTypes) as Hwaves.
    rewrite Hpasses in Hwaves. cbn in Hwaves. symmetry in Hwaves.
    apply (waves_released fuel _ _ k (map MetaData.Type_.name pass.1)
             (map MetaData.Type_.name next.1) Hwaves); [| | done].
    + by rewrite list_lookup_fmap, Hpass.
    + by rewrite list_lookup_fmap, Hnext.
Qed.

(** ** Models on which [saveCode] returns *)

Section flatten_ranked.
Context {I : Type} (nameOf : I → string) (ownNames : I → list string)
  (baseNames : I → list string) (interfaces : list I) (rank : string → nat).
Context (bases_lower : ∀ j e, j ∈ interfaces → e ∈ baseNames j → rank e < rank (nameOf j)).

Lemma findInterface_Some (extend : string) (base : I) :
  findInterface nameOf interfaces extend = Some base →
  base ∈ interfaces ∧ nameOf base = extend.
Proof.
  intros [Hin Hname]%find_some. split; [by apply list_elem_of_In |].
  by apply bool_decide_eq_true in Hname.
Qed.

Lemma flatten_bases_return (fuel : nat) (extends : list string) :
  (∀ extend base, extend ∈ extends → findInterface nameOf interfaces extend = Some base →
     ∃ properties, flatten nameOf ownNames baseNames interfaces fuel base = Some properties) →
  ∀ acc, ∃ r,
    foldl (λ acc extend,
        properties ← acc;
        match findInterface nameOf interfaces extend with
        | Some it =>
            inherited ← flatten nameOf ownNames baseNames interfaces fuel it;
            Some (properties ++ inherited)
        | None => Some properties
        end) (Some acc) extends = Some r.
Proof.
  induction extends as [|extend extends IH]; intros Hbases acc; [by exists acc |].
  cbn [foldl mbind option_bind].
  destruct (findInterface nameOf interfaces extend) as [base|] eqn:Hfind.
  - destruct (Hbases extend base) as [properties ->]; [by left | done |].
    cbn [mbind option_bind]. apply IH. intros e b He. apply Hbases. by right.
  - apply IH. intros e b He. apply Hbases. by right.
Qed.

Lemma flatten_ranked (n : nat) :
  ∀ interface fuel,
    (∀ e base, e ∈ baseNames interface →
               findInterface nameOf interfaces e = Some base → rank e < n) →
    n < fuel →
    ∃ properties, flatten nameOf ownNames baseNames interfaces fuel interface = Some properties.
Proof.
  induction (lt_wf n) as [n _ IH]. intros interface fuel Hrank Hfuel.
  destruct fuel as [|fuel]; [lia |]. cbn [flatten].
  apply flatten_bases_return. intros extend base Hextend Hfind.
  pose proof (Hrank _ _ Hextend Hfind) as Hlower.
  apply findInterface_Some in Hfind as [Hin Hname].
  apply (IH (rank extend)); [done | | lia].
  intros e base' He _. rewrite <- Hname. by apply bases_lower.
Qed.

Lemma ranks_bounded : ∃ bound, ∀ j, j ∈ interfaces → rank (nameOf j) < bound.
Proof using Type.
  clear bases_lower. induction interfaces as [|i l [bound Hbound]].
  - exists 0. intros j Hj. by apply elem_of_nil in Hj.
  - exists (S (max bound (rank (nameOf i)))).
    intros j [->|Hj%Hbound]%elem_of_cons; lia.
Qed.

Lemma flatten_returns_for_all :
  ∃ bound, ∀ fuel interface, bound ≤ fuel →
    ∃ properties, flatten nameOf ownNames baseNames interfaces fuel interface = Some properties.
Proof.
  destruct ranks_bounded as [bound Hbound]. exists (S bound).
  intros fuel interface Hfuel. apply (flatten_ranked bound); [| lia].
  intros e base _ [Hin <-]%findInterface_Some. by apply Hbound.
Qed.

End flatten_ranked.

Lemma spec_writeJsonInterface_returns (fuel : nat) (interfaces : list Data.Interface.t) :
  (∀ interface, ∃ properties,
     SpecWriter.interfaceProperties fuel interface interfaces = Some properties) →
  ∀ interface parent, ∃ text,
    SpecWriter.writeJsonInterface fuel interfaces interface parent = Some text.
Proof.
  intros Hproperties. fix IH 1.
  intros [name comment extends children properties dependencies] parent.
  assert (∃ texts,
            foldr (λ child acc,
                text ← SpecWriter.writeJsonInterface fuel interfaces child (parent ++ [name]);
                others ← acc;
                Some (text +:+ others))
              (Some EmptyString) children = Some texts) as [texts Htexts].
  { induction children as [|child children [texts IHc]]; [by eexists |].
    cbn [foldr]. destruct (IH child (parent ++ [name])) as [text ->].
    rewrite IHc. by eexists. }
  rewrite spec_writeJsonInterface_unfold. cbv zeta.
  case_bool_decide; [by eexists |].
  destruct (Hproperties (Data.Interface.mk name comment extends children properties
                           dependencies)) as [flattened ->].
  cbn [mbind option_bind Data.Interface.children Data.Interface.name].
  rewrite Htexts. by eexists.
Qed.

Lemma meta_writeJsonInterface_returns (fuel : nat) (interfaces : list MetaData.Type_.t) :
  (∀ interface, ∃ properties,
     MetaSpecWriter.interfaceProperties fuel interface interfaces = Some properties) →
  ∀ interface parent, ∃ text,
    MetaSpecWriter.writeJsonInterface fuel interfaces interface parent = Some text.
Proof.
  intros Hproperties. fix IH 1.
  intros [kind name value documentation since deprecated dependencies items isInterface
            extends] parent.
  assert (∀ parent', ∃ texts,
            foldr (λ child acc,
                text ← (if MetaData.Type_.is_interface child
                        then MetaSpecWriter.writeJsonInterface fuel interfaces child parent'
                        else Some EmptyString);
                others ← acc;
                Some (text +:+ others))
              (Some EmptyString) items = Some texts) as Htexts.
  { intros parent'. induction items as [|child items [texts IHc]]; [by eexists |].
    cbn [foldr]. rewrite IHc. destruct (MetaData.Type_.is_interface child).
    - destruct (IH child parent') as [text ->]. by eexists.
    - by eexists. }
  rewrite meta_writeJsonInterface_unfold. cbv zeta.
  case_bool_decide; [by eexists |].
  destruct (Hproperties (MetaData.Type_.mk kind name value documentation since deprecated
                           dependencies items isInterface extends)) as [flattened ->].
  cbn [mbind option_bind MetaData.Type_.items MetaData.Type_.name].
  destruct (Htexts (parent ++ [QString.removeChar "?" name])) as [texts ->]. by eexists.
Qed.

Lemma bindings_return {I : Type} (write : I → option string) (interfaces : list I) :
  (∀ interface, ∃ text, write interface = Some text) →
  ∃ bindings,
    foldr (λ interface acc, text ← write interface; others ← acc; Some (text +:+ others))
      (Some EmptyString) interfaces = Some bindings.
Proof.
  intros Hwrite. induction interfaces as [|interface interfaces [bindings IH]]; [by eexists |].
  cbn [foldr]. destruct (Hwrite interface) as [text ->]. rewrite IH. by eexists.
Qed.

Lemma waves_returns (decls decls' : list (string * list string)) :
  NoDup (map fst decls) → resolved decls → acyclic (dependsOn decls) → decls ≡ₚ decls' →
  ∃ ws, waves (length decls) decls' = Some ws.
Proof.
  intros Hnodup Hresolved Hacyclic Hperm.
  assert (∀ name dependency, dependsOn decls' name dependency → dependsOn decls name dependency)
    as Hsame.
  { intros name dependency (ds & Hin & Hd). exists ds. by rewrite Hperm. }
  destruct (waves_order decls') as (ws & Hws & _).
  - by rewrite <- Hperm.
  - intros name dependency Hdep%Hsame. rewrite <- Hperm. exact (Hresolved _ _ Hdep).
  - intros name Hcycle. apply (Hacyclic name). revert Hcycle. generalize name at 1 3.
    generalize name. intros a b. induction 1 as [a b Hstep | a m b Hstep _ IH].
    + by apply tc_once, Hsame.
    + eapply tc_l; [by apply Hsame | done].
  - exists ws. by rewrite Hperm.
Qed.

(** X25: [saveCode] returns on a well-formed model when the sorts in front
    of the loop return.  When, after the clean-up, no two aliases or
    interfaces share a name, every dependency is the name of an alias or an
    interface, the dependencies have no cycle, the names can be ranked so
    that every interface extends names of lower rank only, and each call of
    the sort returns, leaving its vector rearranged, then the call returns,
    whatever the files do.  The file of the declarations, when it could be
    opened, holds what the stream made of the header, the enumerations and
    the declarations; the file of the bindings, when it could be opened
    after that, holds what the stream made of the header, the tables of the
    enumerations and the bindings of the interfaces. *)
Theorem saveCode_returns
    (path : string) (dev : Device)
    (sortTypes : list Data.Type_.t → option (list Data.Type_.t))
    (sortInterfaces : list Data.Interface.t → option (list Data.Interface.t))
    (sortRootTypes : list MetaData.Type_.t → option (list MetaData.Type_.t))
    (files : gmap string string) (data : Data.t) (metaData : MetaData.t)
    (rank : string → nat)
    (arrangedTypes : list Data.Type_.t) (arrangedInterfaces : list Data.Interface.t)
    (arrangedRootTypes : list MetaData.Type_.t) :
  let cleaned := SpecWriter.cleanCode data in
  let decls := declarations (Data.types cleaned) ++ declarations (Data.interfaces cleaned) in
  let metaCleaned := MetaSpecWriter.cleanCode metaData in
  let rootDecls :=
    declarations (MetaData.types metaCleaned ++ MetaData.interfaces metaCleaned) in
  let declarationsFile := path +:+ "/types.h" in
  let bindingsFile := path +:+ "/types_json.h" in
  sortTypes (Data.types cleaned) = Some arrangedTypes →
  arrangedTypes ≡ₚ Data.types cleaned →
  sortInterfaces (Data.interfaces cleaned) = Some arrangedInterfaces →
  arrangedInterfaces ≡ₚ Data.interfaces cleaned →
  sortRootTypes (MetaData.types metaCleaned ++ MetaData.interfaces metaCleaned)
    = Some arrangedRootTypes →
  arrangedRootTypes ≡ₚ MetaData.types metaCleaned ++ MetaData.interfaces metaCleaned →
  NoDup (map fst decls) → resolved decls → acyclic (dependsOn decls) →
  (∀ i e, i ∈ Data.interfaces cleaned → e ∈ Data.Interface.extends i →
          rank e < rank (Data.Interface.name i)) →
  NoDup (map fst rootDecls) → resolved rootDecls → acyclic (dependsOn rootDecls) →
  (∀ i e, i ∈ MetaData.interfaces metaCleaned → e ∈ metaBaseNames i →
          rank e < rank (MetaData.Type_.name i)) →
  ∃ enough, ∀ fuel, enough ≤ fuel →
    (∃ written data' bindings,
       SpecWriter.writeTypesAndInterfaces sortTypes sortInterfaces fuel cleaned
         = Some (written, data') ∧
       foldr (λ interface acc,
           text ← SpecWriter.writeJsonInterface fuel (Data.interfaces data') interface [];
           others ← acc;
           Some (text +:+ others))
         (Some EmptyString) (Data.interfaces data') = Some bindings ∧
       SpecWriter.saveCode path dev sortTypes sortInterfaces fuel files data =
         Some (Returned,
               if canOpen dev declarationsFile then
                 let written :=
                   <[declarationsFile :=
                       store dev declarationsFile
                         (Patterns.CodeHeader
                            (SpecWriter.writeEnums (Data.enumerations data') +:+ written))]>
                     files in
                 if canOpen dev bindingsFile then
                   <[bindingsFile :=
                       store dev bindingsFile
                         (Patterns.CodeJsonHeader
                            (SpecWriter.writeJsonEnums (Data.enumerations data')
                             +:+ bindings))]>
                     written
                 else written
               else files,
               if canOpen dev declarationsFile then data' else cleaned)) ∧
    (∃ written bindings,
       MetaSpecWriter.writeTypesAndInterfaces sortRootTypes fuel metaCleaned = Some written ∧
       foldr (λ interface acc,
           text ← MetaSpecWriter.writeJsonInterface fuel (MetaData.interfaces metaCleaned)
                    interface [];
           others ← acc;
           Some (text +:+ others))
         (Some EmptyString) (MetaData.interfaces metaCleaned) = Some bindings ∧
       MetaSpecWriter.saveCode path dev sortRootTypes fuel files metaData =
         Some (Returned,
               if canOpen dev declarationsFile then
                 let written :=
                   <[declarationsFile :=
                       store dev declarationsFile
                         (Patterns.CodeHeader
                            (MetaSpecWriter.writeEnums (MetaData.enumerations metaCleaned)
                             +:+ written))]>
                     files in
                 if canOpen dev bindingsFile then
                   <[bindingsFile :=
                       store dev bindingsFile
                         (Patterns.CodeJsonHeader
                            (MetaSpecWriter.writeJsonEnums (MetaData.enumerations metaCleaned)
                             +:+ bindings))]>
                     written
                 else written
               else files)).
Proof.
  intros cleaned decls metaCleaned rootDecls declarationsFile bindingsFile
    HsortTypes HarrangedTypes HsortInterfaces HarrangedInterfaces HsortRoot HarrangedRoot
    Hnodup Hresolved Hacyclic Hrank HrootNodup HrootResolved HrootAcyclic HrootRank.
  (* the table-driven writer *)
  destruct (waves_returns decls
              (declarations arrangedTypes ++ declarations arrangedInterfaces))
    as [ws Hws]; [done.. | |].
  { unfold decls, declarations.
    by rewrite (Permutation_map _ HarrangedTypes), (Permutation_map _ HarrangedInterfaces). }
  rewrite <- spec_passes_waves in Hws.
  destruct (SpecWriter.passes (length decls) _ _) as [passes|] eqn:Hpasses; [| done].
  clear ws Hws.
  destruct (spec_passes_emptied _ _ _ _ Hpasses) as [_ Hleft].
  destruct (flatten_returns_for_all Data.Interface.name specOwnNames Data.Interface.extends
              (passes ≫= snd) rank) as [bound Hbound].
  { intros j e Hj He. rewrite Hleft in Hj.
    apply elem_of_map in Hj as (j0 & -> & Hj0). rewrite HarrangedInterfaces in Hj0.
    by apply (Hrank j0). }
  (* the tree-structured writer *)
  destruct (waves_returns rootDecls (declarations arrangedRootTypes))
    as [ws Hws]; [done.. | |].
  { unfold rootDecls, declarations. by rewrite (Permutation_map _ HarrangedRoot). }
  rewrite <- (meta_passes_waves _ []) in Hws.
  destruct (MetaSpecWriter.passes (length rootDecls) _ _) as [metaPasses|] eqn:HmetaPasses;
    [| done].
  clear ws Hws.
  destruct (flatten_returns_for_all MetaData.Type_.name metaOwnNames metaBaseNames
              (MetaData.interfaces metaCleaned) rank HrootRank) as [metaBound HmetaBound].
  exists (length decls + bound + length rootDecls + metaBound). intros fuel Hfuel. split.
  - destruct (bindings_return
                (λ interface,
                   SpecWriter.writeJsonInterface fuel (passes ≫= snd) interface [])
                (passes ≫= snd)) as [bindings Hbindings].
    { intros interface. apply spec_writeJsonInterface_returns. intros i.
      rewrite spec_interfaceProperties_flatten. apply Hbound. lia. }
    assert (SpecWriter.writeTypesAndInterfaces sortTypes sortInterfaces fuel cleaned =
            Some (QString.appendAll SpecWriter.passText passes,
                  Data.mk (Data.notifications cleaned) (Data.requests cleaned)
                    (Data.enumerations cleaned) (passes ≫= fst) (passes ≫= snd)))
      as Hwritten.
    { unfold SpecWriter.writeTypesAndInterfaces.
      rewrite HsortTypes, HsortInterfaces. cbn [mbind option_bind].
      by rewrite (spec_passes_more_fuel _ fuel _ _ _ Hpasses) by lia. }
    eexists _, _, bindings. split; [exact Hwritten |]. split; [exact Hbindings |].
    unfold SpecWriter.saveCode. cbv zeta. fold cleaned declarationsFile bindingsFile.
    destruct (canOpen dev declarationsFile); cbn [negb]; [| done].
    rewrite Hwritten. cbn [mbind option_bind Data.interfaces Data.enumerations].
    unfold streamTo, openTruncate.
    destruct (canOpen dev bindingsFile); cbn [negb].
    + rewrite Hbindings. cbn [mbind option_bind]. by rewrite !insert_insert_eq.
    + by rewrite insert_insert_eq.
  - destruct (bindings_return
                (λ interface,
                   MetaSpecWriter.writeJsonInterface fuel (MetaData.interfaces metaCleaned)
                     interface [])
                (MetaData.interfaces metaCleaned)) as [bindings Hbindings].
    { intros interface. apply meta_writeJsonInterface_returns. intros i.
      rewrite meta_interfaceProperties_flatten. apply HmetaBound. lia. }
    assert (MetaSpecWriter.writeTypesAndInterfaces sortRootTypes fuel metaCleaned =
            Some (QString.appendAll MetaSpecWriter.passText metaPasses)) as Hwritten.
    { unfold MetaSpecWriter.writeTypesAndInterfaces.
      rewrite HsortRoot. cbn [mbind option_bind].
      by rewrite (meta_passes_more_fuel _ fuel _ _ _ HmetaPasses) by lia. }
    eexists _, bindings. split; [exact Hwritten |]. split; [exact Hbindings |].
    unfold MetaSpecWriter.saveCode. cbv zeta. fold metaCleaned declarationsFile bindingsFile.
    destruct (canOpen dev declarationsFile); cbn [negb]; [| done].
    rewrite Hwritten. cbn [mbind option_bind].
    unfold streamTo, openTruncate.
    destruct (canOpen dev bindingsFile); cbn [negb].
    + rewrite Hbindings. cbn [mbind option_bind]. by rewrite !insert_insert_eq.
    + by rewrite insert_insert_eq.
Qed.

Lemma saveCode_returns_witness :
  ∃ fuel outcome,
    SpecWriter.saveCode "lsp" Examples.openDevice Some Some fuel ∅ Examples.endToEnd
      = Some outcome ∧
    is_Some (outcome.1.2 !! "lsp/types.h") ∧ is_Some (outcome.1.2 !! "lsp/types_json.h").
Proof.
  destruct (saveCode_returns "lsp" Examples.openDevice Some Some Some ∅
              Examples.endToEnd Examples.metaEndToEnd (λ _, 0)
              (Data.types (SpecWriter.cleanCode Examples.endToEnd))
              (Data.interfaces (SpecWriter.cleanCode Examples.endToEnd))
              (MetaData.types (MetaSpecWriter.cleanCode Examples.metaEndToEnd)
               ++ MetaData.interfaces (MetaSpecWriter.cleanCode Examples.metaEndToEnd)))
    as [enough Henough].
  - done.
  - done.
  - done.
  - done.
  - done.
  - done.
  - compute_done.
  - apply resolved_by_list. compute_done.
  - apply (acyclic_by_rank _ (λ _, 0)). compute_done.
  - intros i e [->|Hi%elem_of_nil]%elem_of_cons He; [| done]. by apply elem_of_nil in He.
  - compute_done.
  - apply resolved_by_list. compute_done.
  - apply (acyclic_by_rank _ (λ _, 0)). compute_done.
  - intros i e [->|Hi%elem_of_nil]%elem_of_cons He; [| done]. by apply elem_of_nil in He.
  - destruct (Henough enough (le_n _)) as [(written & data' & bindings & _ & _ & Hsaved) _].
    eexists enough, _. split; [exact Hsaved |]. cbn [fst snd canOpen Examples.openDevice].
    split; [rewrite lookup_insert_ne by done |]; by rewrite lookup_insert_eq.
Defined.
